(** * ophyd.controls.areadetector.base

    A shallow embedding of the lazy signal-binding layer: the [Signal] /
    [SignalRW] descriptors with the [SignalMeta] registry and the [Base] /
    [SettableBase] objects, the documentation resolver [lookup_doc], and the
    [ADSignal] / [ADSignalGroup] descriptors of [ADBase].

    Python objects live in an explicit store; a reference is an address in
    that store, so that "the identical object" is equality of addresses. *)

From Stdlib Require Import Ascii.
From stdpp Require Import base strings list gmap sorting.

(** ** Python string primitives used by the module *)

Module PyStr.

(** [s.startswith(p)] *)
Fixpoint startswith (s p : string) : bool :=
  match p, s with
  | EmptyString, _ => true
  | String _ _, EmptyString => false
  | String a p', String b s' => bool_decide (a = b) && startswith s' p'
  end.

(** [needle in s] *)
Fixpoint contains (needle s : string) : bool :=
  startswith s needle ||
  match s with
  | EmptyString => false
  | String _ s' => contains needle s'
  end.

(** [s.endswith(suf)] *)
Fixpoint endswith (s suf : string) : bool :=
  bool_decide (s = suf) ||
  match s with
  | EmptyString => false
  | String _ s' => endswith s' suf
  end.

(** [s[:-n]] for a positive [n] *)
Definition drop_last (n : nat) (s : string) : string :=
  String.substring 0 (String.length s - n) s.

(** [s.isascii()] *)
Fixpoint isascii (s : string) : bool :=
  match s with
  | EmptyString => true
  | String c s' => bool_decide (nat_of_ascii c < 128) && isascii s'
  end.

(** [c.lower()] on the ASCII letters *)
Definition lower_ascii (c : ascii) : ascii :=
  let n := nat_of_ascii c in
  if bool_decide (65 ≤ n ≤ 90) then ascii_of_nat (n + 32) else c.

(** [s.lower()] for a string of ASCII characters ([isascii]): the letters A to
    Z are lowered and nothing else changes.  On other strings [str.lower]
    follows Unicode and does more; what is proved through [lower] is stated
    for ASCII strings. *)
Fixpoint lower (s : string) : string :=
  match s with
  | EmptyString => EmptyString
  | String c s' => String (lower_ascii c) (lower s')
  end.

(** [s.rstrip(c)] for a one-character argument *)
Fixpoint rstrip (c : ascii) (s : string) : string :=
  match s with
  | EmptyString => EmptyString
  | String a s' =>
      match rstrip c s' with
      | EmptyString => if bool_decide (a = c) then EmptyString
                       else String a EmptyString
      | r => String a r
      end
  end.

(** [s.replace(a, b)] for one-character arguments *)
Fixpoint replace (a b : ascii) (s : string) : string :=
  match s with
  | EmptyString => EmptyString
  | String c s' => String (if bool_decide (c = a) then b else c) (replace a b s')
  end.

End PyStr.

(** ** Exceptions and results *)

Inductive exn :=
| ValueError (msg : string)
| TypeError (msg : string)
| AttributeError (msg : string)
| KeyError (msg : string)
| DisconnectedError (msg : string)
| SystemError (msg : string).

Inductive result (A : Type) :=
| Ok (a : A)
| Raise (e : exn).
Arguments Ok {A} a.
Arguments Raise {A} e.

Definition is_ok {A} (r : result A) : bool :=
  match r with Ok _ => true | Raise _ => false end.

(** Computations that mutate a store of type [S] and may raise.  A raise keeps
    the mutations done so far, as in Python. *)
Definition M (S A : Type) : Type := S → result A * S.

Definition ret {S A} (a : A) : M S A := λ st, (Ok a, st).
Definition raise {S A} (e : exn) : M S A := λ st, (Raise e, st).
Definition bind {S A B} (c : M S A) (k : A → M S B) : M S B :=
  λ st, match c st with
        | (Ok a, st') => k a st'
        | (Raise e, st') => (Raise e, st')
        end.
Definition lift {S A} (r : result A) : M S A := λ st, (r, st).

Notation "x <~ c ;; k" := (bind c (λ x, k))
  (at level 100, c at next level, right associativity).
Notation "c ;;; k" := (bind c (λ _, k))
  (at level 100, right associativity).

(** An insertion-ordered dictionary, as the namespace of a class body and the
    dicts built from it: assigning an existing key keeps its position. *)
Fixpoint odict_set {A} (k : string) (v : A) (d : list (string * A))
  : list (string * A) :=
  match d with
  | [] => [(k, v)]
  | (k', v') :: d' =>
      if bool_decide (k' = k) then (k, v) :: d' else (k', v') :: odict_set k v d'
  end.

Fixpoint odict_get {A} (k : string) (d : list (string * A)) : option A :=
  match d with
  | [] => None
  | (k', v') :: d' => if bool_decide (k' = k) then Some v' else odict_get k d'
  end.

(** ** [Signal], [SignalRW], [SignalMeta], [Base], [SettableBase] *)

Module Lite.

(** What the module takes from outside: the pyepics channel client, seen
    through [PV.connected], [PV.get] and [PV.put], and the builtin
    [str.format] called as [template.format(base_name=b)]. *)
Class Env (Val Config Status : Type) := {
  pv_connected : string → bool;
  pv_get : string → Val;
  pv_put : string → Val → Status;
  format_base_name : string → string → result string
}.

Section lite.
Context {Val Config Status : Type} {env : Env Val Config Status}.

(** The descriptor classes: [Signal] and its subclass [SignalRW]. *)
Inductive SignalKind := KSignal | KSignalRW.

Record Signal := mkSignal {
  sig_kind : SignalKind;
  pv_template : string;
  sig_args : Config
}.

(** [Signal.__init__], inherited by [SignalRW] *)
Definition Signal__init__ (k : SignalKind) (pv_template : string)
    (args : Config) : result Signal :=
  if negb (PyStr.contains "{base_name}" pv_template)
  then Raise (ValueError "pv_template must contain '{base_name}'")
  else Ok (mkSignal k pv_template args).

(** [epics.PV(pvname, ...)]: the handle keeps the name it was built from. *)
Record PV := mkPV { pvname : string; pv_config : option Config }.

Inductive Channel :=
| EpicsSignalLite (pv : PV)
| EpicsSignalLiteRW (pv : PV) (readback_pv : PV).

Definition chan_pv (c : Channel) : PV :=
  match c with
  | EpicsSignalLite pv => pv
  | EpicsSignalLiteRW pv _ => pv
  end.

(** [self._class(pv_name, *self.args, **self.kwargs)] *)
Definition Channel__init__ (k : SignalKind) (pv_name : string)
    (args : Config) : Channel :=
  match k with
  | KSignal => EpicsSignalLite (mkPV pv_name (Some args))
  | KSignalRW =>
      EpicsSignalLiteRW (mkPV pv_name (Some args))
                        (mkPV (pv_name +:+ ".RBV") None)
  end.

(** the [connected] properties *)
Definition connected (c : Channel) : bool :=
  match c with
  | EpicsSignalLite pv => pv_connected (pvname pv)
  | EpicsSignalLiteRW pv rb =>
      pv_connected (pvname pv) && pv_connected (pvname rb)
  end.

(** The store: the channel objects by address, the dicts created by
    [clsobj._pvs = {}] by address, the next free instance address, and the
    log of the [PV.put] calls issued. *)
Record Store := mkStore {
  chans : list Channel;
  dicts : gmap nat (gmap string nat);
  next_inst : nat;
  puts : list (string * Val)
}.

Definition empty_store : Store := mkStore [] ∅ 0 [].

Definition new_channel (c : Channel) : M Store nat :=
  λ st, (Ok (length (chans st)),
         mkStore (chans st ++ [c]) (dicts st) (next_inst st)
                 (puts st)).

Definition new_dict : M Store nat :=
  λ st, let d := fresh (dom (dicts st)) in
        (Ok d, mkStore (chans st) (<[d := ∅]> (dicts st)) (next_inst st)
                       (puts st)).

Definition new_inst : M Store nat :=
  λ st, (Ok (next_inst st),
         mkStore (chans st) (dicts st) (S (next_inst st))
                 (puts st)).

Definition dict_contains (d : nat) (k : string) : M Store bool :=
  λ st, (Ok (bool_decide (is_Some ((dicts st !!! d) !! k))), st).

Definition dict_setitem (d : nat) (k : string) (r : nat) : M Store unit :=
  λ st, (Ok tt,
         mkStore (chans st) (<[d := <[k := r]> (dicts st !!! d)]> (dicts st))
                 (next_inst st) (puts st)).

Definition dict_getitem (d : nat) (k : string) : M Store nat :=
  λ st, match (dicts st !!! d) !! k with
        | Some r => (Ok r, st)
        | None => (Raise (KeyError k), st)
        end.

Definition log_put (name : string) (v : Val) : M Store unit :=
  λ st, (Ok tt,
         mkStore (chans st) (dicts st) (next_inst st)
                 (puts st ++ [(name, v)])).

(** The class object that [SignalMeta.__new__] returns. *)
Record SchemaClass := mkClass {
  cls_name : string;
  cls_templates : list (string * string);
  cls_signals : list (string * Signal);
  cls_signal_names : list string;
  cls_default_sig_for_set : list string;
  cls_pvs : nat
}.

(** An instance of a schema class.  [read_fields] is [None] while the
    attribute has not been assigned. *)
Record Instance := mkInstance {
  inst_addr : nat;
  inst_class : SchemaClass;
  base_name : string;
  read_fields : option (list string)
}.

(** What an attribute access can evaluate to. *)
Inductive PyVal :=
| VNone
| VChan (r : nat)
| VStr (s : string)
| VList (l : list string)
| VDict
| VObject.

(** [Signal.__get__(self, instance, owner)].  [instance._pvs] is found on the
    class: no instance ever assigns a [_pvs] of its own. *)
Definition Signal__get__ (self : Signal) (instance : option Instance)
  : M Store PyVal :=
  match instance with
  | None => ret VNone
  | Some instance =>
      pv_name <~ lift (format_base_name (pv_template self) (base_name instance));;
      let _pvs := cls_pvs (inst_class instance) in
      present <~ dict_contains _pvs pv_name;;
      (if negb present
       then r <~ new_channel (Channel__init__ (sig_kind self) pv_name (sig_args self));;
            dict_setitem _pvs pv_name r
       else ret tt);;;
      r <~ dict_getitem _pvs pv_name;;
      ret (VChan r)
  end.

(** *** Class definition *)

(** The right-hand side of an assignment in a class body: a call of
    [Signal(...)] or [SignalRW(...)], or anything else (a method, a
    constant). *)
Inductive BodyExpr :=
| ENewSignal (k : SignalKind) (pv_template : string) (args : Config)
| EOther.

Inductive Attr :=
| ASignal (s : Signal)
| AOther.

(** Running the class body fills the namespace in statement order; a name
    assigned again keeps its slot and takes the new value. *)
Fixpoint exec_body (body : list (string * BodyExpr))
    (ns : list (string * Attr)) : result (list (string * Attr)) :=
  match body with
  | [] => Ok ns
  | (name, ENewSignal k t a) :: body' =>
      match Signal__init__ k t a with
      | Ok s => exec_body body' (odict_set name (ASignal s) ns)
      | Raise e => Raise e
      end
  | (name, EOther) :: body' => exec_body body' (odict_set name AOther ns)
  end.

(** [{k: v for k, v in clsdict.items() if isinstance(v, Signal)}] *)
Fixpoint signals_of (clsdict : list (string * Attr)) : list (string * Signal) :=
  match clsdict with
  | [] => []
  | (k, ASignal s) :: d => (k, s) :: signals_of d
  | (_, AOther) :: d => signals_of d
  end.

(** [[k for k, v in clsobj.signals.items() if isinstance(v, SignalRW)]] *)
Fixpoint writable_signals (signals : list (string * Signal)) : list string :=
  match signals with
  | [] => []
  | (k, v) :: d =>
      match sig_kind v with
      | KSignalRW => k :: writable_signals d
      | KSignal => writable_signals d
      end
  end.

(** [SignalMeta.__new__(cls, name, bases, clsdict)].  The signature for [set]
    is kept as the list of its POSITIONAL_OR_KEYWORD parameter names. *)
Definition SignalMeta__new__ (name : string) (clsdict : list (string * Attr))
  : M Store SchemaClass :=
  let sig_dict := signals_of clsdict in
  let _templates := map (λ kv, (kv.1, pv_template kv.2)) sig_dict in
  let signal_names := map fst sig_dict in
  let signature := writable_signals sig_dict in
  _pvs <~ new_dict;;
  ret (mkClass name _templates sig_dict signal_names signature _pvs).

(** A [class name(Base): body] statement. *)
Definition define_class (name : string) (body : list (string * BodyExpr))
  : M Store SchemaClass :=
  clsdict <~ lift (exec_body body []);;
  SignalMeta__new__ name clsdict.

(** *** [Base] *)

(** [Base.__init__(self, base_name, read_fields=None)] on a fresh object of
    class [cls]. *)
Definition Base__init__ (cls : SchemaClass) (base_name : string)
    (read_fields : option (list string)) : M Store Instance :=
  a <~ new_inst;;
  ret (mkInstance a cls base_name
         (match read_fields with
          | None => Some (cls_signal_names cls)
          | Some _ => None
          end)).

(** Names that [SignalMeta.__new__] assigns on the class after its creation:
    a signal declared under one of them is overwritten. *)
Definition meta_attrs : list string :=
  ["_templates"; "signals"; "signal_names"; "_default_sig_for_set"; "_pvs"].

Definition meta_value (cls : SchemaClass) (name : string) : PyVal :=
  if bool_decide (name = "signal_names") then VList (cls_signal_names cls)
  else if bool_decide (name = "_default_sig_for_set") then VObject
  else VDict.

(** The descriptor that [getattr(self, name)] reaches, if it reaches one.
    [Signal] has no [__set__], so an attribute stored on the instance by
    [Base.__init__] comes first. *)
Definition field_signal (self : Instance) (name : string) : option Signal :=
  if bool_decide (name = "base_name") then None
  else if bool_decide (name = "read_fields")
          && bool_decide (is_Some (read_fields self)) then None
  else if bool_decide (name ∈ meta_attrs) then None
  else odict_get name (cls_signals (inst_class self)).

(** [getattr(self, name)] for the names the generic operations pass, which are
    names of declared signals; names that are not declared signals are not
    looked up further. *)
Definition getattr (self : Instance) (name : string) : M Store PyVal :=
  if bool_decide (name = "base_name") then ret (VStr (base_name self))
  else if bool_decide (name = "read_fields")
          && bool_decide (is_Some (read_fields self))
  then ret (VList (default [] (read_fields self)))
  else if bool_decide (name ∈ meta_attrs)
  then ret (meta_value (inst_class self) name)
  else
    match odict_get name (cls_signals (inst_class self)) with
    | Some d => Signal__get__ d (Some self)
    | None => raise (AttributeError name)
    end.

(** [sig.get()], through [raise_if_disconnected] *)
Definition Channel_get (v : PyVal) : M Store Val :=
  match v with
  | VChan r =>
      λ st, match chans st !! r with
            | Some c =>
                if connected c
                then (Ok (pv_get (match c with
                                  | EpicsSignalLite pv => pvname pv
                                  | EpicsSignalLiteRW _ rb => pvname rb
                                  end)), st)
                else (Raise (DisconnectedError
                               (pvname (chan_pv c) +:+ " is not connected")), st)
            | None => (Raise (SystemError "dangling reference"), st)
            end
  | VDict => raise (TypeError "get expected at least 1 argument, got 0")
  | _ => raise (AttributeError "get")
  end.

(** [sig.pv.pvname] *)
Definition Channel_pvname (v : PyVal) : M Store string :=
  match v with
  | VChan r =>
      λ st, match chans st !! r with
            | Some c => (Ok (pvname (chan_pv c)), st)
            | None => (Raise (SystemError "dangling reference"), st)
            end
  | _ => raise (AttributeError "pv")
  end.

(** [sig.put(val)]; [EpicsSignalLite] has no [put]. *)
Definition Channel_put (v : PyVal) (x : Val) : M Store Status :=
  match v with
  | VChan r =>
      λ st, match chans st !! r with
            | Some (EpicsSignalLiteRW pv rb as c) =>
                if connected c
                then (log_put (pvname pv) x;;; ret (pv_put (pvname pv) x)) st
                else (Raise (DisconnectedError
                               (pvname pv +:+ " is not connected")), st)
            | Some (EpicsSignalLite _) => (Raise (AttributeError "put"), st)
            | None => (Raise (SystemError "dangling reference"), st)
            end
  | _ => raise (AttributeError "put")
  end.

(** [self.read_fields] as [read] and [describe] evaluate it: when the
    instance has no such attribute the class is searched, where only a signal
    declared under that name can be found, and a channel is not iterable. *)
Definition get_read_fields (self : Instance) : M Store (list string) :=
  match read_fields self with
  | Some l => ret l
  | None =>
      match odict_get "read_fields" (cls_signals (inst_class self)) with
      | Some d => Signal__get__ d (Some self);;;
                  raise (TypeError "object is not iterable")
      | None => raise (AttributeError "read_fields")
      end
  end.

Fixpoint read_loop (self : Instance) (names : list string)
    (acc : list (string * Val)) : M Store (list (string * Val)) :=
  match names with
  | [] => ret acc
  | name :: names' =>
      sig <~ getattr self name;;
      v <~ Channel_get sig;;
      read_loop self names' (odict_set name v acc)
  end.

(** [Base.read] *)
Definition Base_read (self : Instance) : M Store (list (string * Val)) :=
  names <~ get_read_fields self;;
  read_loop self names [].

Fixpoint describe_loop (self : Instance) (names : list string)
    (acc : list (string * string)) : M Store (list (string * string)) :=
  match names with
  | [] => ret acc
  | name :: names' =>
      sig <~ getattr self name;;
      src <~ Channel_pvname sig;;
      describe_loop self names' (odict_set name src acc)
  end.

(** [Base.describe]; each value is the [{'source': ...}] entry. *)
Definition Base_describe (self : Instance) : M Store (list (string * string)) :=
  names <~ get_read_fields self;;
  describe_loop self names [].

(** *** [SettableBase] *)

(** [inspect.Signature.bind] for a signature whose
    parameters are all POSITIONAL_OR_KEYWORD without default.  First the
    positional arguments take the leading parameters ... *)
Fixpoint bind_args (params : list string) (args : list Val)
    (kwargs : gmap string Val)
  : result (list (string * Val) * list string) :=
  match args with
  | [] => Ok ([], params)
  | arg_val :: args' =>
      match params with
      | [] => Raise (TypeError "too many positional arguments")
      | param :: params' =>
          if bool_decide (is_Some (kwargs !! param))
          then Raise (TypeError "multiple values for argument")
          else match bind_args params' args' kwargs with
               | Ok (arguments, rest) => Ok ((param, arg_val) :: arguments, rest)
               | Raise e => Raise e
               end
      end
  end.

(** ... then each remaining parameter pops its keyword argument, and no
    keyword argument may be left over. *)
Fixpoint bind_kwargs (params : list string) (kwargs : gmap string Val)
  : result (list (string * Val)) :=
  match params with
  | [] =>
      if bool_decide (kwargs = ∅) then Ok []
      else Raise (TypeError "got an unexpected keyword argument")
  | param :: params' =>
      match kwargs !! param with
      | None => Raise (TypeError "missing a required argument")
      | Some arg_val =>
          match bind_kwargs params' (delete param kwargs) with
          | Ok arguments => Ok ((param, arg_val) :: arguments)
          | Raise e => Raise e
          end
      end
  end.

(** [bound.arguments], in parameter order *)
Definition Signature_bind (params : list string) (args : list Val)
    (kwargs : gmap string Val) : result (list (string * Val)) :=
  match bind_args params args kwargs with
  | Raise e => Raise e
  | Ok (arguments, rest) =>
      match bind_kwargs rest kwargs with
      | Ok arguments' => Ok (arguments ++ arguments')
      | Raise e => Raise e
      end
  end.

Fixpoint set_loop (self : Instance) (bound : list (string * Val))
    (status_objs : list Status) : M Store (list Status) :=
  match bound with
  | [] => ret status_objs
  | (name, val) :: bound' =>
      sig <~ getattr self name;;
      status <~ Channel_put sig val;;
      set_loop self bound' (status_objs ++ [status])
  end.

(** [SettableBase.set], called with positional and keyword arguments *)
Definition SettableBase_set (self : Instance) (args : list Val)
    (kwargs : gmap string Val) : M Store (list Status) :=
  bound <~ lift (Signature_bind (cls_default_sig_for_set (inst_class self))
                   args kwargs);;
  set_loop self bound [].

(** *** Vocabulary for the properties *)

(** The value that a class-body expression evaluates to when its constructor
    accepts the template. *)
Definition eval_expr (e : BodyExpr) : Attr :=
  match e with
  | ENewSignal k t a => ASignal (mkSignal k t a)
  | EOther => AOther
  end.

(** The last assignment to [name] in a class body. *)
Fixpoint last_decl (name : string) (body : list (string * BodyExpr))
  : option BodyExpr :=
  match body with
  | [] => None
  | (n, e) :: body' =>
      match last_decl name body' with
      | Some e' => Some e'
      | None => if bool_decide (n = name) then Some e else None
      end
  end.

(** The resolved channel identifier of a field of an instance. *)
Definition resolve (self : Instance) (name : string) : option string :=
  d ← field_signal self name;
  match format_base_name (pv_template d) (base_name self) with
  | Ok k => Some k
  | Raise _ => None
  end.

(** The channel of a field in a store: the cached one, or else the one that
    its descriptor is about to build. *)
Definition field_channel (st : Store) (self : Instance) (name : string)
  : option Channel :=
  d ← field_signal self name;
  k ← resolve self name;
  match (dicts st !!! cls_pvs (inst_class self)) !! k with
  | Some r => chans st !! r
  | None => Some (Channel__init__ (sig_kind d) k (sig_args d))
  end.

(** The store after a first access: one more channel, cached under [k] in
    the dict [d]. *)
Definition after_miss (st : Store) (d : nat) (k : string) (c : Channel)
  : Store :=
  mkStore (chans st ++ [c])
          (<[d := <[k := length (chans st)]> (dicts st !!! d)]> (dicts st))
          (next_inst st) (puts st).

(** The operations of the module on a store, and the stores that a program
    can reach with them. *)
Inductive Op :=
| OpDefine (name : string) (body : list (string * BodyExpr))
| OpInit (cls : SchemaClass) (base_name : string)
         (read_fields : option (list string))
| OpGet (self : Signal) (instance : option Instance)
| OpGetattr (self : Instance) (name : string)
| OpRead (self : Instance)
| OpDescribe (self : Instance)
| OpSet (self : Instance) (args : list Val) (kwargs : gmap string Val).

Definition exec (o : Op) (st : Store) : Store :=
  match o with
  | OpDefine name body => (define_class name body st).2
  | OpInit cls b rf => (Base__init__ cls b rf st).2
  | OpGet self instance => (Signal__get__ self instance st).2
  | OpGetattr self name => (getattr self name st).2
  | OpRead self => (Base_read self st).2
  | OpDescribe self => (Base_describe self st).2
  | OpSet self args kwargs => (SettableBase_set self args kwargs st).2
  end.

Definition run (ops : list Op) (st : Store) : Store :=
  foldl (λ st o, exec o st) st ops.

Definition reachable (st : Store) : Prop :=
  ∃ ops, st = run ops empty_store.

(** Every cache entry points to a channel built from its key. *)
Definition wf (st : Store) : Prop :=
  ∀ d k r, (dicts st !!! d) !! k = Some r →
    ∃ c, chans st !! r = Some c ∧ pvname (chan_pv c) = k.

(** [st'] keeps the channels and the cache entries of [st]. *)
Definition extends (st st' : Store) : Prop :=
  chans st `prefix_of` chans st' ∧
  ∀ d k r, (dicts st !!! d) !! k = Some r → (dicts st' !!! d) !! k = Some r.

(** A computation that only grows the store and keeps it well formed. *)
Definition mono {A} (c : M Store A) : Prop :=
  ∀ st r st', c st = (r, st') → extends st st' ∧ (wf st → wf st').

End lite.

Arguments Signal : clear implicits.
Arguments PV : clear implicits.
Arguments Channel : clear implicits.
Arguments Store : clear implicits.
Arguments SchemaClass : clear implicits.
Arguments Instance : clear implicits.
Arguments BodyExpr : clear implicits.
Arguments Attr : clear implicits.
Arguments Op : clear implicits.

End Lite.

(** ** The documentation resolver *)

(** [name_from_pv] *)
Definition name_from_pv (pv : string) : string :=
  let name := PyStr.rstrip ":"%char (PyStr.lower pv) in
  PyStr.replace ":"%char "."%char name.

Module Doc.

(** A class as [lookup_doc] uses it: the [_html_docs] assigned in its own
    body, if any, and the rest of its method resolution order, most derived
    first. *)
#[local] Unset Elimination Schemes.
Inductive PyClass :=
  mkPyClass (own_html_docs : option (list string)) (ancestors : list PyClass).
#[local] Set Elimination Schemes.

Definition own_html_docs (c : PyClass) : option (list string) :=
  match c with mkPyClass h _ => h end.

(** [inspect.getmro(cls_)] *)
Definition getmro (c : PyClass) : list PyClass :=
  match c with mkPyClass _ anc => c :: anc end.

(** [class_._html_docs]: the first class of the resolution order of [class_]
    that assigns the attribute; [None] is the AttributeError. *)
Fixpoint first_html_docs (mro : list PyClass) : option (list string) :=
  match mro with
  | [] => None
  | c :: mro' =>
      match own_html_docs c with
      | Some h => Some h
      | None => first_html_docs mro'
      end
  end.

Definition get_html_docs (class_ : PyClass) : option (list string) :=
  first_html_docs (getmro class_).

(** The inner loop, [for fn in html_file]; [docs] is the table [docs.docs] of
    the sibling module, which maps a file name to its entries. *)
Fixpoint search_files (docs : gmap string (gmap string string))
    (html_file : list string) (pv : string) : option string :=
  match html_file with
  | [] => None
  | fn :: html_file' =>
      match docs !! fn with
      | None => search_files docs html_file' pv
      | Some doc =>
          match doc !! pv with
          | Some d => Some d
          | None =>
              if PyStr.endswith pv "_RBV"
              then match doc !! PyStr.drop_last 4 pv with
                   | Some d => Some d
                   | None => search_files docs html_file' pv
                   end
              else search_files docs html_file' pv
          end
      end
  end.

(** The outer loop, [for class_ in classes] *)
Fixpoint search_classes (docs : gmap string (gmap string string))
    (classes : list PyClass) (pv : string) : option string :=
  match classes with
  | [] => None
  | class_ :: classes' =>
      match get_html_docs class_ with
      | None => search_classes docs classes' pv
      | Some html_file =>
          match search_files docs html_file pv with
          | Some d => Some d
          | None => search_classes docs classes' pv
          end
      end
  end.

Definition not_found (pv : string) : string :=
  "No documentation found [PV suffix=" +:+ pv +:+ "]".

(** [lookup_doc(cls_, pv)] *)
Definition lookup_doc (docs : gmap string (gmap string string))
    (cls_ : PyClass) (pv : string) : string :=
  match search_classes docs (getmro cls_) pv with
  | Some d => d
  | None => not_found pv
  end.

(** The lookup as the specification words it: the tables that the walk
    reaches, in the order it reaches them, each tried with the exact name and
    then with the readback suffix stripped; the first hit, else the
    sentinel. *)
Definition tables_of_walk (docs : gmap string (gmap string string))
    (cls_ : PyClass) : list (gmap string string) :=
  omap (λ fn, docs !! fn)
       (concat (omap get_html_docs (getmro cls_))).

Definition table_hit (pv : string) (doc : gmap string string) : option string :=
  match doc !! pv with
  | Some d => Some d
  | None => if PyStr.endswith pv "_RBV" then doc !! PyStr.drop_last 4 pv
            else None
  end.

Definition first_hit (pv : string) (tables : list (gmap string string))
  : option string :=
  list_find is_Some (table_hit pv <$> tables) ≫= snd.

Definition lookup_spec (docs : gmap string (gmap string string))
    (cls_ : PyClass) (pv : string) : string :=
  default (not_found pv) (first_hit pv (tables_of_walk docs cls_)).

End Doc.

(** ** [ADSignal], [ADSignalGroup], [ADBase] *)

Module AD.

(** A key of [_ad_signals]: the formatted suffix of a signal, or the tuple of
    the member names of a group. *)
Abbreviation Key := (string + list string)%type.
Abbreviation KStr := (@inl string (list string)).
Abbreviation KTuple := (@inr string (list string)).

(** The descriptor.  [kwargs] are passed on to [EpicsSignal]. *)
Record ADSignal {Config : Type} := mkADSignal {
  pv : string;
  has_rbv : bool;
  doc : option string;
  kwargs : Config;
  docstring : string
}.
Arguments ADSignal : clear implicits.
Arguments mkADSignal {Config}.

(** An [ADBase] object.  [attrs] holds what a subclass stores on the object
    for its templates to use, as [channel] in the docstring of [ADSignal]. *)
Record ADBase := mkADBase {
  ad_addr : nat;
  name : string;
  alias : string;
  _prefix : string;
  _ad_signals : nat;
  attrs : gmap string string
}.

(** From outside: [str.format] called as [template.format(self=obj)], and
    the [pvname] of an [EpicsSignal], from the read and write names it was
    built with. *)
Class Env (Config : Type) := {
  format_self : string → ADBase → result string;
  EpicsSignal_pvname : string → option string → string
}.

Section ad.
Context {Val Config : Type} {env : Env Config}.

(** [ADSignal.__init__(self, pv, has_rbv=False, doc=None, **kwargs)] *)
Definition ADSignal__init__ (pv : string) (has_rbv : bool)
    (doc : option string) (kwargs : Config) : ADSignal Config :=
  mkADSignal pv has_rbv doc kwargs ("[Lazy property for " +:+ pv +:+ "]").

(** The objects held in [_ad_signals]: an [EpicsSignal] with the arguments it
    was built from and its [__doc__], or a [SignalGroup] with its members. *)
Inductive Obj :=
| EpicsSignal (read_pv : string) (write_pv : option string)
              (name : string) (kwargs : Config) (doc : option string)
| SignalGroup (kwargs : gmap string string) (signals : list nat).

Record Store := mkStore {
  objs : list Obj;
  dicts : gmap nat (gmap Key nat);
  next_inst : nat;
  assigned : list (nat * Val)
}.

Definition empty_store : Store := mkStore [] ∅ 0 [].

Definition new_obj (o : Obj) : M Store nat :=
  λ st, (Ok (length (objs st)),
         mkStore (objs st ++ [o]) (dicts st) (next_inst st) (assigned st)).

Definition new_dict : M Store nat :=
  λ st, let d := fresh (dom (dicts st)) in
        (Ok d, mkStore (objs st) (<[d := ∅]> (dicts st)) (next_inst st)
                       (assigned st)).

Definition new_inst : M Store nat :=
  λ st, (Ok (next_inst st),
         mkStore (objs st) (dicts st) (S (next_inst st)) (assigned st)).

Definition dict_setitem (d : nat) (k : Key) (r : nat) : M Store unit :=
  λ st, (Ok tt,
         mkStore (objs st) (<[d := <[k := r]> (dicts st !!! d)]> (dicts st))
                 (next_inst st) (assigned st)).

(** [d[k]], where [None] is the KeyError that the callers catch *)
Definition dict_getitem (d : nat) (k : Key) : M Store (option nat) :=
  λ st, (Ok ((dicts st !!! d) !! k), st).

(** [signal.__doc__ = d] *)
Definition set_doc (r : nat) (d : string) : M Store unit :=
  λ st, (Ok tt,
         mkStore (alter (λ o, match o with
                              | EpicsSignal rd wr n kw _ =>
                                  EpicsSignal rd wr n kw (Some d)
                              | o => o
                              end) r (objs st))
                 (dicts st) (next_inst st) (assigned st)).

(** [sg.add_signal(signal)] *)
Definition add_signal (g : nat) (signal : nat) : M Store unit :=
  λ st, (Ok tt,
         mkStore (alter (λ o, match o with
                              | SignalGroup kw l => SignalGroup kw (l ++ [signal])
                              | o => o
                              end) g (objs st))
                 (dicts st) (next_inst st) (assigned st)).

(** [obj.value = value] on a signal or a group *)
Definition set_value (r : nat) (v : Val) : M Store unit :=
  λ st, (Ok tt,
         mkStore (objs st) (dicts st) (next_inst st) (assigned st ++ [(r, v)])).

(** [signal.pvname] *)
Definition get_pvname (r : nat) : M Store string :=
  λ st, match objs st !! r with
        | Some (EpicsSignal rd wr _ _ _) => (Ok (EpicsSignal_pvname rd wr), st)
        | Some (SignalGroup _ _) => (Raise (AttributeError "pvname"), st)
        | None => (Raise (SystemError "dangling reference"), st)
        end.

(** [ADBase.__init__(self, prefix, **kwargs)] on a fresh object *)
Definition ADBase__init__ (prefix : string) (kwargs : gmap string string)
  : M Store ADBase :=
  a <~ new_inst;;
  let name := default (name_from_pv prefix) (kwargs !! "name") in
  let alias := default "None" (kwargs !! "alias") in
  d <~ new_dict;;
  ret (mkADBase a name alias prefix d ∅).

(** What an access through a descriptor evaluates to. *)
Inductive PyVal :=
| VDescr (d : ADSignal Config)
| VRef (r : nat).

(** [ADSignal.check_exists(self, obj)] *)
Definition check_exists (self : ADSignal Config) (obj : option ADBase)
  : M Store PyVal :=
  match obj with
  | None => ret (VDescr self)
  | Some obj =>
      pv <~ lift (format_self (pv self) obj);;
      hit <~ dict_getitem (_ad_signals obj) (KStr pv);;
      match hit with
      | Some r => ret (VRef r)
      | None =>
          let base_name := name obj in
          let full_name := base_name +:+ "." +:+ name_from_pv pv in
          let read_ := _prefix obj +:+ pv in
          let write := read_ in
          let '(read_, write) :=
            if has_rbv self then (read_ +:+ "_RBV", Some write)
            else (read_, None) in
          signal <~ new_obj (EpicsSignal read_ write full_name (kwargs self) None);;
          dict_setitem (_ad_signals obj) (KStr pv) signal;;;
          set_doc signal (match doc self with
                          | Some d => d
                          | None => docstring self
                          end);;;
          hit <~ dict_getitem (_ad_signals obj) (KStr pv);;
          match hit with
          | Some r => ret (VRef r)
          | None => raise (KeyError pv)
          end
      end
  end.

(** [ADSignal.__get__] *)
Definition ADSignal__get__ (self : ADSignal Config) (obj : option ADBase)
  : M Store PyVal :=
  check_exists self obj.

(** [ADSignal.__set__] *)
Definition ADSignal__set__ (self : ADSignal Config) (obj : ADBase) (value : Val)
  : M Store unit :=
  signal <~ check_exists self (Some obj);;
  match signal with
  | VRef r => set_value r value
  | VDescr _ => raise (SystemError "unreachable")
  end.

(** *** [ADSignalGroup] *)

(** The property that [ADSignalGroup] returns: the member descriptors, the
    keyword arguments left for [SignalGroup] once [doc] is popped, and the
    docstring. *)
Record ADGroup := mkADGroup {
  grp_props : list (ADSignal Config);
  grp_kwargs : gmap string string;
  grp_doc : string
}.

Definition ADSignalGroup (props : list (ADSignal Config))
    (kwargs : gmap string string) : ADGroup :=
  mkADGroup props (delete "doc" kwargs) (default "" (kwargs !! "doc")).

(** [tuple(prop.__get__(self) for prop in props)] *)
Fixpoint get_members (props : list (ADSignal Config)) (self : ADBase)
  : M Store (list nat) :=
  match props with
  | [] => ret []
  | prop :: props' =>
      v <~ ADSignal__get__ prop (Some self);;
      match v with
      | VRef r => rs <~ get_members props' self;; ret (r :: rs)
      | VDescr _ => raise (SystemError "unreachable")
      end
  end.

(** [tuple(signal.pvname for signal in signals)] *)
Fixpoint get_pvnames (signals : list nat) : M Store (list string) :=
  match signals with
  | [] => ret []
  | signal :: signals' =>
      n <~ get_pvname signal;;
      ns <~ get_pvnames signals';;
      ret (n :: ns)
  end.

Fixpoint add_signals (sg : nat) (signals : list nat) : M Store unit :=
  match signals with
  | [] => ret tt
  | signal :: signals' => add_signal sg signal;;; add_signals sg signals'
  end.

(** The closure [check_exists] of [ADSignalGroup] *)
Definition group_check_exists (g : ADGroup) (self : ADBase) : M Store nat :=
  signals <~ get_members (grp_props g) self;;
  key <~ get_pvnames signals;;
  hit <~ dict_getitem (_ad_signals self) (KTuple key);;
  match hit with
  | Some r => ret r
  | None =>
      sg <~ new_obj (SignalGroup (grp_kwargs g) []);;
      add_signals sg signals;;;
      dict_setitem (_ad_signals self) (KTuple key) sg;;;
      hit <~ dict_getitem (_ad_signals self) (KTuple key);;
      match hit with
      | Some r => ret r
      | None => raise (KeyError "group")
      end
  end.

(** [fget] and [fset] of the property *)
Definition fget (g : ADGroup) (self : ADBase) : M Store nat :=
  group_check_exists g self.

Definition fset (g : ADGroup) (self : ADBase) (value : Val) : M Store unit :=
  sg <~ group_check_exists g self;;
  set_value sg value.

(** *** Vocabulary for the properties *)

(** The identifiers of the members of a group on an object, as
    [check_exists] computes them for its key. *)
Definition group_key (g : ADGroup) (self : ADBase) : M Store (list string) :=
  signals <~ get_members (grp_props g) self;;
  get_pvnames signals.

(** The store after a first access: one more object, held under [k] in the
    dict [d]. *)
Definition insert_new (st : Store) (d : nat) (k : Key) (o : Obj) : Store :=
  mkStore (objs st ++ [o])
          (<[d := <[k := length (objs st)]> (dicts st !!! d)]> (dicts st))
          (next_inst st) (assigned st).

(** The signal that a first access through [self] on [obj] builds, for the
    formatted suffix [pv]. *)
Definition new_signal (self : ADSignal Config) (obj : ADBase) (pv : string)
  : Obj :=
  EpicsSignal (if has_rbv self then (_prefix obj +:+ pv) +:+ "_RBV"
               else _prefix obj +:+ pv)
              (if has_rbv self then Some (_prefix obj +:+ pv) else None)
              (name obj +:+ "." +:+ name_from_pv pv) (kwargs self)
              (Some (match doc self with
                     | Some d => d
                     | None => docstring self
                     end)).

(** The operations of the module on a store, and the stores that a program
    can reach with them. *)
Inductive Op :=
| OpInit (prefix : string) (kwargs : gmap string string)
| OpGet (self : ADSignal Config) (obj : option ADBase)
| OpSet (self : ADSignal Config) (obj : ADBase) (value : Val)
| OpFget (g : ADGroup) (self : ADBase)
| OpFset (g : ADGroup) (self : ADBase) (value : Val).

Definition exec (o : Op) (st : Store) : Store :=
  match o with
  | OpInit prefix kwargs => (ADBase__init__ prefix kwargs st).2
  | OpGet self obj => (ADSignal__get__ self obj st).2
  | OpSet self obj value => (ADSignal__set__ self obj value st).2
  | OpFget g self => (fget g self st).2
  | OpFset g self value => (fset g self value st).2
  end.

Definition run (ops : list Op) (st : Store) : Store :=
  foldl (λ st o, exec o st) st ops.

Definition reachable (st : Store) : Prop :=
  ∃ ops, st = run ops empty_store.

(** Every cache entry points into the store, and no object is held under two
    keys. *)
Definition wf (st : Store) : Prop :=
  (∀ d k r, (dicts st !!! d) !! k = Some r → r < length (objs st)) ∧
  (∀ d1 k1 d2 k2 r,
     (dicts st !!! d1) !! k1 = Some r → (dicts st !!! d2) !! k2 = Some r →
     d1 = d2 ∧ k1 = k2).

(** [st'] keeps the dicts and the cache entries of [st]. *)
Definition extends (st st' : Store) : Prop :=
  length (objs st) ≤ length (objs st') ∧
  dom (dicts st) ⊆ dom (dicts st') ∧
  ∀ d k r, (dicts st !!! d) !! k = Some r → (dicts st' !!! d) !! k = Some r.

(** A computation that only grows the store and keeps it well formed. *)
Definition mono {A} (c : M Store A) : Prop :=
  ∀ st r st', c st = (r, st') → extends st st' ∧ (wf st → wf st').

End ad.

Arguments Obj : clear implicits.
Arguments Store : clear implicits.
Arguments ADGroup : clear implicits.
Arguments PyVal : clear implicits.
Arguments Op : clear implicits.

End AD.

(** ** The descriptor variants side by side *)

Module Descr.

Inductive Variant := VarSignal | VarSignalRW | VarADSignal.

Inductive Descriptor (Config : Type) :=
| DSignal (s : Lite.Signal Config)
| DADSignal (s : AD.ADSignal Config).
Arguments DSignal {Config} s.
Arguments DADSignal {Config} s.

(** Calling the constructor of a variant on a template, the other arguments
    of [ADSignal] left at their defaults. *)
Definition construct {Config} (v : Variant) (template : string)
    (args : Config) : result (Descriptor Config) :=
  match v with
  | VarSignal =>
      match Lite.Signal__init__ Lite.KSignal template args with
      | Ok s => Ok (DSignal s)
      | Raise e => Raise e
      end
  | VarSignalRW =>
      match Lite.Signal__init__ Lite.KSignalRW template args with
      | Ok s => Ok (DSignal s)
      | Raise e => Raise e
      end
  | VarADSignal => Ok (DADSignal (AD.ADSignal__init__ template false None args))
  end.

End Descr.

(** ** Concrete classes and surroundings, for running the model *)

Module Demo.

(** Replaces each occurrence of [pat] in [t] by [rep]; [skip] counts the
    characters of an occurrence still to be dropped. *)
Fixpoint subst (pat rep t : string) (skip : nat) : string :=
  match t with
  | EmptyString => EmptyString
  | String c t' =>
      match skip with
      | S n => subst pat rep t' n
      | O => if PyStr.startswith t pat
             then rep +:+ subst pat rep t' (String.length pat - 1)
             else String c (subst pat rep t' 0)
      end
  end.

(** The PVs of the [EGU] field are not connected, all others are; a PV reads
    as the length of its name; a put returns the value written. *)
Definition lite_env : Lite.Env nat unit nat :=
  {| Lite.pv_connected := λ s, negb (PyStr.contains ".EGU" s);
     Lite.pv_get := String.length;
     Lite.pv_put := λ _ v, v;
     Lite.format_base_name := λ t b, Ok (subst "{base_name}" b t 0) |}.

(** The class [Motor] of the module, with [val] declared twice. *)
Definition Motor_body : list (string * Lite.BodyExpr unit) :=
  [("val", Lite.ENewSignal Lite.KSignalRW "{base_name}.VAL" ());
   ("val", Lite.ENewSignal Lite.KSignalRW "{base_name}.VAL" ());
   ("egu", Lite.ENewSignal Lite.KSignalRW "{base_name}.EGU" ());
   ("movn", Lite.ENewSignal Lite.KSignalRW "{base_name}.MOVN" ());
   ("dmov", Lite.ENewSignal Lite.KSignalRW "{base_name}.DMOV" ());
   ("stop", Lite.ENewSignal Lite.KSignalRW "{base_name}.STOP" ())].

(** A settable class with the writable signals [a], [b], [c] and a read-only
    one between them. *)
Definition Abc_body : list (string * Lite.BodyExpr unit) :=
  [("a", Lite.ENewSignal Lite.KSignalRW "{base_name}:A" ());
   ("r", Lite.ENewSignal Lite.KSignal "{base_name}:R" ());
   ("b", Lite.ENewSignal Lite.KSignalRW "{base_name}:B" ());
   ("c", Lite.ENewSignal Lite.KSignalRW "{base_name}:C" ())].

(** [self.channel] is the only attribute the demo templates mention:
    formatting fails, as [str.format] does, when the template mentions it and
    the object has no such attribute.  The [pvname] of an [EpicsSignal] is its
    read name. *)
Definition ad_env : AD.Env unit :=
  {| AD.format_self := λ t obj,
       match AD.attrs obj !! "channel" with
       | Some c => Ok (subst "{self.channel}" c t 0)
       | None => if PyStr.contains "{self.channel}" t
                 then Raise (AttributeError "channel")
                 else Ok t
       end;
     AD.EpicsSignal_pvname := λ rd _, rd |}.

Definition array_counter : AD.ADSignal unit :=
  AD.ADSignal__init__ "ArrayCounter" true None ().
Definition port_name : AD.ADSignal unit :=
  AD.ADSignal__init__ "PortName_RBV" false None ().
Definition signal_ch : AD.ADSignal unit :=
  AD.ADSignal__init__ "Ch{self.channel}" false None ().

Definition value_of {A} (d : A) (r : result A) : A :=
  match r with Ok a => a | Raise _ => d end.

(** [Motor], an instance of it with the prefix [XF:1], and the store once
    both exist. *)
Definition motor_cls : Lite.SchemaClass unit :=
  Eval vm_compute in
    value_of (Lite.mkClass "" [] [] [] [] 0)
      (Lite.define_class (Val:=nat) "Motor" Motor_body Lite.empty_store).1.

Definition motor : Lite.Instance unit :=
  Lite.mkInstance 0 motor_cls "XF:1" (Some (Lite.cls_signal_names motor_cls)).

Definition motor_ops : list (Lite.Op nat unit) :=
  [Lite.OpDefine "Motor" Motor_body; Lite.OpInit motor_cls "XF:1" None].

Definition motor_store : Lite.Store nat unit :=
  Lite.run (env:=lite_env) motor_ops Lite.empty_store.

(** The same for the settable class. *)
Definition abc_cls : Lite.SchemaClass unit :=
  Eval vm_compute in
    value_of (Lite.mkClass "" [] [] [] [] 0)
      (Lite.define_class (Val:=nat) "Abc" Abc_body Lite.empty_store).1.

Definition abc : Lite.Instance unit :=
  Lite.mkInstance 0 abc_cls "XF:1" (Some (Lite.cls_signal_names abc_cls)).

Definition abc_ops : list (Lite.Op nat unit) :=
  [Lite.OpDefine "Abc" Abc_body; Lite.OpInit abc_cls "XF:1" None].

Definition abc_store : Lite.Store nat unit :=
  Lite.run (env:=lite_env) abc_ops Lite.empty_store.

(** A program on the empty store: define [Motor], build an instance with the
    given [read_fields] argument, run [op] on it. *)
Definition motor_prog {A} (read_fields : option (list string))
    (op : Lite.Instance unit → M (Lite.Store nat unit) A)
  : M (Lite.Store nat unit) A :=
  cls <~ Lite.define_class "Motor" Motor_body;;
  self <~ Lite.Base__init__ cls "XF:1" read_fields;;
  op self.

(** Two instances of [Motor] with the same prefix, each reading its [val]:
    the addresses of the two instances, the two values, and the number of
    channels in the store after each access. *)
Definition two_motors
  : M (Lite.Store nat unit) (nat * nat * Lite.PyVal * Lite.PyVal * nat * nat) :=
  cls <~ Lite.define_class "Motor" Motor_body;;
  m1 <~ Lite.Base__init__ cls "XF:1" None;;
  m2 <~ Lite.Base__init__ cls "XF:1" None;;
  v1 <~ Lite.getattr (env:=lite_env) m1 "val";;
  n1 <~ (λ st, (Ok (length (Lite.chans st)), st));;
  v2 <~ Lite.getattr (env:=lite_env) m2 "val";;
  n2 <~ (λ st, (Ok (length (Lite.chans st)), st));;
  ret (Lite.inst_addr m1, Lite.inst_addr m2, v1, v2, n1, n2).

(** An area detector object, the same object once a subclass has stored
    [channel = 1] and then [channel = 3] on it, and a group of two signals. *)
Definition detector : AD.ADBase :=
  AD.mkADBase 0 "xf.ad1" "None" "XF:AD1:" 0 ∅.


Definition detector3 : AD.ADBase :=
  AD.mkADBase 0 "xf.ad1" "None" "XF:AD1:" 0 {["channel" := "3"]}.

Definition ad_ops : list (AD.Op nat unit) := [AD.OpInit "XF:AD1:" ∅].

Definition ad_store : AD.Store nat unit :=
  AD.run (env:=ad_env) ad_ops AD.empty_store.

Definition group : AD.ADGroup unit :=
  AD.ADSignalGroup [array_counter; signal_ch] ∅.

(** The documentation table of the module and the class [NDArrayDriver]
    above [ADBase] and [object]. *)
Definition docs : gmap string (gmap string string) :=
  {["areaDetectorDoc.html" := {["ArrayCounter" := "Number of arrays"]}]}.

Definition object_cls : Doc.PyClass := Doc.mkPyClass None [].
Definition ADBase_cls : Doc.PyClass :=
  Doc.mkPyClass (Some ["areaDetectorDoc.html"]) [object_cls].
Definition NDArrayDriver_cls : Doc.PyClass :=
  Doc.mkPyClass (Some ["areaDetectorDoc.html"]) [ADBase_cls; object_cls].

End Demo.

(** ** More of the channel objects *)

Module LiteExt.
Section lite_ext.
Context {Config : Type}.

(** The PV that [get] reads: the PV itself, or the readback PV of a writable
    channel. *)
Definition chan_read_name (c : Lite.Channel Config) : string :=
  match c with
  | Lite.EpicsSignalLite pv => Lite.pvname pv
  | Lite.EpicsSignalLiteRW _ rb => Lite.pvname rb
  end.

(** Whether the channel class defines [put]. *)
Definition has_put (c : Lite.Channel Config) : bool :=
  match c with
  | Lite.EpicsSignalLite _ => false
  | Lite.EpicsSignalLiteRW _ _ => true
  end.

End lite_ext.
End LiteExt.

(** ** More of the area detector layer *)

Module ADExt.

(** The order of [str], by code point, and [sorted] on a list of strings. *)
Definition str_le (a b : string) : Prop := String.leb a b = true.

#[export] Instance str_le_dec : RelDecision str_le :=
  λ a b, decide (String.leb a b = true).

Definition sorted (l : list string) : list string := merge_sort str_le l.

(** From outside: [re.compile(text, flags)], where the flags are MULTILINE
    and, when the boolean is set, IGNORECASE; and [regex.search(doc)] as a
    truth value. *)
Class Regex (Pattern : Type) := {
  re_compile : string → bool → result Pattern;
  re_search : Pattern → string → bool
}.

Section ad_ext.
Context {Val Config : Type} {env : AD.Env Config}.
Context {Pattern : Type} {regex : Regex Pattern}.

(** A computation that leaves every object of the store as it is. *)
Definition keeps_objs {A} (c : M (AD.Store Val Config) A) : Prop :=
  ∀ st r st', c st = (r, st') → AD.objs st `prefix_of` AD.objs st'.

(** [ADSignal.lookup_doc(self, cls_)] *)
Definition ADSignal_lookup_doc (docs : gmap string (gmap string string))
    (self : AD.ADSignal Config) (cls_ : Doc.PyClass) : string :=
  Doc.lookup_doc docs cls_ (AD.pv self).

(** [ADSignal.update_docstring(self, cls_)]: the descriptor after the call,
    which assigns its [__doc__] and nothing else. *)
Definition update_docstring (docs : gmap string (gmap string string))
    (self : AD.ADSignal Config) (cls_ : Doc.PyClass) : AD.ADSignal Config :=
  match AD.doc self with
  | None =>
      AD.mkADSignal (AD.pv self) (AD.has_rbv self) (AD.doc self)
                    (AD.kwargs self) (ADSignal_lookup_doc docs self cls_)
  | Some _ => self
  end.

(** An attribute of a class as [getattr(cls_, attr)] gives it: an [ADSignal]
    accessed on the class is the descriptor itself, the property that
    [ADSignalGroup] returns is the property, and everything else (functions,
    other properties, plain values) is not told apart. *)
Inductive ClassAttr :=
| CSignal (s : AD.ADSignal Config)
| CGroup (g : AD.ADGroup Config)
| COther.

(** A subclass of [ADBase]: the class as [lookup_doc] sees it, and the
    namespaces of the classes of its resolution order, most derived first. *)
Record ADClass := mkADClass {
  py_class : Doc.PyClass;
  namespaces : list (gmap string ClassAttr)
}.

(** [dir(cls_)], up to order *)
Definition dir (cls_ : ADClass) : list string :=
  elements (⋃ (dom <$> namespaces cls_) : gset string).

(** [getattr(cls_, attr)]: the first namespace that has the name *)
Fixpoint class_getattr (nss : list (gmap string ClassAttr)) (attr : string)
  : option ClassAttr :=
  match nss with
  | [] => None
  | ns :: nss' =>
      match ns !! attr with
      | Some a => Some a
      | None => class_getattr nss' attr
      end
  end.

(** [ADBase._all_adsignals(cls_)] *)
Definition _all_adsignals (cls_ : ADClass)
  : list (string * AD.ADSignal Config) :=
  let attrs :=
    omap (λ attr, pair attr <$> class_getattr (namespaces cls_) attr)
         (sorted (dir cls_)) in
  omap (λ ao, match ao.2 with
              | CSignal s => Some (ao.1, s)
              | _ => None
              end) attrs.

(** The loop of [find_signal]; the result lists the calls of [match_fcn], in
    order, each with its three arguments.  [regex] is the compiled pattern
    when [use_re] is set. *)
Fixpoint find_loop (docs : gmap string (gmap string string))
    (cls_ : Doc.PyClass) (regex : option Pattern) (case_sensitive : bool)
    (text : string) (signals : list (string * AD.ADSignal Config))
  : list (string * AD.ADSignal Config * string) :=
  match signals with
  | [] => []
  | (prop_name, signal) :: signals' =>
      let doc := ADSignal_lookup_doc docs signal cls_ in
      let rest := find_loop docs cls_ regex case_sensitive text signals' in
      let hit :=
        match regex with
        | Some regex => re_search regex doc
        | None =>
            if negb case_sensitive
            then PyStr.contains text (PyStr.lower doc)
            else PyStr.contains text doc
        end in
      if hit then (prop_name, signal, doc) :: rest else rest
  end.

(** [ADBase.find_signal(self, text, use_re, case_sensitive, match_fcn)] for
    an object of class [cls_] *)
Definition find_signal (docs : gmap string (gmap string string))
    (cls_ : ADClass) (text : string) (use_re case_sensitive : bool)
  : result (list (string * AD.ADSignal Config * string)) :=
  if use_re then
    match re_compile text (negb case_sensitive) with
    | Raise e => Raise e
    | Ok regex =>
        Ok (find_loop docs (py_class cls_) (Some regex) case_sensitive text
                      (_all_adsignals cls_))
    end
  else
    let text := if negb case_sensitive then PyStr.lower text else text in
    Ok (find_loop docs (py_class cls_) None case_sensitive text
                  (_all_adsignals cls_)).

(** *** The [signals] property *)

(** The store with the private [__sig_dict] of each object, by address; an
    object without entry has [None] there. *)
Record XStore := mkXStore {
  ad : AD.Store Val Config;
  sig_dicts : gmap nat (list (string * nat))
}.

(** [dir(self)], up to order: the names of the class and of the attributes
    that the object holds itself. *)
Definition dir_self (cls_ : ADClass) (self : AD.ADBase) : list string :=
  elements (⋃ (dom <$> namespaces cls_)
            ∪ list_to_set ["name"; "alias"; "_prefix"; "_ad_signals";
                           "_ADBase__sig_dict"]
            ∪ dom (AD.attrs self) : gset string).

(** [safe_getattr(self, attr)], followed by the [isinstance] test of the
    dict comprehension: the signal or group, or [None].  [ADSignal] and
    [property] define [__set__], so the class comes before the object; a name
    that only the object has holds a string. *)
Definition safe_getattr (cls_ : ADClass) (self : AD.ADBase) (attr : string)
  : M (AD.Store Val Config) (option nat) :=
  match class_getattr (namespaces cls_) attr with
  | Some (CSignal s) =>
      λ st, match AD.ADSignal__get__ s (Some self) st with
            | (Ok (AD.VRef r), st') => (Ok (Some r), st')
            | (Ok (AD.VDescr _), st') => (Ok None, st')
            | (Raise _, st') => (Ok None, st')
            end
  | Some (CGroup g) =>
      λ st, match AD.fget g self st with
            | (Ok r, st') => (Ok (Some r), st')
            | (Raise _, st') => (Ok None, st')
            end
  | Some COther | None => ret None
  end.

Fixpoint signals_loop (cls_ : ADClass) (self : AD.ADBase)
    (attrs : list string) : M (AD.Store Val Config) (list (string * nat)) :=
  match attrs with
  | [] => ret []
  | attr :: attrs' =>
      v <~ safe_getattr cls_ self attr;;
      rest <~ signals_loop cls_ self attrs';;
      ret match v with
          | Some r => (attr, r) :: rest
          | None => rest
          end
  end.

(** The names that [signals] looks at *)
Definition public_names (cls_ : ADClass) (self : AD.ADBase) : list string :=
  filter (λ attr, PyStr.startswith attr "_" = false ∧ attr ≠ "signals")
         (sorted (dir_self cls_ self)).

(** [ADBase.signals] on an object of class [cls_] *)
Definition signals (cls_ : ADClass) (self : AD.ADBase)
  : M XStore (list (string * nat)) :=
  λ s, match sig_dicts s !! AD.ad_addr self with
       | Some d => (Ok d, s)
       | None =>
           match signals_loop cls_ self (public_names cls_ self) (ad s) with
           | (Ok d, st') =>
               (Ok d, mkXStore st' (<[AD.ad_addr self := d]> (sig_dicts s)))
           | (Raise e, st') => (Raise e, mkXStore st' (sig_dicts s))
           end
       end.

End ad_ext.

Arguments ClassAttr : clear implicits.
Arguments ADClass : clear implicits.
Arguments XStore : clear implicits.

End ADExt.

(** ** More concrete instances *)

Module DemoMore.
Import Demo.

(** A class in which a read-only and a writable signal name the same PV. *)
Definition Alias_body : list (string * Lite.BodyExpr unit) :=
  [("rbk", Lite.ENewSignal Lite.KSignal "{base_name}.VAL" ());
   ("val", Lite.ENewSignal Lite.KSignalRW "{base_name}.VAL" ())].

Definition alias_cls : Lite.SchemaClass unit :=
  Eval vm_compute in
    value_of (Lite.mkClass "" [] [] [] [] 0)
      (Lite.define_class (Val:=nat) "Alias" Alias_body Lite.empty_store).1.

Definition alias_inst : Lite.Instance unit :=
  Lite.mkInstance 0 alias_cls "XF:1" (Some (Lite.cls_signal_names alias_cls)).

Definition alias_ops : list (Lite.Op nat unit) :=
  [Lite.OpDefine "Alias" Alias_body; Lite.OpInit alias_cls "XF:1" None].

Definition alias_store : Lite.Store nat unit :=
  Lite.run (env:=lite_env) alias_ops Lite.empty_store.

(** The channels that the descriptors of the demo classes build. *)
Definition rw_channel (pv_name : string) : Lite.Channel unit :=
  Lite.EpicsSignalLiteRW (Lite.mkPV pv_name (Some ()))
                         (Lite.mkPV (pv_name +:+ ".RBV") None).

Definition ro_channel (pv_name : string) : Lite.Channel unit :=
  Lite.EpicsSignalLite (Lite.mkPV pv_name (Some ())).

(** A second instance of [Motor] with the same prefix, and the store once
    both instances exist and the first one has read its [val]. *)
Definition motor2 : Lite.Instance unit :=
  Lite.mkInstance 1 motor_cls "XF:1" (Some (Lite.cls_signal_names motor_cls)).

Definition two_motor_ops : list (Lite.Op nat unit) :=
  motor_ops ++ [Lite.OpInit motor_cls "XF:1" None; Lite.OpGetattr motor "val"].

Definition two_motor_store : Lite.Store nat unit :=
  Lite.run (env:=lite_env) two_motor_ops Lite.empty_store.

(** [NDArrayDriver] with the namespaces of its resolution order, and a
    subclass of it that adds a signal per channel and a group. *)
Definition ADBase_ns : gmap string (ADExt.ClassAttr unit) :=
  list_to_map [("_html_docs", ADExt.COther);
               ("_all_adsignals", ADExt.COther);
               ("_update_docstrings", ADExt.COther);
               ("find_signal", ADExt.COther);
               ("signals", ADExt.COther);
               ("read", ADExt.COther);
               ("report", ADExt.COther)].

Definition NDArrayDriver_ns : gmap string (ADExt.ClassAttr unit) :=
  list_to_map [("_html_docs", ADExt.COther);
               ("array_counter", ADExt.CSignal array_counter);
               ("port_name", ADExt.CSignal port_name)].

Definition Det_ns : gmap string (ADExt.ClassAttr unit) :=
  list_to_map [("ch", ADExt.CSignal signal_ch);
               ("pair", ADExt.CGroup group)].

Definition NDArrayDriver_class : ADExt.ADClass unit :=
  ADExt.mkADClass NDArrayDriver_cls [NDArrayDriver_ns; ADBase_ns].

Definition Det_class : ADExt.ADClass unit :=
  ADExt.mkADClass
    (Doc.mkPyClass None [NDArrayDriver_cls; ADBase_cls; object_cls])
    [Det_ns; NDArrayDriver_ns; ADBase_ns].

(** A stand-in for [re]: a pattern is a literal text, which does not compile
    when it has an opening parenthesis; the search is a substring test, on
    lower-cased text when the case flag is set. *)
Definition literal_regex : ADExt.Regex (bool * string) :=
  {| ADExt.re_compile := λ text ignorecase,
       if PyStr.contains "(" text then Raise (ValueError "re.error")
       else Ok (ignorecase, text);
     ADExt.re_search := λ rx doc,
       if rx.1 then PyStr.contains (PyStr.lower rx.2) (PyStr.lower doc)
       else PyStr.contains rx.2 doc |}.

End DemoMore.

(** * Properties *)

(** ** Strings *)

Section pystr_facts.

Lemma startswith_spec (p s : string) :
  PyStr.startswith s p = true ↔ ∃ r, s = p +:+ r.
Proof.
  revert s. induction p as [|a p IH]; intros s.
  - split; [intros _; by exists s | by destruct s].
  - destruct s as [|b s]; simpl.
    + split; [done | intros [r Hr]; discriminate].
    + rewrite andb_true_iff, bool_decide_eq_true, IH. split.
      * intros [-> [r ->]]. by exists r.
      * intros [r Hr]. injection Hr as -> ->. eauto.
Qed.

Lemma contains_spec (needle s : string) :
  PyStr.contains needle s = true ↔ ∃ a b, s = a +:+ needle +:+ b.
Proof.
  induction s as [|c s IH].
  all: change (PyStr.contains needle ?x)
         with (PyStr.startswith x needle ||
               match x with
               | EmptyString => false
               | String _ s' => PyStr.contains needle s'
               end).
  all: rewrite orb_true_iff, startswith_spec.
  - split.
    + intros [[r Hr]|?]; [|done]. by exists EmptyString, r.
    + intros [[|c a] [b Hb]]; [left; by exists b | discriminate].
  - rewrite IH. split.
    + intros [[r Hr]|[a [b ->]]].
      * by exists EmptyString, r.
      * by exists (String c a), b.
    + intros [[|c' a] [b Hb]].
      * left. by exists b.
      * right. injection Hb as -> ->. eauto.
Qed.

Lemma endswith_spec (s suf : string) :
  PyStr.endswith s suf = true ↔ ∃ p, s = p +:+ suf.
Proof.
  induction s as [|c s IH]; simpl; rewrite orb_true_iff, bool_decide_eq_true.
  - split.
    + intros [<-|?]; [|done]. by exists EmptyString.
    + intros [[|c p] Hp]; [by left | discriminate].
  - rewrite IH. split.
    + intros [<-|[p ->]]; [by exists EmptyString | by exists (String c p)].
    + intros [[|c' p] Hp]; [by left |].
      right. injection Hp as -> ->. eauto.
Qed.

Lemma length_app_str (a b : string) :
  String.length (a +:+ b) = String.length a + String.length b.
Proof. induction a as [|c a IH]; simpl; [done | by rewrite IH]. Qed.

Lemma substring_prefix (p suf : string) :
  String.substring 0 (String.length p) (p +:+ suf) = p.
Proof.
  induction p as [|c p IH]; simpl.
  - by destruct suf.
  - by rewrite IH.
Qed.

Lemma drop_last_app (p suf : string) :
  PyStr.drop_last (String.length suf) (p +:+ suf) = p.
Proof.
  unfold PyStr.drop_last. rewrite length_app_str.
  replace (String.length p + String.length suf - String.length suf)
    with (String.length p) by lia.
  apply substring_prefix.
Qed.

End pystr_facts.

(** ** The monad *)

Section monad_facts.
Context {S A B : Type}.

Lemma bind_ok (c : M S A) (k : A → M S B) s a s' :
  c s = (Ok a, s') → bind c k s = k a s'.
Proof. unfold bind. by intros ->. Qed.

Lemma bind_raise (c : M S A) (k : A → M S B) s e s' :
  c s = (Raise e, s') → bind c k s = (Raise e, s').
Proof. unfold bind. by intros ->. Qed.

Lemma bind_inv (c : M S A) (k : A → M S B) s r s' :
  bind c k s = (r, s') →
  (∃ a s1, c s = (Ok a, s1) ∧ k a s1 = (r, s')) ∨
  (∃ e, c s = (Raise e, s') ∧ r = Raise e).
Proof.
  unfold bind. destruct (c s) as [[a|e] s1]; intros Hk.
  - left. eauto.
  - right. injection Hk as <- <-. eauto.
Qed.

End monad_facts.

(** ** [Signal], [SignalMeta], [Base], [SettableBase] *)

Section lite_facts.
Import Lite.
Context {Val Config Status : Type} {env : Env Val Config Status}.
Implicit Types (st : Store Val Config) (self : Signal Config)
  (inst : Instance Config).
Local Abbreviation mono := (mono (Val:=Val) (Config:=Config)).

Lemma get_class self st : Signal__get__ self None st = (Ok VNone, st).
Proof. done. Qed.

Lemma get_raise self inst st e :
  format_base_name (pv_template self) (base_name inst) = Raise e →
  Signal__get__ self (Some inst) st = (Raise e, st).
Proof. intros Hf. unfold Signal__get__, bind, lift. by rewrite Hf. Qed.

Lemma get_hit self inst st k r :
  format_base_name (pv_template self) (base_name inst) = Ok k →
  (dicts st !!! cls_pvs (inst_class inst)) !! k = Some r →
  Signal__get__ self (Some inst) st = (Ok (VChan r), st).
Proof.
  intros Hf Hk. unfold Signal__get__, bind, lift, dict_contains, dict_getitem, ret.
  rewrite Hf. simpl. rewrite Hk. simpl. by rewrite Hk.
Qed.

Lemma get_miss self inst st k :
  format_base_name (pv_template self) (base_name inst) = Ok k →
  (dicts st !!! cls_pvs (inst_class inst)) !! k = None →
  Signal__get__ self (Some inst) st =
    (Ok (VChan (length (chans st))),
     after_miss st (cls_pvs (inst_class inst)) k
       (Channel__init__ (sig_kind self) k (sig_args self))).
Proof.
  intros Hf Hk. unfold Signal__get__, bind, lift, dict_contains, dict_getitem, ret,
    new_channel, dict_setitem, after_miss.
  rewrite Hf. simpl. rewrite Hk. simpl.
  by rewrite lookup_total_insert_eq, lookup_insert_eq.
Qed.

Lemma get_cases self inst st r st' :
  Signal__get__ self (Some inst) st = (r, st') →
  (∃ e, format_base_name (pv_template self) (base_name inst) = Raise e ∧
        r = Raise e ∧ st' = st) ∨
  (∃ k a, format_base_name (pv_template self) (base_name inst) = Ok k ∧
          (dicts st !!! cls_pvs (inst_class inst)) !! k = Some a ∧
          r = Ok (VChan a) ∧ st' = st) ∨
  (∃ k, format_base_name (pv_template self) (base_name inst) = Ok k ∧
        (dicts st !!! cls_pvs (inst_class inst)) !! k = None ∧
        r = Ok (VChan (length (chans st))) ∧
        st' = after_miss st (cls_pvs (inst_class inst)) k
                (Channel__init__ (sig_kind self) k (sig_args self))).
Proof.
  destruct (format_base_name (pv_template self) (base_name inst)) as [k|e] eqn:Hf.
  - destruct ((dicts st !!! cls_pvs (inst_class inst)) !! k) as [a|] eqn:Hk.
    + rewrite (get_hit _ _ _ _ _ Hf Hk). intros [= <- <-]. right; left. eauto 10.
    + rewrite (get_miss _ _ _ _ Hf Hk). intros [= <- <-]. right; right. eauto 10.
  - rewrite (get_raise _ _ _ _ Hf). intros [= <- <-]. left. eauto.
Qed.

(** *** Growth of the store *)

Lemma extends_refl st : extends st st.
Proof. by split. Qed.

Lemma extends_trans st1 st2 st3 :
  extends st1 st2 → extends st2 st3 → extends st1 st3.
Proof.
  intros [Hc1 Hd1] [Hc2 Hd2]. split; [by etrans | eauto].
Qed.

Lemma extends_same st st' :
  chans st' = chans st → dicts st' = dicts st →
  extends st st' ∧ (wf st → wf st').
Proof.
  intros Hc Hd. unfold extends, wf. rewrite Hc, Hd. by repeat split.
Qed.

Lemma extends_after_miss st d k c :
  (dicts st !!! d) !! k = None → extends st (after_miss st d k c).
Proof.
  intros Hk. split; simpl.
  - by apply prefix_app_r.
  - intros d' k' r Hr. destruct (decide (d' = d)) as [->|Hd].
    + rewrite lookup_total_insert_eq.
      destruct (decide (k' = k)) as [->|Hkk]; [congruence|].
      by rewrite lookup_insert_ne.
    + by rewrite lookup_total_insert_ne.
Qed.

Lemma wf_after_miss st d k c :
  wf st → pvname (chan_pv c) = k → wf (after_miss st d k c).
Proof.
  intros Hwf Hc d' k' r. simpl. destruct (decide (d' = d)) as [->|Hd].
  - rewrite lookup_total_insert_eq. destruct (decide (k' = k)) as [->|Hkk].
    + rewrite lookup_insert_eq. intros [= <-]. exists c. split; [|done].
      by apply list_lookup_middle.
    + rewrite lookup_insert_ne by done. intros Hr.
      destruct (Hwf _ _ _ Hr) as (c0 & Hc0 & Hn). exists c0.
      split; [by apply lookup_app_l_Some | done].
  - rewrite lookup_total_insert_ne by done. intros Hr.
    destruct (Hwf _ _ _ Hr) as (c0 & Hc0 & Hn). exists c0.
    split; [by apply lookup_app_l_Some | done].
Qed.

Lemma pvname_Channel__init__ (kd : SignalKind) k (a : Config) :
  pvname (chan_pv (Channel__init__ kd k a)) = k.
Proof. by destruct kd. Qed.

Lemma mono_ret {A} (a : A) : mono (ret a).
Proof. intros st r st' [= <- <-]. by apply extends_same. Qed.

Lemma mono_raise {A} e : mono (raise (A:=A) e).
Proof. intros st r st' [= <- <-]. by apply extends_same. Qed.

Lemma mono_lift {A} (x : result A) : mono (lift x).
Proof. intros st r st' [= <- <-]. by apply extends_same. Qed.

Lemma mono_bind {A B} (c : M (Store Val Config) A) (k : A → M (Store Val Config) B) :
  mono c → (∀ a, mono (k a)) → mono (bind c k).
Proof.
  intros Hc Hk st r st' Hb.
  destruct (bind_inv _ _ _ _ _ Hb) as [(a & s1 & H1 & H2)|(e & H1 & ->)].
  - destruct (Hc _ _ _ H1) as [He1 Hw1]. destruct (Hk _ _ _ _ H2) as [He2 Hw2].
    split; [by eapply extends_trans | auto].
  - by apply (Hc _ _ _ H1).
Qed.

Lemma mono_get self instance : mono (Signal__get__ self instance).
Proof.
  destruct instance as [inst|]; [|apply mono_ret].
  intros st r st' Hg.
  destruct (get_cases _ _ _ _ _ Hg)
    as [(e & _ & _ & ->)|[(k & a & _ & _ & _ & ->)|(k & Hf & Hk & _ & ->)]].
  - by apply extends_same.
  - by apply extends_same.
  - split; [by apply extends_after_miss|].
    intros Hwf. apply wf_after_miss; [done | apply pvname_Channel__init__].
Qed.


Lemma mono_same {A} (c : M (Store Val Config) A) :
  (∀ st r st', c st = (r, st') → chans st' = chans st ∧ dicts st' = dicts st) →
  mono c.
Proof. intros Hc st r st' Hr. destruct (Hc _ _ _ Hr). by apply extends_same. Qed.

Lemma mono_new_inst : mono new_inst.
Proof. apply mono_same. by intros st r st' [= <- <-]. Qed.

Lemma new_dict_lookup st d :
  <[fresh (dom (dicts st)) := ∅]> (dicts st) !!! d = dicts st !!! d.
Proof.
  destruct (decide (d = fresh (dom (dicts st)))) as [->|Hd].
  - rewrite lookup_total_insert_eq, lookup_total_alt.
    by rewrite (not_elem_of_dom_1 _ _ (is_fresh (dom (dicts st)))).
  - by rewrite lookup_total_insert_ne.
Qed.

Lemma mono_new_dict : mono new_dict.
Proof.
  intros st r st' [= <- <-]. unfold extends, wf; simpl.
  setoid_rewrite new_dict_lookup. by repeat split.
Qed.

Lemma mono_define_class name body :
  mono (define_class name body).
Proof.
  apply mono_bind; [apply mono_lift|]. intros clsdict.
  apply mono_bind; [apply mono_new_dict|]. intros d. apply mono_ret.
Qed.

Lemma mono_Base__init__ cls b rf :
  mono (Base__init__ cls b rf).
Proof. apply mono_bind; [apply mono_new_inst|]. intros a. apply mono_ret. Qed.

Lemma mono_getattr inst name : mono (getattr inst name).
Proof.
  unfold getattr. repeat case_match; try apply mono_ret; try apply mono_raise.
  apply mono_get.
Qed.

Lemma mono_Channel_get v : mono (Channel_get v).
Proof.
  apply mono_same. intros st r st'. unfold Channel_get, raise.
  repeat case_match; by intros [= <- <-].
Qed.

Lemma mono_Channel_pvname v : mono (Channel_pvname v).
Proof.
  apply mono_same. intros st r st'. unfold Channel_pvname, raise.
  repeat case_match; by intros [= <- <-].
Qed.

Lemma mono_Channel_put v x : mono (Channel_put v x).
Proof.
  apply mono_same. intros st r st'. unfold Channel_put, raise, bind, log_put, ret.
  repeat case_match; by intros [= <- <-].
Qed.

Lemma mono_get_read_fields inst : mono (get_read_fields inst).
Proof.
  unfold get_read_fields. repeat case_match;
    try apply mono_ret; try apply mono_raise.
  apply mono_bind; [apply mono_get | intros; apply mono_raise].
Qed.

Lemma mono_read_loop inst names acc : mono (read_loop inst names acc).
Proof.
  revert acc. induction names as [|n names IH]; intros acc; simpl.
  - apply mono_ret.
  - apply mono_bind; [apply mono_getattr|]. intros v.
    apply mono_bind; [apply mono_Channel_get|]. intros x. apply IH.
Qed.

Lemma mono_describe_loop inst names acc : mono (describe_loop inst names acc).
Proof.
  revert acc. induction names as [|n names IH]; intros acc; simpl.
  - apply mono_ret.
  - apply mono_bind; [apply mono_getattr|]. intros v.
    apply mono_bind; [apply mono_Channel_pvname|]. intros x. apply IH.
Qed.

Lemma mono_set_loop inst bound acc : mono (set_loop inst bound acc).
Proof.
  revert acc. induction bound as [|[n x] bound IH]; intros acc; simpl.
  - apply mono_ret.
  - apply mono_bind; [apply mono_getattr|]. intros v.
    apply mono_bind; [apply mono_Channel_put|]. intros s. apply IH.
Qed.

Lemma mono_exec (o : Op Val Config) st :
  extends st (exec o st) ∧ (wf st → wf (exec o st)).
Proof.
  assert (∀ A (c : M (Store Val Config) A), mono c →
            extends st (c st).2 ∧ (wf st → wf (c st).2)) as Hm.
  { intros A c Hc. destruct (c st) as [r st'] eqn:Hr. by apply (Hc _ _ _ Hr). }
  destruct o; unfold exec; apply Hm.
  - apply mono_define_class.
  - apply mono_Base__init__.
  - apply mono_get.
  - apply mono_getattr.
  - apply mono_bind; [apply mono_get_read_fields | intros; apply mono_read_loop].
  - apply mono_bind; [apply mono_get_read_fields | intros; apply mono_describe_loop].
  - apply mono_bind; [apply mono_lift | intros; apply mono_set_loop].
Qed.

Lemma run_extends (ops : list (Op Val Config)) st :
  extends st (run ops st) ∧ (wf st → wf (run ops st)).
Proof.
  revert st. induction ops as [|o ops IH]; intros st; simpl.
  - by apply extends_same.
  - destruct (mono_exec o st) as [He Hw]. destruct (IH (exec o st)) as [He' Hw'].
    split; [by eapply extends_trans | auto].
Qed.

Lemma wf_empty : wf (Val:=Val) (Config:=Config) empty_store.
Proof.
  intros d k r. simpl. rewrite lookup_total_empty.
  change (inhabitant !! k) with ((∅ : gmap string nat) !! k).
  by rewrite lookup_empty.
Qed.

Lemma reachable_wf st : reachable st → wf st.
Proof. intros [ops ->]. apply run_extends, wf_empty. Qed.


(** *** Field access *)

Lemma get_stable self inst st v st1 st2 :
  Signal__get__ self (Some inst) st = (Ok v, st1) →
  extends st1 st2 →
  Signal__get__ self (Some inst) st2 = (Ok v, st2).
Proof.
  intros Hg [_ Hd].
  destruct (get_cases _ _ _ _ _ Hg)
    as [(e & _ & ? & _)|[(k & a & Hf & Hk & [= ->] & ->)|(k & Hf & Hk & [= ->] & ->)]];
    [done| |].
  - apply (get_hit _ _ _ k); auto.
  - apply (get_hit _ _ _ k); [done|]. apply Hd. simpl.
    by rewrite lookup_total_insert_eq, lookup_insert_eq.
Qed.

Lemma getattr_signal inst name d st :
  field_signal inst name = Some d →
  getattr inst name st = Signal__get__ d (Some inst) st.
Proof.
  unfold field_signal, getattr. repeat case_match; try done. congruence.
Qed.

Lemma getattr_channel inst name st r st' :
  getattr inst name st = (Ok (VChan r), st') →
  ∃ d, field_signal inst name = Some d.
Proof.
  unfold field_signal, getattr, meta_value, ret, raise.
  repeat case_match; try done; eauto.
Qed.

Lemma resolve_Some inst name k :
  resolve inst name = Some k →
  ∃ d, field_signal inst name = Some d ∧
       format_base_name (pv_template d) (base_name inst) = Ok k.
Proof.
  unfold resolve. destruct (field_signal inst name) as [d|]; [|done]. simpl.
  destruct (format_base_name _ _) as [k'|] eqn:Hf; [|done]. intros [= ->]. eauto.
Qed.

Lemma field_channel_Some st inst name c :
  field_channel st inst name = Some c →
  ∃ d k, field_signal inst name = Some d ∧ resolve inst name = Some k ∧
         format_base_name (pv_template d) (base_name inst) = Ok k ∧
         match (dicts st !!! cls_pvs (inst_class inst)) !! k with
         | Some r => chans st !! r
         | None => Some (Channel__init__ (sig_kind d) k (sig_args d))
         end = Some c.
Proof.
  unfold field_channel. destruct (field_signal inst name) as [d|] eqn:Hd; [|done].
  simpl. destruct (resolve inst name) as [k|] eqn:Hk; [|done]. simpl.
  intros Hc. exists d, k. repeat split; [|done].
  destruct (resolve_Some _ _ _ Hk) as (d' & Hd' & Hf). congruence.
Qed.

(** Accessing a field returns its channel; afterwards the fields that resolve
    to the same identifier have that channel, and the others are unchanged. *)
Lemma getattr_field st inst name c :
  wf st → field_channel st inst name = Some c →
  ∃ k r st1,
    resolve inst name = Some k ∧
    getattr inst name st = (Ok (VChan r), st1) ∧
    chans st1 !! r = Some c ∧ pvname (chan_pv c) = k ∧ wf st1 ∧
    puts st1 = puts st ∧
    (∀ name', resolve inst name' = Some k → field_channel st1 inst name' = Some c) ∧
    (∀ name', resolve inst name' ≠ Some k →
       field_channel st1 inst name' = field_channel st inst name').
Proof.
  intros Hwf Hc.
  destruct (field_channel_Some _ _ _ _ Hc) as (d & k & Hd & Hk & Hf & Hc').
  rewrite (getattr_signal _ _ _ _ Hd). exists k.
  destruct ((dicts st !!! cls_pvs (inst_class inst)) !! k) as [r|] eqn:Hl.
  - exists r, st. destruct (Hwf _ _ _ Hl) as (c0 & Hc0 & Hp).
    assert (c0 = c) as -> by congruence.
    rewrite (get_hit _ _ _ _ _ Hf Hl). repeat split; try done.
    intros name' Hk'. unfold field_channel.
    destruct (resolve_Some _ _ _ Hk') as (d' & -> & _). simpl.
    rewrite Hk'. simpl. by rewrite Hl.
  - injection Hc' as <-. rewrite (get_miss _ _ _ _ Hf Hl).
    eexists _, _. split; [done|]. split; [reflexivity|]. repeat split.
    + simpl. by apply list_lookup_middle.
    + apply pvname_Channel__init__.
    + apply wf_after_miss; [done | apply pvname_Channel__init__].
    + intros name' Hk'. unfold field_channel.
      destruct (resolve_Some _ _ _ Hk') as (d' & -> & _). simpl.
      rewrite Hk'. simpl. rewrite lookup_total_insert_eq, lookup_insert_eq.
      by apply list_lookup_middle.
    + intros name' Hk'. unfold field_channel.
      destruct (field_signal inst name') as [d'|]; [|done]. simpl.
      destruct (resolve inst name') as [k'|]; [|done]. simpl.
      rewrite lookup_total_insert_eq, lookup_insert_ne by congruence.
      destruct ((dicts st !!! cls_pvs (inst_class inst)) !! k') as [r'|] eqn:Hl';
        [|done].
      destruct (Hwf _ _ _ Hl') as (c' & Hc' & _). rewrite Hc'.
      by apply lookup_app_l_Some.
Qed.

Lemma Channel_get_connected st r c :
  chans st !! r = Some c → connected c = true →
  ∃ x, Channel_get (VChan r) st = (Ok x, st).
Proof. intros Hc Hcon. unfold Channel_get. rewrite Hc, Hcon. eauto. Qed.

Lemma Channel_get_disconnected st r c :
  chans st !! r = Some c → connected c = false →
  Channel_get (VChan r) st =
    (Raise (DisconnectedError (pvname (chan_pv c) +:+ " is not connected")), st).
Proof. intros Hc Hcon. unfold Channel_get. by rewrite Hc, Hcon. Qed.

Lemma read_loop_disconnected inst pre f post :
  ∀ st acc,
    wf st →
    (∀ g, g ∈ pre → ∃ c, field_channel st inst g = Some c ∧ connected c = true) →
    (∀ g, g ∈ pre → resolve inst g ≠ resolve inst f) →
    (∃ c, field_channel st inst f = Some c ∧ connected c = false) →
    ∃ k st', resolve inst f = Some k ∧
      read_loop inst (pre ++ f :: post) acc st =
        (Raise (DisconnectedError (k +:+ " is not connected")), st').
Proof.
  induction pre as [|g pre IH]; intros st acc Hwf Hpre Hne (c & Hc & Hcon).
  - destruct (getattr_field _ _ _ _ Hwf Hc)
      as (k & r & st1 & Hk & Hg & Hr & Hp & _).
    exists k, st1. split; [done|]. simpl.
    rewrite (bind_ok _ _ _ _ _ Hg).
    apply bind_raise. rewrite <- Hp. by apply Channel_get_disconnected.
  - destruct (Hpre g) as (cg & Hcg & Hcong); [by left|].
    destruct (getattr_field _ _ _ _ Hwf Hcg)
      as (k & r & st1 & Hk & Hg & Hr & Hp & Hwf1 & _ & Hsame & Hother).
    destruct (Channel_get_connected _ _ _ Hr Hcong) as [x Hx].
    destruct (IH st1 (odict_set g x acc)) as (kf & st' & Hkf & Hloop).
    + done.
    + intros g' Hg'. destruct (decide (resolve inst g' = Some k)) as [He|He].
      * exists cg. by rewrite (Hsame _ He).
      * rewrite (Hother _ He). apply Hpre. by right.
    + intros g' Hg'. apply Hne. by right.
    + exists c. rewrite Hother; [done|]. rewrite <- Hk. intros He.
      by apply (Hne g); [left|].
    + exists kf, st'. split; [done|]. simpl.
      rewrite (bind_ok _ _ _ _ _ Hg). by rewrite (bind_ok _ _ _ _ _ Hx).
Qed.


Lemma getattr_channel_field st inst name r st1 :
  wf st → getattr inst name st = (Ok (VChan r), st1) →
  ∃ c, field_channel st inst name = Some c.
Proof.
  intros Hwf Hg. destruct (getattr_channel _ _ _ _ _ Hg) as [d Hd].
  rewrite (getattr_signal _ _ _ _ Hd) in Hg.
  assert (∃ k, format_base_name (pv_template d) (base_name inst) = Ok k)
    as [k Hf].
  { destruct (get_cases _ _ _ _ _ Hg)
      as [(e & _ & ? & _)|[(k & a & Hf & _)|(k & Hf & _)]]; [done| |]; eauto. }
  unfold field_channel, resolve. rewrite Hd. simpl. rewrite Hf. simpl.
  destruct (_ !! k) as [a|] eqn:Hl; [|eauto].
  destruct (Hwf _ _ _ Hl) as (c & Hc & _). eauto.
Qed.

Lemma Channel_put_ok v x st s st' :
  Channel_put v x st = (Ok s, st') →
  ∃ r c, v = VChan r ∧ chans st !! r = Some c ∧
    s = pv_put (pvname (chan_pv c)) x ∧
    chans st' = chans st ∧ dicts st' = dicts st ∧
    puts st' = puts st ++ [(pvname (chan_pv c), x)].
Proof.
  unfold Channel_put, raise, bind, log_put, ret.
  destruct v as [|r| | | |]; try done.
  destruct (chans st !! r) as [[pv|pv rb]|] eqn:Hc; try done.
  case_match; [|done]. intros [= <- <-]. eauto 10.
Qed.

(** A successful [set] loop issues one put per bound argument, in order, on the
    resolved identifier of its field. *)
Lemma set_loop_ok inst bound :
  ∀ st acc hs st',
    wf st → set_loop inst bound acc st = (Ok hs, st') →
    ∃ ks, Forall2 (λ nv k, resolve inst nv.1 = Some k) bound ks ∧
          puts st' = puts st ++ zip ks bound.*2 ∧
          hs = acc ++ zip_with pv_put ks bound.*2.
Proof.
  induction bound as [|[n x] bound IH]; intros st acc hs st' Hwf; simpl.
  - intros [= <- <-]. exists []. by rewrite !app_nil_r.
  - intros Hb.
    destruct (bind_inv _ _ _ _ _ Hb) as [(v & st1 & Hg & Hb1)|(e & _ & ?)];
      [|done].
    destruct (bind_inv _ _ _ _ _ Hb1) as [(s & st2 & Hp & Hb2)|(e & _ & ?)];
      [|done].
    destruct (Channel_put_ok _ _ _ _ _ Hp)
      as (r & c & -> & Hc & -> & Hch & Hdi & Hpu).
    destruct (getattr_channel_field _ _ _ _ _ Hwf Hg) as [c0 Hc0].
    destruct (getattr_field _ _ _ _ Hwf Hc0)
      as (k & r' & st1' & Hk & Hg' & Hr' & Hpv & Hwf1 & Hpu1 & _).
    rewrite Hg in Hg'. injection Hg' as <- <-.
    assert (c0 = c) as -> by congruence.
    assert (wf st2) as Hwf2.
    { by apply (extends_same st1 st2). }
    destruct (IH _ _ _ _ Hwf2 Hb2) as (ks & Hks & Hpu2 & ->).
    exists (k :: ks). split; [by constructor|]. simpl.
    rewrite Hpu2, Hpu, Hpu1, <- !app_assoc, Hpv. done.
Qed.


(** *** Binding the arguments of [set] *)

Lemma bind_args_positional (params : list string) (args : list Val) :
  length args ≤ length params →
  bind_args params args ∅ = Ok (zip params args, drop (length args) params).
Proof.
  revert params. induction args as [|a args IH]; intros params Hlen; simpl.
  - by destruct params.
  - destruct params as [|p params]; simpl in *; [lia|].
    rewrite lookup_empty. rewrite bool_decide_eq_false_2 by (by intros [? ?]).
    rewrite IH by lia. done.
Qed.

Lemma bind_kwargs_keywords (params : list string) (vals : list Val) :
  NoDup params → length params = length vals →
  bind_kwargs params (list_to_map (zip params vals)) = Ok (zip params vals).
Proof.
  intros Hnd. revert vals.
  induction Hnd as [|p params Hp Hnd IH]; intros [|v vals] Hlen; simpl in *;
    try done.
  rewrite lookup_insert_eq, delete_insert_id.
  - rewrite IH by lia. done.
  - apply not_elem_of_list_to_map_1. rewrite fst_zip by lia. done.
Qed.

Lemma Signature_bind_positional (params : list string) (args : list Val) :
  length args = length params →
  Signature_bind params args ∅ = Ok (zip params args).
Proof.
  intros Hlen. unfold Signature_bind.
  rewrite bind_args_positional by lia. rewrite Hlen, drop_all. simpl.
  rewrite bool_decide_eq_true_2 by done. by rewrite app_nil_r.
Qed.

Lemma Signature_bind_keywords (params : list string) (vals : list Val) :
  NoDup params → length params = length vals →
  Signature_bind params [] (list_to_map (zip params vals)) = Ok (zip params vals).
Proof.
  intros Hnd Hlen. unfold Signature_bind.
  assert (∀ kw : gmap string Val, bind_args params [] kw = Ok ([], params))
    as -> by (by destruct params).
  by rewrite bind_kwargs_keywords.
Qed.

Lemma Signature_bind_missing (params : list string) (args : list Val) :
  length args < length params →
  Signature_bind params args ∅ = Raise (TypeError "missing a required argument").
Proof.
  intros Hlen. unfold Signature_bind.
  rewrite bind_args_positional by lia.
  destruct (drop (length args) params) as [|p rest] eqn:Hd.
  - apply (f_equal length) in Hd. rewrite length_drop in Hd. simpl in Hd. lia.
  - simpl. by rewrite lookup_empty.
Qed.

(** *** Class definition *)

Lemma odict_set_keys {A} k (v : A) d :
  (odict_set k v d).*1 = if bool_decide (k ∈ d.*1) then d.*1 else d.*1 ++ [k].
Proof.
  induction d as [|[k' v'] d IH]; [done|].
  cbn [odict_set]. destruct (decide (k' = k)) as [->|Hne].
  - rewrite (bool_decide_eq_true_2 (k = k)) by done. rewrite !fmap_cons.
    rewrite bool_decide_eq_true_2 by (by left). done.
  - rewrite (bool_decide_eq_false_2 (k' = k)) by done. rewrite !fmap_cons, IH.
    cbn [fst]. destruct (decide (k ∈ d.*1)) as [Hin|Hin].
    + rewrite (bool_decide_eq_true_2 (k ∈ d.*1)) by done.
      rewrite bool_decide_eq_true_2 by (by right). done.
    + rewrite (bool_decide_eq_false_2 (k ∈ d.*1)) by done.
      rewrite bool_decide_eq_false_2; [done|].
      rewrite not_elem_of_cons. split; [congruence | done].
Qed.

Lemma odict_set_NoDup {A} k (v : A) d :
  NoDup d.*1 → NoDup (odict_set k v d).*1.
Proof.
  intros Hnd. rewrite odict_set_keys. case_bool_decide; [done|].
  apply NoDup_app. repeat split; [done| |apply NoDup_singleton].
  intros x Hx. intros Hx'. apply list_elem_of_singleton in Hx'. by subst.
Qed.

Lemma exec_body_NoDup (body : list (string * BodyExpr Config)) ns ns' :
  exec_body body ns = Ok ns' → NoDup ns.*1 → NoDup ns'.*1.
Proof.
  revert ns. induction body as [|[name e] body IH]; intros ns; simpl.
  - by intros [= <-].
  - destruct e as [k t a|].
    + destruct (Signal__init__ k t a); [|done].
      intros Hb Hnd. apply (IH _ Hb). by apply odict_set_NoDup.
    + intros Hb Hnd. apply (IH _ Hb). by apply odict_set_NoDup.
Qed.

Lemma signals_of_sublist (ns : list (string * Attr Config)) :
  (signals_of ns).*1 `sublist_of` ns.*1.
Proof.
  induction ns as [|[k [s|]] ns IH]; simpl; by constructor.
Qed.

Lemma writable_signals_sublist (sigs : list (string * Signal Config)) :
  writable_signals sigs `sublist_of` sigs.*1.
Proof.
  induction sigs as [|[k v] sigs IH]; simpl; [done|].
  destruct (sig_kind v); by constructor.
Qed.

Lemma define_class_inv name body st cls st' :
  define_class name body st = (Ok cls, st') →
  ∃ ns, exec_body body [] = Ok ns ∧
    cls = mkClass name ((λ kv, (kv.1, pv_template kv.2)) <$> signals_of ns)
            (signals_of ns) (signals_of ns).*1
            (writable_signals (signals_of ns)) (fresh (dom (dicts st))) ∧
    st' = mkStore (chans st) (<[fresh (dom (dicts st)) := ∅]> (dicts st))
            (next_inst st) (puts st).
Proof.
  unfold define_class, SignalMeta__new__, bind, lift, new_dict, ret.
  destruct (exec_body body []) as [ns|e]; [|done].
  intros [= <- <-]. eauto.
Qed.

Lemma define_class_NoDup name body st cls st' :
  define_class name body st = (Ok cls, st') →
  NoDup (cls_signal_names cls) ∧ NoDup (cls_default_sig_for_set cls).
Proof.
  intros Hd. destruct (define_class_inv _ _ _ _ _ Hd) as (ns & Hns & -> & _).
  simpl. assert (NoDup (signals_of ns).*1) as Hnd.
  { eapply sublist_NoDup; [|apply signals_of_sublist].
    apply (exec_body_NoDup _ _ _ Hns). constructor. }
  split; [done|]. eapply sublist_NoDup; [done | apply writable_signals_sublist].
Qed.

(** *** A set that succeeds *)

Lemma field_channel_same st st' inst n :
  chans st' = chans st → dicts st' = dicts st →
  field_channel st' inst n = field_channel st inst n.
Proof. intros Hc Hd. unfold field_channel. by rewrite Hc, Hd. Qed.

Lemma Forall2_impl_elem {A B} (P Q : A → B → Prop) l k :
  Forall2 P l k → (∀ x y, x ∈ l → P x y → Q x y) → Forall2 Q l k.
Proof.
  induction 1 as [|x y l k HP Hlk IH]; intros HPQ; constructor.
  - apply HPQ; [by left | done].
  - apply IH. intros x' y' Hin. apply HPQ. by right.
Qed.

Lemma Channel_put_connected st r (c : Channel Config) x :
  chans st !! r = Some c → LiteExt.has_put c = true → connected c = true →
  Channel_put (VChan r) x st =
    (Ok (pv_put (pvname (chan_pv c)) x),
     mkStore (chans st) (dicts st) (next_inst st)
             (puts st ++ [(pvname (chan_pv c), x)])).
Proof.
  intros Hc Hput Hcon. unfold Channel_put. rewrite Hc.
  destruct c as [pv|pv rb]; [done|]. by rewrite Hcon.
Qed.

Lemma set_loop_connected inst bound :
  ∀ (cs : list (Channel Config)) acc st,
    wf st →
    NoDup (resolve inst <$> bound.*1) →
    Forall2 (λ nv c, field_channel st inst nv.1 = Some c ∧
                     connected c = true ∧ LiteExt.has_put c = true) bound cs →
    ∃ st',
      set_loop inst bound acc st =
        (Ok (acc ++ zip_with (λ c v, pv_put (pvname (chan_pv c)) v)
                             cs bound.*2), st') ∧
      puts st' = puts st ++ zip ((λ c, pvname (chan_pv c)) <$> cs) bound.*2.
Proof.
  induction bound as [|[g y] bound IH]; intros cs acc st Hwf Hnd Hcs.
  - apply Forall2_nil_inv_l in Hcs as ->. exists st. simpl.
    by rewrite !app_nil_r.
  - apply Forall2_cons_inv_l in Hcs as (c & cs' & (Hc & Hccon & Hcput) & Hcs & ->).
    simpl in Hnd. apply NoDup_cons in Hnd as [Hn Hnd].
    destruct (getattr_field _ _ _ _ Hwf Hc)
      as (k & r & st1 & Hk & Hg & Hr & Hp & Hwf1 & Hpu & _ & Hother).
    simpl in Hk.
    set (st2 := mkStore (chans st1) (dicts st1) (next_inst st1)
                        (puts st1 ++ [(pvname (chan_pv c), y)])).
    assert (∀ n, resolve inst n ≠ Some k →
                 field_channel st2 inst n = field_channel st inst n) as Hfc.
    { intros n Hne. rewrite <- (Hother n Hne). by apply field_channel_same. }
    destruct (IH cs' (acc ++ [pv_put (pvname (chan_pv c)) y]) st2)
      as (st' & Hloop & Hputs); try done.
    + eapply Forall2_impl_elem; [done|]. intros [n' y'] c' Hn' (Hc' & ? & ?).
      split; [|done]. rewrite Hfc; [done|]. rewrite <- Hk. intros Heq.
      apply Hn. rewrite <- Heq.
      apply list_elem_of_fmap_2. by apply (list_elem_of_fmap_2 fst) in Hn'.
    + exists st'. split.
      * cbn [set_loop]. rewrite (bind_ok _ _ _ _ _ Hg).
        rewrite (bind_ok _ _ _ _ _ (Channel_put_connected _ _ _ y Hr Hcput Hccon)).
        fold st2. rewrite Hloop. simpl. by rewrite <- app_assoc.
      * rewrite Hputs. simpl. by rewrite Hpu, <- app_assoc.
Qed.

End lite_facts.

Section lite_claims.
Import Lite.
Context {Val Config Status : Type} {env : Env Val Config Status}.
Implicit Types (st : Store Val Config) (self : Instance Config).

Lemma odict_get_set_eq {A} k (v : A) d : odict_get k (odict_set k v d) = Some v.
Proof.
  induction d as [|[k' v'] d IH]; simpl.
  - by rewrite bool_decide_eq_true_2.
  - destruct (decide (k' = k)) as [->|Hne].
    + rewrite (bool_decide_eq_true_2 (k = k)) by done. simpl.
      by rewrite bool_decide_eq_true_2.
    + rewrite (bool_decide_eq_false_2 (k' = k)) by done. simpl.
      by rewrite (bool_decide_eq_false_2 (k' = k)) by done.
Qed.

Lemma odict_get_set_ne {A} k k' (v : A) d :
  k' ≠ k → odict_get k' (odict_set k v d) = odict_get k' d.
Proof.
  intros Hne. induction d as [|[k0 v0] d IH]; simpl.
  - by rewrite bool_decide_eq_false_2 by done.
  - destruct (decide (k0 = k)) as [->|Hne0].
    + rewrite (bool_decide_eq_true_2 (k = k)) by done. simpl.
      by rewrite !(bool_decide_eq_false_2 (k = k')) by done.
    + rewrite (bool_decide_eq_false_2 (k0 = k)) by done. simpl.
      by rewrite IH.
Qed.

Lemma odict_get_None {A} k (d : list (string * A)) :
  k ∉ d.*1 → odict_get k d = None.
Proof.
  induction d as [|[k' v'] d IH]; [done|]. rewrite fmap_cons, not_elem_of_cons.
  intros [Hne Hin]. simpl. rewrite bool_decide_eq_false_2 by done. auto.
Qed.

Lemma exec_body_last (body : list (string * BodyExpr Config)) :
  (∀ n k t a, (n, ENewSignal k t a) ∈ body →
     PyStr.contains "{base_name}" t = true) →
  ∀ ns, ∃ ns', exec_body body ns = Ok ns' ∧
    ∀ n, odict_get n ns' =
         match last_decl n body with
         | Some e => Some (eval_expr e)
         | None => odict_get n ns
         end.
Proof.
  induction body as [|[name e] body IH]; intros Hok ns.
  - exists ns. by split.
  - assert (∀ n k t a, (n, ENewSignal k t a) ∈ body →
              PyStr.contains "{base_name}" t = true) as Hok'.
    { intros n k t a Hin. apply (Hok n k t a). by right. }
    assert (exec_body ((name, e) :: body) ns =
            exec_body body (odict_set name (eval_expr e) ns)) as ->.
    { destruct e as [k t a|]; simpl; [|done].
      unfold Signal__init__. rewrite (Hok name k t a) by (by left). done. }
    destruct (IH Hok' (odict_set name (eval_expr e) ns)) as (ns' & -> & Hget).
    exists ns'. split; [done|]. intros n. rewrite Hget. simpl.
    destruct (last_decl n body); [done|].
    case_bool_decide as Hn; subst.
    + apply odict_get_set_eq.
    + by apply odict_get_set_ne.
Qed.

Lemma odict_get_signals_of (ns : list (string * Attr Config)) n :
  NoDup ns.*1 →
  odict_get n (signals_of ns) =
    match odict_get n ns with
    | Some (ASignal s) => Some s
    | _ => None
    end.
Proof.
  induction ns as [|[k v] ns IH]; [done|]. rewrite fmap_cons, NoDup_cons.
  intros [Hk Hnd]. destruct v as [s|]; simpl.
  - case_bool_decide; [done | auto].
  - case_bool_decide as Hkn; [|auto]. subst. apply odict_get_None.
    intros Hin. apply Hk. eapply elem_of_sublist; [done|].
    apply signals_of_sublist.
Qed.


(** C3. For a schema class whose writable signals are [a], [b], [c] in
    declaration order, [set(x, y, z)] and [set(a=x, b=y, c=z)] run the same
    writes: both bind to the pairs (a, x), (b, y), (c, z) in this order.  When
    the three fields have connected writable channels on distinct resolved
    identifiers, the call succeeds: it issues one put per field, in this
    order, on the PV of the channel of the field, and returns the three
    statuses; and whenever the call succeeds, that is what it has done.
    [set(x, y)] raises the TypeError of the binding and leaves the store
    untouched. *)
Theorem C3_set_signature_fidelity name body st0 cls st1 self a b c
    (x y z : Val) st :
  define_class name body st0 = (Ok cls, st1) →
  inst_class self = cls →
  cls_default_sig_for_set cls = [a; b; c] →
  reachable st →
  let positional := SettableBase_set self [x; y; z] ∅ st in
  let keywords :=
    SettableBase_set self [] (<[a:=x]> (<[b:=y]> (<[c:=z]> ∅))) st in
  positional = keywords ∧
  positional = set_loop self [(a, x); (b, y); (c, z)] [] st ∧
  (∀ hs st', positional = (Ok hs, st') →
     ∃ ka kb kc,
       resolve self a = Some ka ∧ resolve self b = Some kb ∧
       resolve self c = Some kc ∧
       puts st' = puts st ++ [(ka, x); (kb, y); (kc, z)] ∧
       hs = [pv_put ka x; pv_put kb y; pv_put kc z]) ∧
  (∀ ca cb cc,
     field_channel st self a = Some ca →
     field_channel st self b = Some cb →
     field_channel st self c = Some cc →
     Forall (λ ch, connected ch = true ∧ LiteExt.has_put ch = true) [ca; cb; cc] →
     NoDup [resolve self a; resolve self b; resolve self c] →
     ∃ st',
       positional =
         (Ok [pv_put (pvname (chan_pv ca)) x; pv_put (pvname (chan_pv cb)) y;
              pv_put (pvname (chan_pv cc)) z], st') ∧
       puts st' = puts st ++ [(pvname (chan_pv ca), x);
                              (pvname (chan_pv cb), y);
                              (pvname (chan_pv cc), z)]) ∧
  SettableBase_set self [x; y] ∅ st =
    (Raise (TypeError "missing a required argument"), st).
Proof.
  intros Hdef Hcls Hsig Hreach.
  destruct (define_class_NoDup _ _ _ _ _ Hdef) as [_ Hnd]. rewrite Hsig in Hnd.
  assert (SettableBase_set self [x; y; z] ∅ st =
          set_loop self [(a, x); (b, y); (c, z)] [] st) as Hpos.
  { unfold SettableBase_set, bind, lift. rewrite Hcls, Hsig.
    by rewrite (Signature_bind_positional [a; b; c] [x; y; z]). }
  assert (SettableBase_set self [] (<[a:=x]> (<[b:=y]> (<[c:=z]> ∅))) st =
          set_loop self [(a, x); (b, y); (c, z)] [] st) as Hkw.
  { unfold SettableBase_set, bind, lift. rewrite Hcls, Hsig.
    change (<[a:=x]> (<[b:=y]> (<[c:=z]> ∅)) : gmap string Val)
      with (list_to_map (zip [a; b; c] [x; y; z]) : gmap string Val).
    by rewrite (Signature_bind_keywords [a; b; c] [x; y; z] Hnd). }
  cbv zeta. rewrite Hkw, Hpos. split; [done|]. split; [done|].
  split; [|split].
  - intros hs st' Hloop.
    destruct (set_loop_ok _ _ _ _ _ _ (reachable_wf _ Hreach) Hloop)
      as (ks & Hks & Hputs & ->).
    apply Forall2_cons_inv_l in Hks as (ka & ks1 & Ha & Hks & ->).
    apply Forall2_cons_inv_l in Hks as (kb & ks2 & Hb & Hks & ->).
    apply Forall2_cons_inv_l in Hks as (kc & ks3 & Hc & Hks & ->).
    apply Forall2_nil_inv_l in Hks as ->.
    exists ka, kb, kc. by repeat split.
  - intros ca cb cc Ha Hb Hc Hall Hdist.
    apply Forall_cons in Hall as [[? ?] Hall].
    apply Forall_cons in Hall as [[? ?] Hall].
    apply Forall_cons in Hall as [[? ?] _].
    apply (set_loop_connected self [(a, x); (b, y); (c, z)] [ca; cb; cc] [] st);
      [by apply reachable_wf | done | by repeat constructor].
  - unfold SettableBase_set, bind, lift. rewrite Hcls, Hsig.
    by rewrite (Signature_bind_missing [a; b; c] [x; y]) by (simpl; lia).
Qed.

(** C4. When [read] reaches a selected field whose channel is not connected,
    the fields before it having connected channels and resolving to other
    identifiers, it raises DisconnectedError with the message built from the
    resolved identifier of that field, and returns no mapping.  With exactly
    one such field the fields after it play no role. *)
Theorem C4_read_failure_locality self st pre f post :
  reachable st →
  read_fields self = Some (pre ++ f :: post) →
  (∀ g, g ∈ pre → ∃ c, field_channel st self g = Some c ∧ connected c = true) →
  (∀ g, g ∈ pre → resolve self g ≠ resolve self f) →
  (∃ c, field_channel st self f = Some c ∧ connected c = false) →
  ∃ k st', resolve self f = Some k ∧
    Base_read self st =
      (Raise (DisconnectedError (k +:+ " is not connected")), st').
Proof.
  intros Hreach Hrf Hpre Hne Hf.
  destruct (read_loop_disconnected self pre f post st [] (reachable_wf _ Hreach)
              Hpre Hne Hf) as (k & st' & Hk & Hloop).
  exists k, st'. split; [done|].
  unfold Base_read, get_read_fields. rewrite Hrf.
  by rewrite (bind_ok _ _ st (pre ++ f :: post) st).
Qed.


(** C9, as the code has it.  A class body that assigns a name twice is
    accepted: when every [Signal] constructor in the body accepts its
    template the class definition completes, each name is registered once,
    and a registered name is bound to the signal of its last assignment. *)
Theorem C9_redeclaration_overwrites name
    (body : list (string * BodyExpr Config)) st :
  (∀ n k t a, (n, ENewSignal k t a) ∈ body →
     PyStr.contains "{base_name}" t = true) →
  ∃ cls st',
    define_class name body st = (Ok cls, st') ∧
    NoDup (cls_signal_names cls) ∧
    ∀ n, odict_get n (cls_signals cls) =
         match last_decl n body with
         | Some (ENewSignal k t a) => Some (mkSignal k t a)
         | _ => None
         end.
Proof.
  intros Hok. destruct (exec_body_last body Hok []) as (ns & Hns & Hget).
  destruct (define_class name body st) as [r st'] eqn:Hdef.
  assert (∃ cls, r = Ok cls) as [cls ->].
  { revert Hdef. unfold define_class, SignalMeta__new__, bind, lift, new_dict, ret.
    rewrite Hns. intros [= <- _]. eauto. }
  exists cls, st'. split; [done|].
  split; [apply (define_class_NoDup _ _ _ _ _ Hdef)|].
  destruct (define_class_inv _ _ _ _ _ Hdef) as (ns0 & Hns0 & -> & _).
  assert (ns0 = ns) as -> by congruence. simpl. intros n.
  rewrite odict_get_signals_of, Hget.
  - destruct (last_decl n body) as [[k t a|]|]; done.
  - apply (exec_body_NoDup _ _ _ Hns). constructor.
Qed.

End lite_claims.

(** ** The documentation resolver *)

Section doc_facts.
Import Doc.
Implicit Types (docs : gmap string (gmap string string))
  (tables : list (gmap string string)) (pv : string).

Lemma first_hit_nil pv : first_hit pv [] = None.
Proof. done. Qed.

Lemma first_hit_cons pv t tables :
  first_hit pv (t :: tables) =
    match table_hit pv t with
    | Some d => Some d
    | None => first_hit pv tables
    end.
Proof.
  unfold first_hit. rewrite fmap_cons. cbn [list_find].
  destruct (table_hit pv t) as [d|]; simpl; [done|].
  by destruct (list_find _ _) as [[i o]|].
Qed.

Lemma first_hit_app pv tables1 tables2 :
  first_hit pv (tables1 ++ tables2) =
    match first_hit pv tables1 with
    | Some d => Some d
    | None => first_hit pv tables2
    end.
Proof.
  induction tables1 as [|t tables1 IH]; [done|].
  rewrite <- app_comm_cons, !first_hit_cons. by destruct (table_hit pv t).
Qed.

Lemma search_files_first_hit docs html_file pv :
  search_files docs html_file pv =
    first_hit pv (omap (λ fn, docs !! fn) html_file).
Proof.
  induction html_file as [|fn html_file IH]; [done|]. simpl.
  destruct (docs !! fn) as [doc|]; [|done].
  rewrite first_hit_cons. unfold table_hit.
  destruct (doc !! pv); [done|].
  destruct (PyStr.endswith pv "_RBV"); [|done].
  by destruct (doc !! PyStr.drop_last 4 pv).
Qed.

Lemma search_classes_first_hit docs classes pv :
  search_classes docs classes pv =
    first_hit pv (omap (λ fn, docs !! fn)
                       (concat (omap get_html_docs classes))).
Proof.
  induction classes as [|c classes IH]; [done|]. simpl.
  destruct (get_html_docs c) as [html_file|]; [|done].
  simpl. rewrite omap_app, first_hit_app, <- search_files_first_hit.
  by destruct (search_files docs html_file pv).
Qed.

Lemma lookup_doc_spec docs cls_ pv :
  lookup_doc docs cls_ pv = lookup_spec docs cls_ pv.
Proof.
  unfold lookup_doc, lookup_spec, tables_of_walk.
  rewrite search_classes_first_hit. by destruct (first_hit _ _).
Qed.

Lemma not_found_contains pv : PyStr.contains pv (not_found pv) = true.
Proof.
  apply contains_spec. by exists "No documentation found [PV suffix=", "]".
Qed.

Lemma endswith_app p suf : PyStr.endswith (p +:+ suf) suf = true.
Proof. apply endswith_spec. by exists p. Qed.

Lemma first_hit_reach pv pre t post d :
  (∀ t', t' ∈ pre → table_hit pv t' = None) →
  table_hit pv t = Some d →
  first_hit pv (pre ++ t :: post) = Some d.
Proof.
  intros Hpre Ht. induction pre as [|t0 pre IH]; simpl.
  - by rewrite first_hit_cons, Ht.
  - rewrite first_hit_cons, (Hpre t0) by (by left).
    apply IH. intros t' Hin. apply Hpre. by right.
Qed.

(** C8. [lookup_doc] walks the classes of the resolution order from the most
    derived one, and the tables each of them names, in order; in each table it
    tries the exact name and then, for a name ending in [_RBV], the name
    without this suffix; it returns the first hit of the whole walk, and when
    there is none the sentinel, which contains the name.  It is a function of
    its arguments alone. *)
Theorem C8_lookup_doc docs cls_ pv :
  lookup_doc docs cls_ pv = lookup_spec docs cls_ pv ∧
  (first_hit pv (tables_of_walk docs cls_) = None →
   lookup_doc docs cls_ pv = not_found pv) ∧
  PyStr.contains pv (not_found pv) = true ∧
  (∀ pre t post d,
     tables_of_walk docs cls_ = pre ++ t :: post →
     (∀ t', t' ∈ pre → table_hit pv t' = None) →
     t !! pv = Some d → lookup_doc docs cls_ pv = d) ∧
  (∀ base pre t post d,
     pv = base +:+ "_RBV" →
     tables_of_walk docs cls_ = pre ++ t :: post →
     (∀ t', t' ∈ pre → table_hit pv t' = None) →
     t !! pv = None → t !! base = Some d →
     lookup_doc docs cls_ pv = d).
Proof.
  split; [apply lookup_doc_spec|]. split.
  { intros Hnone. rewrite lookup_doc_spec. unfold lookup_spec. by rewrite Hnone. }
  split; [apply not_found_contains|]. split.
  - intros pre t post d Hw Hpre Ht. rewrite lookup_doc_spec. unfold lookup_spec.
    rewrite Hw, (first_hit_reach pv pre t post d); [done|done|].
    unfold table_hit. by rewrite Ht.
  - intros base pre t post d -> Hw Hpre Ht Hb.
    rewrite lookup_doc_spec. unfold lookup_spec.
    rewrite Hw, (first_hit_reach _ pre t post d); [done|done|].
    unfold table_hit. rewrite Ht, endswith_app.
    change 4 with (String.length "_RBV"). by rewrite drop_last_app.
Qed.

End doc_facts.

(** ** [ADSignal], [ADSignalGroup], [ADBase] *)

Section ad_facts.
Import AD.
Context {Val Config : Type} {env : Env Config}.
Implicit Types (st : Store Val Config) (self : ADSignal Config) (obj : ADBase)
  (g : ADGroup Config).
Local Abbreviation mono := (mono (Val:=Val) (Config:=Config)).

Lemma alter_last {A} (f : A → A) (l : list A) x :
  alter f (length l) (l ++ [x]) = l ++ [f x].
Proof.
  replace (length l) with (length l + 0) by lia. by rewrite alter_app_r.
Qed.

Lemma check_class self st :
  check_exists self None st = (Ok (VDescr self), st).
Proof. done. Qed.

Lemma check_raise self obj st e :
  format_self (pv self) obj = Raise e →
  check_exists self (Some obj) st = (Raise e, st).
Proof. intros Hf. unfold check_exists, bind, lift. by rewrite Hf. Qed.

Lemma check_hit self obj st k r :
  format_self (pv self) obj = Ok k →
  (dicts st !!! _ad_signals obj) !! KStr k = Some r →
  check_exists self (Some obj) st = (Ok (VRef r), st).
Proof.
  intros Hf Hk. unfold check_exists, bind, lift, dict_getitem, ret.
  rewrite Hf. simpl. by rewrite Hk.
Qed.

Lemma check_miss self obj st k :
  format_self (pv self) obj = Ok k →
  (dicts st !!! _ad_signals obj) !! KStr k = None →
  check_exists self (Some obj) st =
    (Ok (VRef (length (objs st))),
     insert_new st (_ad_signals obj) (KStr k) (new_signal self obj k)).
Proof.
  intros Hf Hk. unfold check_exists, bind, lift, dict_getitem, ret, new_obj,
    dict_setitem, set_doc, insert_new, new_signal.
  rewrite Hf. simpl. rewrite Hk.
  destruct (has_rbv self); simpl;
    by rewrite lookup_total_insert_eq, lookup_insert_eq, alter_last.
Qed.

Lemma check_cases self obj st r st' :
  check_exists self (Some obj) st = (r, st') →
  (∃ e, format_self (pv self) obj = Raise e ∧ r = Raise e ∧ st' = st) ∨
  (∃ k a, format_self (pv self) obj = Ok k ∧
          (dicts st !!! _ad_signals obj) !! KStr k = Some a ∧
          r = Ok (VRef a) ∧ st' = st) ∨
  (∃ k, format_self (pv self) obj = Ok k ∧
        (dicts st !!! _ad_signals obj) !! KStr k = None ∧
        r = Ok (VRef (length (objs st))) ∧
        st' = insert_new st (_ad_signals obj) (KStr k) (new_signal self obj k)).
Proof.
  destruct (format_self (pv self) obj) as [k|e] eqn:Hf.
  - destruct ((dicts st !!! _ad_signals obj) !! KStr k) as [a|] eqn:Hk.
    + rewrite (check_hit _ _ _ _ _ Hf Hk). intros [= <- <-]. right; left. eauto 10.
    + rewrite (check_miss _ _ _ _ Hf Hk). intros [= <- <-]. right; right. eauto 10.
  - rewrite (check_raise _ _ _ _ Hf). intros [= <- <-]. left. eauto.
Qed.

(** *** Growth of the store *)

Lemma ad_extends_refl st : extends st st.
Proof. by repeat split. Qed.

Lemma ad_extends_trans st1 st2 st3 :
  extends st1 st2 → extends st2 st3 → extends st1 st3.
Proof.
  intros (Hl1 & Hd1 & He1) (Hl2 & Hd2 & He2).
  split; [lia|]. split; [by etrans | eauto].
Qed.

Lemma ad_extends_same st st' :
  objs st' = objs st → dicts st' = dicts st →
  extends st st' ∧ (wf st → wf st').
Proof.
  intros Ho Hd. unfold extends, wf. rewrite Ho, Hd. split; [|done].
  split; [done|]. by split.
Qed.

Lemma extends_insert_new st d k o :
  (dicts st !!! d) !! k = None → extends st (insert_new st d k o).
Proof.
  intros Hk. split; [|split]; simpl.
  - rewrite length_app. lia.
  - rewrite dom_insert. set_solver.
  - intros d' k' r Hr. destruct (decide (d' = d)) as [->|Hd].
    + rewrite lookup_total_insert_eq.
      destruct (decide (k' = k)) as [->|Hkk]; [congruence|].
      by rewrite lookup_insert_ne.
    + by rewrite lookup_total_insert_ne.
Qed.

Lemma lookup_insert_new st d k o d' k' r :
  (dicts (insert_new st d k o) !!! d') !! k' = Some r →
  (d' = d ∧ k' = k ∧ r = length (objs st)) ∨
  ((d' ≠ d ∨ k' ≠ k) ∧ (dicts st !!! d') !! k' = Some r).
Proof.
  simpl. destruct (decide (d' = d)) as [->|Hd].
  - rewrite lookup_total_insert_eq. destruct (decide (k' = k)) as [->|Hkk].
    + rewrite lookup_insert_eq. intros [= <-]. by left.
    + rewrite lookup_insert_ne by done. intros Hr. right. auto.
  - rewrite lookup_total_insert_ne by done. intros Hr. right. auto.
Qed.

Lemma wf_insert_new st d k o : wf st → wf (insert_new st d k o).
Proof.
  intros [Hval Hinj]. split.
  - intros d' k' r Hr. simpl. rewrite length_app. simpl.
    destruct (lookup_insert_new _ _ _ _ _ _ _ Hr) as [(_ & _ & ->)|[_ Hr']];
      [lia|]. specialize (Hval _ _ _ Hr'). lia.
  - intros d1 k1 d2 k2 r Hr1 Hr2.
    destruct (lookup_insert_new _ _ _ _ _ _ _ Hr1) as [(-> & -> & ->)|[_ Hr1']];
      destruct (lookup_insert_new _ _ _ _ _ _ _ Hr2) as [(-> & -> & ?)|[_ Hr2']];
      subst; try done.
    + specialize (Hval _ _ _ Hr2'). lia.
    + specialize (Hval _ _ _ Hr1'). lia.
    + eauto.
Qed.


Lemma ad_mono_ret {A} (a : A) : mono (ret a).
Proof. intros st r st' [= <- <-]. by apply ad_extends_same. Qed.

Lemma ad_mono_raise {A} e : mono (raise (A:=A) e).
Proof. intros st r st' [= <- <-]. by apply ad_extends_same. Qed.

Lemma ad_mono_bind {A B} (c : M (Store Val Config) A)
    (k : A → M (Store Val Config) B) :
  mono c → (∀ a, mono (k a)) → mono (bind c k).
Proof.
  intros Hc Hk st r st' Hb.
  destruct (bind_inv _ _ _ _ _ Hb) as [(a & s1 & H1 & H2)|(e & H1 & ->)].
  - destruct (Hc _ _ _ H1) as [He1 Hw1]. destruct (Hk _ _ _ _ H2) as [He2 Hw2].
    split; [by eapply ad_extends_trans | auto].
  - by apply (Hc _ _ _ H1).
Qed.

Lemma ad_mono_same {A} (c : M (Store Val Config) A) :
  (∀ st r st', c st = (r, st') → objs st' = objs st ∧ dicts st' = dicts st) →
  mono c.
Proof. intros Hc st r st' Hr. destruct (Hc _ _ _ Hr). by apply ad_extends_same. Qed.

Lemma mono_check_exists self (o : option ADBase) : mono (check_exists self o).
Proof.
  destruct o as [obj|]; [|apply ad_mono_ret].
  intros st r st' Hg.
  destruct (check_cases _ _ _ _ _ Hg)
    as [(e & _ & _ & ->)|[(k & a & _ & _ & _ & ->)|(k & Hf & Hk & _ & ->)]].
  - by apply ad_extends_same.
  - by apply ad_extends_same.
  - split; [by apply extends_insert_new | apply wf_insert_new].
Qed.

Lemma mono_set_value r (v : Val) : mono (set_value r v).
Proof. apply ad_mono_same. by intros st r' st' [= <- <-]. Qed.

Lemma ad_new_dict_lookup st d :
  <[fresh (dom (dicts st)) := ∅]> (dicts st) !!! d = dicts st !!! d.
Proof.
  destruct (decide (d = fresh (dom (dicts st)))) as [->|Hd].
  - rewrite lookup_total_insert_eq, lookup_total_alt.
    by rewrite (not_elem_of_dom_1 _ _ (is_fresh (dom (dicts st)))).
  - by rewrite lookup_total_insert_ne.
Qed.

Lemma mono_ADBase__init__ prefix kw : mono (ADBase__init__ prefix kw).
Proof.
  intros st r st'. unfold ADBase__init__, bind, new_inst, new_dict, ret. simpl.
  intros [= <- <-]. unfold extends, wf; simpl.
  setoid_rewrite ad_new_dict_lookup. rewrite dom_insert.
  split; [|done]. split; [done|]. split; [set_solver | done].
Qed.

(** *** Groups *)

Lemma mono_get_members props obj : mono (get_members props obj).
Proof.
  induction props as [|p props IH]; cbn [get_members]; [apply ad_mono_ret|].
  apply ad_mono_bind; [apply mono_check_exists|]. intros [d|r]; [apply ad_mono_raise|].
  apply ad_mono_bind; [apply IH | intros; apply ad_mono_ret].
Qed.

Lemma get_pvnames_snd signals st : (get_pvnames signals st).2 = st.
Proof.
  induction signals as [|s signals IH]; [done|]. simpl.
  unfold bind, get_pvname.
  destruct (objs st !! s) as [[rd wr n kw dc|kw l]|]; try done.
  destruct (get_pvnames signals st) as [[ns|e] s1]; simpl in *; by subst.
Qed.

Lemma get_pvnames_state signals st r st' :
  get_pvnames signals st = (r, st') → st' = st.
Proof. intros Hg. by rewrite <- (get_pvnames_snd signals st), Hg. Qed.

Lemma add_signals_new (objs0 : list (Obj Config)) kw signals :
  ∀ l st,
    objs st = objs0 ++ [SignalGroup kw l] →
    add_signals (length objs0) signals st =
      (Ok tt, mkStore (objs0 ++ [SignalGroup kw (l ++ signals)]) (dicts st)
                      (next_inst st) (assigned st)).
Proof.
  induction signals as [|s signals IH]; intros l st Hst; simpl.
  - unfold ret. rewrite app_nil_r, <- Hst. by destruct st.
  - unfold bind, add_signal at 1. rewrite Hst, alter_last.
    rewrite (IH (l ++ [s])) by done. simpl. by rewrite <- app_assoc.
Qed.

Lemma group_cases g obj st r st' :
  group_check_exists g obj st = (Ok r, st') →
  ∃ signals key s1,
    get_members (grp_props g) obj st = (Ok signals, s1) ∧
    get_pvnames signals s1 = (Ok key, s1) ∧
    (((dicts s1 !!! _ad_signals obj) !! KTuple key = Some r ∧ st' = s1) ∨
     ((dicts s1 !!! _ad_signals obj) !! KTuple key = None ∧
      r = length (objs s1) ∧
      st' = insert_new s1 (_ad_signals obj) (KTuple key)
              (SignalGroup (grp_kwargs g) signals))).
Proof.
  intros Hg. unfold group_check_exists in Hg.
  destruct (bind_inv _ _ _ _ _ Hg) as [(signals & s1 & Hm & Hg1)|(e & _ & ?)];
    [|done].
  destruct (bind_inv _ _ _ _ _ Hg1) as [(key & s2 & Hk & Hg2)|(e & _ & ?)];
    [|done].
  assert (s2 = s1) as -> by apply (get_pvnames_state _ _ _ _ Hk).
  exists signals, key, s1. split; [done|]. split; [done|].
  revert Hg2. unfold bind at 1, dict_getitem at 1.
  destruct ((dicts s1 !!! _ad_signals obj) !! KTuple key) as [a|] eqn:Hl.
  - intros [= <- <-]. by left.
  - unfold bind at 1, new_obj. unfold bind at 1.
    rewrite (add_signals_new (objs s1) (grp_kwargs g) signals []) by done.
    unfold bind, dict_setitem, dict_getitem, ret. simpl.
    rewrite lookup_total_insert_eq, lookup_insert_eq.
    intros [= <- <-]. right. by repeat split.
Qed.

Lemma mono_group_check_exists g obj : mono (group_check_exists g obj).
Proof.
  intros st r st' Hg. destruct r as [r|e].
  - destruct (group_cases _ _ _ _ _ Hg)
      as (signals & key & s1 & Hm & _ & [[_ ->]|(Hn & _ & ->)]);
      destruct (mono_get_members _ _ _ _ _ Hm) as [He Hw]; [done|].
    split; [|intros; by apply wf_insert_new, Hw].
    eapply ad_extends_trans; [done | by apply extends_insert_new].
  - revert Hg. unfold group_check_exists. intros Hg.
    destruct (bind_inv _ _ _ _ _ Hg) as [(signals & s1 & Hm & Hg1)|(e' & Hm & _)];
      [|by apply (mono_get_members _ _ _ _ _ Hm)].
    destruct (mono_get_members _ _ _ _ _ Hm) as [He Hw].
    destruct (bind_inv _ _ _ _ _ Hg1) as [(key & s2 & Hk & Hg2)|(e' & Hk & _)].
    + assert (s2 = s1) as -> by apply (get_pvnames_state _ _ _ _ Hk).
      revert Hg2. unfold bind at 1, dict_getitem at 1.
      destruct ((dicts s1 !!! _ad_signals obj) !! KTuple key) as [a|] eqn:Hl;
        [done|].
      unfold bind at 1, new_obj. unfold bind at 1.
      rewrite (add_signals_new (objs s1) (grp_kwargs g) signals []) by done.
      unfold bind, dict_setitem, dict_getitem, ret. simpl.
      by rewrite lookup_total_insert_eq, lookup_insert_eq.
    + by rewrite (get_pvnames_state _ _ _ _ Hk).
Qed.


Lemma ad_mono_exec (o : Op Val Config) st :
  extends st (exec o st) ∧ (wf st → wf (exec o st)).
Proof.
  assert (∀ A (c : M (Store Val Config) A), mono c →
            extends st (c st).2 ∧ (wf st → wf (c st).2)) as Hm.
  { intros A c Hc. destruct (c st) as [r st'] eqn:Hr. by apply (Hc _ _ _ Hr). }
  destruct o; unfold exec; apply Hm.
  - apply mono_ADBase__init__.
  - apply mono_check_exists.
  - apply ad_mono_bind; [apply mono_check_exists|].
    intros [d|r]; [apply ad_mono_raise | apply mono_set_value].
  - apply mono_group_check_exists.
  - apply ad_mono_bind; [apply mono_group_check_exists | intros; apply mono_set_value].
Qed.

Lemma ad_run_extends (ops : list (Op Val Config)) st :
  extends st (run ops st) ∧ (wf st → wf (run ops st)).
Proof.
  revert st. induction ops as [|o ops IH]; intros st; simpl.
  - by apply ad_extends_same.
  - destruct (ad_mono_exec o st) as [He Hw]. destruct (IH (exec o st)) as [He' Hw'].
    split; [by eapply ad_extends_trans | auto].
Qed.

Lemma ad_wf_empty : wf (Val:=Val) (Config:=Config) empty_store.
Proof.
  assert (∀ d k, (dicts (empty_store (Val:=Val) (Config:=Config)) !!! d) !! k
                 = None) as Hnone.
  { intros d k. simpl. rewrite lookup_total_empty.
    change (inhabitant !! k) with ((∅ : gmap Key nat) !! k).
    by rewrite lookup_empty. }
  split.
  - intros d k r. by rewrite Hnone.
  - intros d1 k1 d2 k2 r. by rewrite Hnone.
Qed.

Lemma ad_reachable_wf st : reachable st → wf st.
Proof. intros [ops ->]. apply ad_run_extends, ad_wf_empty. Qed.

Lemma check_stable self obj st v st1 st2 :
  check_exists self (Some obj) st = (Ok v, st1) →
  extends st1 st2 →
  check_exists self (Some obj) st2 = (Ok v, st2).
Proof.
  intros Hg (_ & _ & Hd).
  destruct (check_cases _ _ _ _ _ Hg)
    as [(e & _ & ? & _)|[(k & a & Hf & Hk & [= ->] & ->)|(k & Hf & Hk & [= ->] & ->)]];
    [done| |].
  - apply (check_hit _ _ _ k); auto.
  - apply (check_hit _ _ _ k); [done|]. apply Hd. simpl.
    by rewrite lookup_total_insert_eq, lookup_insert_eq.
Qed.



End ad_facts.

(** ** The claims that span both families *)

Section both.
Context {Val Config Status : Type} {env : Lite.Env Val Config Status}.
Context {Val' Config' : Type} {env' : AD.Env Config'}.

Lemma Lite_cache_identity (self : Lite.Signal Config)
    (inst : Lite.Instance Config) (st : Lite.Store Val Config) k :
  Lite.format_base_name (Lite.pv_template self) (Lite.base_name inst) = Ok k →
  ((Lite.dicts st !!! Lite.cls_pvs (Lite.inst_class inst)) !! k = None →
   ∃ st1,
     Lite.Signal__get__ self (Some inst) st
       = (Ok (Lite.VChan (length (Lite.chans st))), st1) ∧
     Lite.chans st1 =
       Lite.chans st ++
         [Lite.Channel__init__ (Lite.sig_kind self) k (Lite.sig_args self)] ∧
     (Lite.dicts st1 !!! Lite.cls_pvs (Lite.inst_class inst)) !! k
       = Some (length (Lite.chans st))) ∧
  (∀ r, (Lite.dicts st !!! Lite.cls_pvs (Lite.inst_class inst)) !! k = Some r →
        Lite.Signal__get__ self (Some inst) st = (Ok (Lite.VChan r), st)) ∧
  ∃ r st1,
    Lite.Signal__get__ self (Some inst) st = (Ok (Lite.VChan r), st1) ∧
    ∀ ops, Lite.Signal__get__ self (Some inst) (Lite.run ops st1)
           = (Ok (Lite.VChan r), Lite.run ops st1).
Proof.
  intros Hf.
  assert (∀ v st1, Lite.Signal__get__ self (Some inst) st = (Ok v, st1) →
            ∀ ops, Lite.Signal__get__ self (Some inst) (Lite.run ops st1)
                   = (Ok v, Lite.run ops st1)) as Hstable.
  { intros v st1 Hg ops. apply (get_stable _ _ _ _ _ _ Hg), run_extends. }
  split; [|split].
  - intros Hk. eexists. split; [by apply get_miss|]. split; [done|]. simpl.
    by rewrite lookup_total_insert_eq, lookup_insert_eq.
  - intros r Hk. by apply (get_hit _ _ _ k).
  - destruct ((Lite.dicts st !!! Lite.cls_pvs (Lite.inst_class inst)) !! k)
      as [r|] eqn:Hk.
    + exists r, st. pose proof (get_hit _ _ _ _ _ Hf Hk) as Hg. eauto.
    + eexists _, _. pose proof (get_miss _ _ _ _ Hf Hk) as Hg. eauto.
Qed.

Lemma AD_cache_identity (d : AD.ADSignal Config') (obj : AD.ADBase)
    (s : AD.Store Val' Config') k :
  AD.format_self (AD.pv d) obj = Ok k →
  ((AD.dicts s !!! AD._ad_signals obj) !! AD.KStr k = None →
   ∃ s1,
     AD.ADSignal__get__ d (Some obj) s
       = (Ok (AD.VRef (length (AD.objs s))), s1) ∧
     AD.objs s1 = AD.objs s ++ [AD.new_signal d obj k] ∧
     (AD.dicts s1 !!! AD._ad_signals obj) !! AD.KStr k
       = Some (length (AD.objs s))) ∧
  (∀ r, (AD.dicts s !!! AD._ad_signals obj) !! AD.KStr k = Some r →
        AD.ADSignal__get__ d (Some obj) s = (Ok (AD.VRef r), s)) ∧
  ∃ r s1,
    AD.ADSignal__get__ d (Some obj) s = (Ok (AD.VRef r), s1) ∧
    ∀ ops, AD.ADSignal__get__ d (Some obj) (AD.run ops s1)
           = (Ok (AD.VRef r), AD.run ops s1).
Proof.
  unfold AD.ADSignal__get__. intros Hf.
  assert (∀ v s1, AD.check_exists d (Some obj) s = (Ok v, s1) →
            ∀ ops, AD.check_exists d (Some obj) (AD.run ops s1)
                   = (Ok v, AD.run ops s1)) as Hstable.
  { intros v s1 Hg ops. apply (check_stable _ _ _ _ _ _ Hg), ad_run_extends. }
  split; [|split].
  - intros Hk. eexists. split; [by apply check_miss|]. split; [done|]. simpl.
    by rewrite lookup_total_insert_eq, lookup_insert_eq.
  - intros r Hk. by apply (check_hit _ _ _ k).
  - destruct ((AD.dicts s !!! AD._ad_signals obj) !! AD.KStr k) as [r|] eqn:Hk.
    + exists r, s. pose proof (check_hit _ _ _ _ _ Hf Hk) as Hg. eauto.
    + eexists _, _. pose proof (check_miss _ _ _ _ Hf Hk) as Hg. eauto.
Qed.


(** C1, as the code has it.  An access to a field whose template formats
    looks the resolved identifier up in the cache that the object reads (the
    dict of the class for [Base] objects, the dict of the object for [ADBase]
    objects).  When the cache has no entry for it, the access returns a new
    address, at which it has built the channel from the resolved identifier,
    and has stored it in the cache under that identifier.  When the cache has
    an entry, the access returns the stored address and leaves the store as it
    is: it builds nothing.  In either case a later access returns the same
    address after any further operations of the module, from a store that it
    leaves as it is.  This holds for [Signal] and for [ADSignal]. *)
Theorem C1_cache_identity :
  (∀ (self : Lite.Signal Config) (inst : Lite.Instance Config)
     (st : Lite.Store Val Config) k,
     Lite.format_base_name (Lite.pv_template self) (Lite.base_name inst)
       = Ok k →
     ((Lite.dicts st !!! Lite.cls_pvs (Lite.inst_class inst)) !! k = None →
      ∃ st1,
        Lite.Signal__get__ self (Some inst) st
          = (Ok (Lite.VChan (length (Lite.chans st))), st1) ∧
        Lite.chans st1 =
          Lite.chans st ++
            [Lite.Channel__init__ (Lite.sig_kind self) k (Lite.sig_args self)] ∧
        (Lite.dicts st1 !!! Lite.cls_pvs (Lite.inst_class inst)) !! k
          = Some (length (Lite.chans st))) ∧
     (∀ r, (Lite.dicts st !!! Lite.cls_pvs (Lite.inst_class inst)) !! k
             = Some r →
           Lite.Signal__get__ self (Some inst) st = (Ok (Lite.VChan r), st)) ∧
     ∃ r st1,
       Lite.Signal__get__ self (Some inst) st = (Ok (Lite.VChan r), st1) ∧
       ∀ ops, Lite.Signal__get__ self (Some inst) (Lite.run ops st1)
              = (Ok (Lite.VChan r), Lite.run ops st1)) ∧
  (∀ (d : AD.ADSignal Config') (obj : AD.ADBase) (s : AD.Store Val' Config') k,
     AD.format_self (AD.pv d) obj = Ok k →
     ((AD.dicts s !!! AD._ad_signals obj) !! AD.KStr k = None →
      ∃ s1,
        AD.ADSignal__get__ d (Some obj) s
          = (Ok (AD.VRef (length (AD.objs s))), s1) ∧
        AD.objs s1 = AD.objs s ++ [AD.new_signal d obj k] ∧
        (AD.dicts s1 !!! AD._ad_signals obj) !! AD.KStr k
          = Some (length (AD.objs s))) ∧
     (∀ r, (AD.dicts s !!! AD._ad_signals obj) !! AD.KStr k = Some r →
           AD.ADSignal__get__ d (Some obj) s = (Ok (AD.VRef r), s)) ∧
     ∃ r s1,
       AD.ADSignal__get__ d (Some obj) s = (Ok (AD.VRef r), s1) ∧
       ∀ ops, AD.ADSignal__get__ d (Some obj) (AD.run ops s1)
              = (Ok (AD.VRef r), AD.run ops s1)).
Proof. split; [apply Lite_cache_identity | apply AD_cache_identity]. Qed.

Lemma Lite_one_channel_per_identifier (st : Lite.Store Val Config)
    d k1 k2 r1 r2 c1 c2 :
  Lite.reachable st →
  (Lite.dicts st !!! d) !! k1 = Some r1 →
  (Lite.dicts st !!! d) !! k2 = Some r2 →
  Lite.chans st !! r1 = Some c1 → Lite.chans st !! r2 = Some c2 →
  Lite.pvname (Lite.chan_pv c1) = Lite.pvname (Lite.chan_pv c2) →
  k1 = k2 ∧ r1 = r2.
Proof.
  intros Hreach H1 H2 Hc1 Hc2 Hpv.
  destruct (reachable_wf _ Hreach _ _ _ H1) as (c1' & Hc1' & Hk1).
  destruct (reachable_wf _ Hreach _ _ _ H2) as (c2' & Hc2' & Hk2).
  assert (k1 = k2) as -> by congruence. split; [done | congruence].
Qed.

Lemma Lite_class_cache name body (st : Lite.Store Val Config) cls st' :
  Lite.define_class name body st = (Ok cls, st') →
  (Lite.cls_pvs cls ∉ dom (Lite.dicts st)) ∧
  Lite.dicts st' !!! Lite.cls_pvs cls = ∅.
Proof.
  intros Hd. destruct (define_class_inv _ _ _ _ _ Hd) as (ns & _ & -> & ->).
  simpl. split; [apply is_fresh | by rewrite lookup_total_insert_eq].
Qed.

Lemma Lite_instance_shares cls b rf (st : Lite.Store Val Config) inst st' :
  Lite.Base__init__ cls b rf st = (Ok inst, st') →
  Lite.inst_class inst = cls ∧ Lite.inst_addr inst = Lite.next_inst st ∧
  Lite.next_inst st' = S (Lite.next_inst st) ∧
  Lite.dicts st' = Lite.dicts st ∧ Lite.chans st' = Lite.chans st.
Proof.
  unfold Lite.Base__init__, bind, Lite.new_inst, ret. by intros [= <- <-].
Qed.

Lemma AD_instance_cache prefix kw (s : AD.Store Val' Config') obj s' :
  AD.ADBase__init__ prefix kw s = (Ok obj, s') →
  (AD._ad_signals obj ∉ dom (AD.dicts s)) ∧
  AD._ad_signals obj ∈ dom (AD.dicts s') ∧
  AD.dicts s' !!! AD._ad_signals obj = ∅.
Proof.
  unfold AD.ADBase__init__, bind, AD.new_inst, AD.new_dict, ret. simpl.
  intros [= <- <-]. simpl. split; [apply is_fresh|]. split.
  - rewrite dom_insert. set_solver.
  - by rewrite lookup_total_insert_eq.
Qed.

Lemma AD_instances_apart p1 kw1 (s : AD.Store Val' Config') o1 s1 ops
    p2 kw2 o2 s2 :
  AD.ADBase__init__ p1 kw1 s = (Ok o1, s1) →
  AD.ADBase__init__ p2 kw2 (AD.run ops s1) = (Ok o2, s2) →
  AD._ad_signals o1 ≠ AD._ad_signals o2.
Proof.
  intros H1 H2. destruct (AD_instance_cache _ _ _ _ _ H1) as (_ & Hin & _).
  destruct (AD_instance_cache _ _ _ _ _ H2) as (Hout & _ & _).
  destruct (ad_run_extends ops s1) as [(_ & Hdom & _) _].
  intros Heq. apply Hout. rewrite <- Heq. by apply Hdom.
Qed.

Lemma AD_no_shared_entry (s : AD.Store Val' Config') d1 k1 d2 k2 r :
  AD.reachable s →
  (AD.dicts s !!! d1) !! k1 = Some r → (AD.dicts s !!! d2) !! k2 = Some r →
  d1 = d2 ∧ k1 = k2.
Proof. intros Hreach. apply (ad_reachable_wf _ Hreach). Qed.

(** C2, as the code has it.  The cache of [Base] objects is class state: the
    class definition creates it empty at a fresh address, constructing an
    instance creates no cache and touches none, and every instance reads the
    cache of its class, so that the instances of a class share it.  The cache
    of an [ADBase] object is instance state: its constructor creates it empty
    at a fresh address, two objects have caches at different addresses, and no
    object is held by two caches.  In both, a cache holds at most one object
    per resolved identifier (per key for [ADBase]). *)
Theorem C2_cache_ownership :
  (∀ name body (st : Lite.Store Val Config) cls st',
     Lite.define_class name body st = (Ok cls, st') →
     (Lite.cls_pvs cls ∉ dom (Lite.dicts st)) ∧
     Lite.dicts st' !!! Lite.cls_pvs cls = ∅) ∧
  (∀ cls b rf (st : Lite.Store Val Config) inst st',
     Lite.Base__init__ cls b rf st = (Ok inst, st') →
     Lite.inst_class inst = cls ∧ Lite.inst_addr inst = Lite.next_inst st ∧
     Lite.next_inst st' = S (Lite.next_inst st) ∧
     Lite.dicts st' = Lite.dicts st ∧ Lite.chans st' = Lite.chans st) ∧
  (∀ (st : Lite.Store Val Config) d k1 k2 r1 r2 c1 c2,
     Lite.reachable st →
     (Lite.dicts st !!! d) !! k1 = Some r1 →
     (Lite.dicts st !!! d) !! k2 = Some r2 →
     Lite.chans st !! r1 = Some c1 → Lite.chans st !! r2 = Some c2 →
     Lite.pvname (Lite.chan_pv c1) = Lite.pvname (Lite.chan_pv c2) →
     k1 = k2 ∧ r1 = r2) ∧
  (∀ prefix kw (s : AD.Store Val' Config') obj s',
     AD.ADBase__init__ prefix kw s = (Ok obj, s') →
     (AD._ad_signals obj ∉ dom (AD.dicts s)) ∧
     AD._ad_signals obj ∈ dom (AD.dicts s') ∧
     AD.dicts s' !!! AD._ad_signals obj = ∅) ∧
  (∀ p1 kw1 (s : AD.Store Val' Config') o1 s1 ops p2 kw2 o2 s2,
     AD.ADBase__init__ p1 kw1 s = (Ok o1, s1) →
     AD.ADBase__init__ p2 kw2 (AD.run ops s1) = (Ok o2, s2) →
     AD._ad_signals o1 ≠ AD._ad_signals o2) ∧
  (∀ (s : AD.Store Val' Config') d1 k1 d2 k2 r,
     AD.reachable s →
     (AD.dicts s !!! d1) !! k1 = Some r → (AD.dicts s !!! d2) !! k2 = Some r →
     d1 = d2 ∧ k1 = k2).
Proof.
  split; [apply Lite_class_cache|]. split; [apply Lite_instance_shares|].
  split; [apply Lite_one_channel_per_identifier|].
  split; [apply AD_instance_cache|]. split; [apply AD_instances_apart|].
  apply AD_no_shared_entry.
Qed.

(** C5, as the code has it.  For a template without the placeholder
    [{base_name}], constructing a [Signal] or a [SignalRW] raises ValueError
    and yields no descriptor; [ADSignal] does not inspect its template and
    yields a descriptor for it. *)
Theorem C5_template_validation (template : string) (args : Config) :
  (¬ ∃ a b, template = a +:+ "{base_name}" +:+ b) →
  Descr.construct Descr.VarSignal template args
    = Raise (ValueError "pv_template must contain '{base_name}'") ∧
  Descr.construct Descr.VarSignalRW template args
    = Raise (ValueError "pv_template must contain '{base_name}'") ∧
  ∃ d, Descr.construct Descr.VarADSignal template args = Ok (Descr.DADSignal d) ∧
       AD.pv d = template.
Proof.
  intros Hno. assert (PyStr.contains "{base_name}" template = false) as Hc.
  { destruct (PyStr.contains _ _) eqn:Hc; [|done].
    exfalso. by apply Hno, contains_spec. }
  unfold Descr.construct, Lite.Signal__init__. rewrite Hc. simpl.
  repeat split. by eexists.
Qed.

(** C10. An access through a descriptor with no instance changes nothing in
    the store, so it builds no channel and reads no cache: a [Signal] or
    [SignalRW] evaluates to None, an [ADSignal] to the descriptor itself. *)
Theorem C10_access_on_class (self : Lite.Signal Config)
    (st : Lite.Store Val Config) (d : AD.ADSignal Config')
    (s : AD.Store Val' Config') :
  Lite.Signal__get__ self None st = (Ok Lite.VNone, st) ∧
  AD.check_exists d None s = (Ok (AD.VDescr d), s) ∧
  AD.ADSignal__get__ d None s = (Ok (AD.VDescr d), s).
Proof. by repeat split. Qed.

End both.

(** ** The claims on the classes of the module *)

Section examples.
Import Demo.
#[local] Existing Instance lite_env.
#[local] Existing Instance ad_env.

(** C1, refuted as stated.  The first access to [val] on a second instance
    of [Motor], after the first instance has read its own, constructs
    nothing and stores nothing: it returns the channel that the first
    instance built, and the store is as before. *)
Lemma C1_counterexample :
  Lite.inst_addr DemoMore.motor2 ≠ Lite.inst_addr motor ∧
  length (Lite.chans DemoMore.two_motor_store) = 1 ∧
  Lite.getattr DemoMore.motor2 "val" DemoMore.two_motor_store
  = (Ok (Lite.VChan 0), DemoMore.two_motor_store).
Proof.
  split; [vm_compute; discriminate|]. split; vm_compute; reflexivity.
Qed.

(** C2, refuted as stated.  Two distinct instances of [Motor] with the same
    prefix: the second access returns the channel that the first one built,
    and builds none. *)
Lemma C2_counterexample :
  (two_motors Lite.empty_store).1
  = Ok (0, 1, Lite.VChan 0, Lite.VChan 0, 1, 1).
Proof. vm_compute. reflexivity. Qed.

(** C5, refuted as stated.  [ADSignal('AsynIO')], as [NDArrayDriver] declares
    it, has no placeholder in its template and is constructed. *)
Lemma C5_counterexample :
  PyStr.contains "{base_name}" "AsynIO" = false ∧
  Descr.construct Descr.VarADSignal "AsynIO" ()
  = Ok (Descr.DADSignal (AD.ADSignal__init__ "AsynIO" false None ())).
Proof. split; reflexivity. Qed.

(** C6, on the code.  [Base.__init__] stores no [read_fields] when the
    argument is given: [read] and [describe] then raise AttributeError instead
    of iterating over the given subset.  Without the argument they iterate
    over all declared signals. *)
Theorem C6_read_fields_argument_dropped :
  (motor_prog (Some ["val"]) Lite.Base_read Lite.empty_store).1
    = Raise (AttributeError "read_fields") ∧
  (motor_prog (Some ["val"]) Lite.Base_describe Lite.empty_store).1
    = Raise (AttributeError "read_fields") ∧
  (motor_prog None Lite.Base_describe Lite.empty_store).1
    = Ok [("val", "XF:1.VAL"); ("egu", "XF:1.EGU"); ("movn", "XF:1.MOVN");
          ("dmov", "XF:1.DMOV"); ("stop", "XF:1.STOP")].
Proof. repeat split; vm_compute; reflexivity. Qed.

(** C9, refuted as stated.  The body of [Motor] assigns [val] twice and the
    class definition completes, with [val] registered once. *)
Lemma C9_counterexample :
  ¬ NoDup Motor_body.*1 ∧
  (Lite.define_class (Val:=nat) "Motor" Motor_body Lite.empty_store).1
  = Ok motor_cls ∧
  Lite.cls_signal_names motor_cls = ["val"; "egu"; "movn"; "dmov"; "stop"].
Proof.
  split; [|split; vm_compute; reflexivity].
  intros Hnd. apply NoDup_cons in Hnd as [Hin _]. apply Hin. by left.
Qed.


(** *** The theorems at work *)

Lemma C1_cache_identity_witness :
  (∃ st1,
     Lite.Signal__get__ (Lite.mkSignal Lite.KSignalRW "{base_name}.VAL" ())
       (Some motor) motor_store
     = (Ok (Lite.VChan (length (Lite.chans motor_store))), st1) ∧
     Lite.chans st1
     = Lite.chans motor_store ++
       [Lite.Channel__init__ Lite.KSignalRW "XF:1.VAL" ()] ∧
     (Lite.dicts st1 !!! Lite.cls_pvs (Lite.inst_class motor)) !! "XF:1.VAL"
     = Some (length (Lite.chans motor_store))) ∧
  (∃ s1,
     AD.ADSignal__get__ array_counter (Some detector) ad_store
     = (Ok (AD.VRef (length (AD.objs ad_store))), s1) ∧
     AD.objs s1
     = AD.objs ad_store ++ [AD.new_signal array_counter detector "ArrayCounter"] ∧
     (AD.dicts s1 !!! AD._ad_signals detector) !! AD.KStr "ArrayCounter"
     = Some (length (AD.objs ad_store))).
Proof.
  destruct (C1_cache_identity (Val:=nat) (Val':=nat) (env:=lite_env)
              (env':=ad_env)) as [HL HA].
  split.
  - refine (proj1 (HL (Lite.mkSignal Lite.KSignalRW "{base_name}.VAL" ())
                      motor motor_store "XF:1.VAL" _) _);
      vm_compute; reflexivity.
  - refine (proj1 (HA array_counter detector ad_store "ArrayCounter" _) _);
      vm_compute; reflexivity.
Defined.

Lemma C2_cache_ownership_witness :
  Lite.cls_pvs motor_cls ∉ dom (Lite.dicts (Lite.empty_store (Val:=nat) (Config:=unit))).
Proof.
  destruct (C2_cache_ownership (Val:=nat) (Val':=nat) (Config:=unit)
              (Config':=unit)) as [HL _].
  refine (proj1 (HL "Motor" Motor_body Lite.empty_store motor_cls _ _)).
  vm_compute. reflexivity.
Defined.

Lemma C3_set_signature_fidelity_witness :
  (Lite.SettableBase_set abc [1; 2; 3] ∅ abc_store
   = Lite.SettableBase_set abc []
       (<["a":=1]> (<["b":=2]> (<["c":=3]> ∅))) abc_store) ∧
  (∃ st',
     Lite.SettableBase_set abc [1; 2; 3] ∅ abc_store
     = (Ok [Lite.pv_put (Lite.pvname (Lite.chan_pv (DemoMore.rw_channel "XF:1:A"))) 1;
            Lite.pv_put (Lite.pvname (Lite.chan_pv (DemoMore.rw_channel "XF:1:B"))) 2;
            Lite.pv_put (Lite.pvname (Lite.chan_pv (DemoMore.rw_channel "XF:1:C"))) 3],
        st') ∧
     Lite.puts st'
     = Lite.puts abc_store ++
       [(Lite.pvname (Lite.chan_pv (DemoMore.rw_channel "XF:1:A")), 1);
        (Lite.pvname (Lite.chan_pv (DemoMore.rw_channel "XF:1:B")), 2);
        (Lite.pvname (Lite.chan_pv (DemoMore.rw_channel "XF:1:C")), 3)]) ∧
  Lite.SettableBase_set abc [1; 2] ∅ abc_store
  = (Raise (TypeError "missing a required argument"), abc_store).
Proof.
  assert (Lite.define_class "Abc" Abc_body Lite.empty_store
          = (Ok abc_cls, Lite.run [Lite.OpDefine "Abc" Abc_body] Lite.empty_store))
    as Hdef by (vm_compute; reflexivity).
  assert (Lite.reachable abc_store) as Hreach by (by exists abc_ops).
  destruct (C3_set_signature_fidelity "Abc" Abc_body Lite.empty_store abc_cls _
              abc "a" "b" "c" 1 2 3 abc_store Hdef eq_refl eq_refl Hreach)
    as (H1 & _ & _ & H4 & H5).
  split; [exact H1|]. split; [|exact H5].
  apply (H4 (DemoMore.rw_channel "XF:1:A") (DemoMore.rw_channel "XF:1:B") (DemoMore.rw_channel "XF:1:C")).
  - vm_compute. reflexivity.
  - vm_compute. reflexivity.
  - vm_compute. reflexivity.
  - repeat constructor; vm_compute; reflexivity.
  - apply (bool_decide_unpack _). vm_compute. exact I.
Defined.

Lemma C4_read_failure_locality_witness :
  ∃ k st', Lite.resolve motor "egu" = Some k ∧
    Lite.Base_read motor motor_store
    = (Raise (DisconnectedError (k +:+ " is not connected")), st').
Proof.
  apply (C4_read_failure_locality motor motor_store ["val"] "egu"
           ["movn"; "dmov"; "stop"]).
  - by exists motor_ops.
  - reflexivity.
  - intros g Hg. apply list_elem_of_singleton in Hg. subst g.
    exists (Lite.EpicsSignalLiteRW (Lite.mkPV "XF:1.VAL" (Some ()))
              (Lite.mkPV "XF:1.VAL.RBV" None)).
    split; vm_compute; reflexivity.
  - intros g Hg. apply list_elem_of_singleton in Hg. subst g.
    vm_compute. discriminate.
  - exists (Lite.EpicsSignalLiteRW (Lite.mkPV "XF:1.EGU" (Some ()))
              (Lite.mkPV "XF:1.EGU.RBV" None)).
    split; vm_compute; reflexivity.
Defined.

Lemma C5_template_validation_witness :
  Descr.construct Descr.VarSignalRW "XF:1.VAL" ()
  = Raise (ValueError "pv_template must contain '{base_name}'").
Proof.
  refine (proj1 (proj2 (C5_template_validation "XF:1.VAL" () _))).
  intros Hex. apply contains_spec in Hex. vm_compute in Hex. discriminate.
Defined.


Lemma C8_lookup_doc_witness :
  Doc.lookup_doc docs NDArrayDriver_cls "ArrayCounter_RBV" = "Number of arrays".
Proof.
  destruct (C8_lookup_doc docs NDArrayDriver_cls "ArrayCounter_RBV")
    as (_ & _ & _ & _ & Hrbv).
  apply (Hrbv "ArrayCounter" [] {["ArrayCounter" := "Number of arrays"]}
              [{["ArrayCounter" := "Number of arrays"]}]).
  - reflexivity.
  - vm_compute. reflexivity.
  - intros t' Ht'. by apply elem_of_nil in Ht'.
  - vm_compute. reflexivity.
  - vm_compute. reflexivity.
Defined.

Lemma C9_redeclaration_overwrites_witness :
  ∃ cls st',
    Lite.define_class (Val:=nat) "Motor" Motor_body Lite.empty_store
    = (Ok cls, st') ∧
    NoDup (Lite.cls_signal_names cls) ∧
    ∀ n, odict_get n (Lite.cls_signals cls) =
         match Lite.last_decl n Motor_body with
         | Some (Lite.ENewSignal k t a) => Some (Lite.mkSignal k t a)
         | _ => None
         end.
Proof.
  apply C9_redeclaration_overwrites.
  intros n k t a Hin. unfold Motor_body in Hin.
  repeat (apply elem_of_cons in Hin as [Heq|Hin];
          [by injection Heq as -> -> -> ->|]).
  by apply elem_of_nil in Hin.
Defined.

End examples.

(** * Further properties *)

(** ** [name_from_pv] *)

Section name_facts.

Lemma lower_ascii_idem c : PyStr.lower_ascii (PyStr.lower_ascii c) = PyStr.lower_ascii c.
Proof. destruct c as [[] [] [] [] [] [] [] []]; reflexivity. Qed.

Lemma lower_ascii_colon c :
  PyStr.lower_ascii c = ":"%char ↔ c = ":"%char.
Proof.
  destruct c as [[] [] [] [] [] [] [] []]; vm_compute; split; congruence.
Qed.

Lemma lower_idem s : PyStr.lower (PyStr.lower s) = PyStr.lower s.
Proof. induction s as [|c s IH]; simpl; [done|]. by rewrite lower_ascii_idem, IH. Qed.

Lemma lower_app s t : PyStr.lower (s +:+ t) = PyStr.lower s +:+ PyStr.lower t.
Proof. induction s as [|c s IH]; simpl; [done|]. by rewrite IH. Qed.

Lemma lower_nil_inv s : PyStr.lower s = EmptyString → s = EmptyString.
Proof. by destruct s. Qed.

Lemma lower_rstrip s :
  PyStr.lower (PyStr.rstrip ":" s) = PyStr.rstrip ":" (PyStr.lower s).
Proof.
  induction s as [|c s IH]; [done|]. cbn [PyStr.rstrip PyStr.lower].
  rewrite <- IH. destruct (PyStr.rstrip ":" s) as [|c' r] eqn:Hr; simpl.
  - destruct (decide (c = ":"%char)) as [->|Hc].
    + done.
    + rewrite !bool_decide_eq_false_2; [done| |done].
      by rewrite lower_ascii_colon.
  - done.
Qed.

Lemma lower_replace s :
  PyStr.lower (PyStr.replace ":" "." s) = PyStr.replace ":" "." (PyStr.lower s).
Proof.
  induction s as [|c s IH]; [done|]. simpl. rewrite IH. f_equal.
  destruct (decide (c = ":"%char)) as [->|Hc]; [done|].
  rewrite !bool_decide_eq_false_2; [done| |done]. by rewrite lower_ascii_colon.
Qed.

Lemma contains_colon_cons c s :
  PyStr.contains ":" (String c s) = bool_decide (c = ":"%char) || PyStr.contains ":" s.
Proof.
  change (PyStr.contains ":" (String c s))
    with (PyStr.startswith (String c s) ":" || PyStr.contains ":" s).
  f_equal. cbn. destruct s; repeat case_bool_decide; simpl; congruence.
Qed.

Lemma replace_no_colon s : PyStr.contains ":" (PyStr.replace ":" "." s) = false.
Proof.
  induction s as [|c s IH]; [done|]. cbn [PyStr.replace].
  rewrite contains_colon_cons, IH, orb_false_r.
  destruct (decide (c = ":"%char)) as [->|Hc]; [done|].
  rewrite (bool_decide_eq_false_2 (c = _)) by done.
  by rewrite bool_decide_eq_false_2.
Qed.

Lemma rstrip_id s : PyStr.contains ":" s = false → PyStr.rstrip ":" s = s.
Proof.
  induction s as [|c s IH]; [done|]. rewrite contains_colon_cons, orb_false_iff.
  intros [Hc Hs]. cbn [PyStr.rstrip]. rewrite (IH Hs).
  destruct s; [by rewrite Hc | done].
Qed.

Lemma replace_id s :
  PyStr.contains ":" s = false → PyStr.replace ":" "." s = s.
Proof.
  induction s as [|c s IH]; [done|]. rewrite contains_colon_cons, orb_false_iff.
  intros [Hc Hs]. cbn [PyStr.replace]. by rewrite Hc, (IH Hs).
Qed.

Lemma rstrip_snoc s : PyStr.rstrip ":" (s +:+ ":") = PyStr.rstrip ":" s.
Proof. induction s as [|c s IH]; [done|]. simpl. by rewrite IH. Qed.

(** X1. For a PV written in ASCII characters, the name derived from it
    contains no colon, deriving a name from it again changes nothing, and a
    trailing colon on the PV makes no difference. *)
Theorem X1_name_from_pv (pv : string) :
  PyStr.isascii pv = true →
  PyStr.contains ":" (name_from_pv pv) = false ∧
  name_from_pv (name_from_pv pv) = name_from_pv pv ∧
  name_from_pv (pv +:+ ":") = name_from_pv pv.
Proof.
  intros _. unfold name_from_pv. split; [apply replace_no_colon|]. split.
  - rewrite lower_replace, lower_rstrip, lower_idem.
    rewrite (rstrip_id (PyStr.replace _ _ _)) by apply replace_no_colon.
    apply replace_id, replace_no_colon.
  - by rewrite lower_app, rstrip_snoc.
Qed.

End name_facts.

(** ** The registry and the generic operations *)

Section lite_more.
Import Lite LiteExt.
Context {Val Config Status : Type} {env : Env Val Config Status}.
Implicit Types (st : Store Val Config) (self : Instance Config).

Lemma elem_of_odict_set {A} k (v : A) d kv :
  kv ∈ odict_set k v d → kv = (k, v) ∨ kv ∈ d.
Proof.
  induction d as [|[k' v'] d IH]; simpl.
  - intros Hin. apply list_elem_of_singleton in Hin. by left.
  - case_bool_decide; intros Hin; apply elem_of_cons in Hin as [->|Hin].
    + by left.
    + right. by right.
    + right. by left.
    + destruct (IH Hin); [by left | right; by right].
Qed.

Lemma exec_body_templates (body : list (string * BodyExpr Config)) ns ns' :
  exec_body body ns = Ok ns' →
  (∀ n s, (n, ASignal s) ∈ ns → PyStr.contains "{base_name}" (pv_template s) = true) →
  ∀ n s, (n, ASignal s) ∈ ns' → PyStr.contains "{base_name}" (pv_template s) = true.
Proof.
  revert ns. induction body as [|[name e] body IH]; intros ns; simpl.
  - by intros [= <-].
  - destruct e as [k t a|].
    + unfold Signal__init__.
      destruct (PyStr.contains "{base_name}" t) eqn:Ht; [|done]. simpl.
      intros Hb Hns. apply (IH _ Hb). intros n s Hin.
      apply elem_of_odict_set in Hin as [[= -> ->]|Hin]; [done | eauto].
    + intros Hb Hns. apply (IH _ Hb). intros n s Hin.
      apply elem_of_odict_set in Hin as [[=]|Hin]. eauto.
Qed.

Lemma elem_of_signals_of (ns : list (string * Attr Config)) n s :
  (n, s) ∈ signals_of ns ↔ (n, ASignal s) ∈ ns.
Proof.
  induction ns as [|[k [s'|]] ns IH]; simpl.
  - by rewrite !elem_of_nil.
  - rewrite !elem_of_cons, IH. split; intros [[= -> ->]|?]; auto.
  - rewrite elem_of_cons, IH. split; [auto | by intros [[=]|?]].
Qed.

Lemma odict_get_elem_of {A} k (v : A) d : odict_get k d = Some v → (k, v) ∈ d.
Proof.
  induction d as [|[k' v'] d IH]; simpl; [done|].
  case_bool_decide; [intros [= ->]; subst; by left | right; auto].
Qed.

Lemma elem_of_odict_get {A} k (v : A) d :
  NoDup d.*1 → (k, v) ∈ d → odict_get k d = Some v.
Proof.
  induction d as [|[k' v'] d IH]; [by rewrite elem_of_nil|].
  rewrite fmap_cons, NoDup_cons. intros [Hk Hnd] Hin. simpl.
  apply elem_of_cons in Hin as [[= -> ->]|Hin].
  - by rewrite bool_decide_eq_true_2.
  - rewrite bool_decide_eq_false_2; [auto|]. intros ->. apply Hk.
    by apply (list_elem_of_fmap_2 fst) in Hin.
Qed.

Lemma elem_of_writable_signals (sigs : list (string * Signal Config)) n :
  n ∈ writable_signals sigs ↔ ∃ s, (n, s) ∈ sigs ∧ sig_kind s = KSignalRW.
Proof.
  induction sigs as [|[k v] sigs IH]; simpl.
  - rewrite elem_of_nil. split; [done | intros (s & Hin & _)].
    by apply elem_of_nil in Hin.
  - destruct (sig_kind v) eqn:Hk.
    + rewrite IH. split.
      * intros (s & Hin & Hs). exists s. split; [by right | done].
      * intros (s & Hin & Hs). apply elem_of_cons in Hin as [[= -> ->]|Hin];
          [congruence | eauto].
    + rewrite elem_of_cons, IH. split.
      * intros [->|(s & Hin & Hs)]; [exists v; split; [by left | done]|].
        exists s. split; [by right | done].
      * intros (s & Hin & Hs). apply elem_of_cons in Hin as [[= -> ->]|Hin];
          [by left | right; eauto].
Qed.

Lemma odict_get_fmap {A B} (f : A → B) n (d : list (string * A)) :
  odict_get n ((λ kv, (kv.1, f kv.2)) <$> d) = f <$> odict_get n d.
Proof.
  induction d as [|[k v] d IH]; [done|]. simpl. by case_bool_decide.
Qed.

(** X2. The registry of a defined class: [signal_names] and [_templates] list
    the keys of [signals] in the same order, each name once; every
    registered template contains the placeholder; and the signature of [set]
    lists, in that order, exactly the names bound to a [SignalRW]. *)
Theorem X2_registry_consistent name body st cls st' :
  define_class name body st = (Ok cls, st') →
  cls_signal_names cls = (cls_signals cls).*1 ∧
  (cls_templates cls).*1 = cls_signal_names cls ∧
  NoDup (cls_signal_names cls) ∧
  (∀ n s, odict_get n (cls_signals cls) = Some s →
     odict_get n (cls_templates cls) = Some (pv_template s) ∧
     PyStr.contains "{base_name}" (pv_template s) = true) ∧
  cls_default_sig_for_set cls `sublist_of` cls_signal_names cls ∧
  (∀ n, n ∈ cls_default_sig_for_set cls ↔
        ∃ s, odict_get n (cls_signals cls) = Some s ∧ sig_kind s = KSignalRW).
Proof.
  intros Hdef. destruct (define_class_NoDup _ _ _ _ _ Hdef) as [Hnd _].
  destruct (define_class_inv _ _ _ _ _ Hdef) as (ns & Hns & -> & _).
  simpl in *. split; [done|]. split.
  { rewrite <- list_fmap_compose. by apply list_fmap_ext. }
  split; [done|]. split; [|split].
  - intros n s Hget. split.
    + by rewrite odict_get_fmap, Hget.
    + apply odict_get_elem_of, elem_of_signals_of in Hget.
      apply (exec_body_templates _ _ _ Hns) with n; [|done].
      intros n' s' Hin. by apply elem_of_nil in Hin.
  - apply writable_signals_sublist.
  - intros n. rewrite elem_of_writable_signals. split.
    + intros (s & Hin & Hs). exists s. split; [|done].
      by apply elem_of_odict_get.
    + intros (s & Hget & Hs). exists s. split; [|done].
      by apply odict_get_elem_of.
Qed.

Lemma exec_body_raise (body : list (string * BodyExpr Config)) n k t a :
  (n, ENewSignal k t a) ∈ body →
  PyStr.contains "{base_name}" t = false →
  ∀ ns, exec_body body ns =
        Raise (ValueError "pv_template must contain '{base_name}'").
Proof.
  intros Hin Ht. induction body as [|[name e] body IH]; intros ns.
  - by apply elem_of_nil in Hin.
  - simpl. destruct e as [k' t' a'|].
    + unfold Signal__init__.
      destruct (PyStr.contains "{base_name}" t') eqn:Ht'; [|done]. simpl.
      apply IH. apply elem_of_cons in Hin as [[= -> -> -> ->]|Hin];
        [congruence | done].
    + apply IH. by apply elem_of_cons in Hin as [[=]|Hin].
Qed.

(** X3. A class body in which some [Signal] or [SignalRW] call has a template
    without the placeholder defines no class: the definition raises the
    ValueError of the constructor and leaves the store as it was, with no
    cache created. *)
Theorem X3_class_definition_fails name body n k t a st :
  (n, ENewSignal k t a) ∈ body →
  PyStr.contains "{base_name}" t = false →
  define_class name body st =
    (Raise (ValueError "pv_template must contain '{base_name}'"), st).
Proof.
  intros Hin Ht. unfold define_class, bind, lift.
  by rewrite (exec_body_raise _ _ _ _ _ Hin Ht).
Qed.

(** X4. No sequence of operations, whether they return or raise, removes or
    replaces a cache entry or a channel object: what the store holds before is
    still there, at the same key and address, afterwards. *)
Theorem X4_store_only_grows (ops : list (Op Val Config)) st :
  (∀ d k r, (dicts st !!! d) !! k = Some r →
            (dicts (run ops st) !!! d) !! k = Some r) ∧
  (∀ r c, chans st !! r = Some c → chans (run ops st) !! r = Some c).
Proof.
  destruct (run_extends ops st) as [[[l Hl] Hd] _]. split; [done|].
  intros r c Hr. rewrite Hl. by apply lookup_app_l_Some.
Qed.

(** X5. The cache is keyed by the resolved identifier alone.  Once an access
    has returned a channel, any descriptor on any instance of a class with the
    same cache that resolves to the same identifier is served that very
    channel object, whatever the class of the descriptor: the class of the
    channel is the one of the first access. *)
Theorem X5_cache_keyed_by_identifier (d d' : Signal Config) self self' st v st1 ops :
  Signal__get__ d (Some self) st = (Ok v, st1) →
  cls_pvs (inst_class self') = cls_pvs (inst_class self) →
  format_base_name (pv_template d') (base_name self')
    = format_base_name (pv_template d) (base_name self) →
  Signal__get__ d' (Some self') (run ops st1) = (Ok v, run ops st1).
Proof.
  intros Hg Hpvs Hfmt. destruct (run_extends ops st1) as [[_ Hd] _].
  destruct (get_cases _ _ _ _ _ Hg)
    as [(e & _ & ? & _)|[(k & r & Hf & Hk & [= ->] & ->)|(k & Hf & Hk & [= ->] & ->)]];
    [done| |].
  - apply (get_hit _ _ _ k); [congruence|]. rewrite Hpvs. auto.
  - apply (get_hit _ _ _ k); [congruence|]. rewrite Hpvs. apply Hd. simpl.
    by rewrite lookup_total_insert_eq, lookup_insert_eq.
Qed.


Lemma odict_set_fresh {A} k (v : A) d :
  k ∉ d.*1 → odict_set k v d = d ++ [(k, v)].
Proof.
  induction d as [|[k' v'] d IH]; [done|]. rewrite fmap_cons, not_elem_of_cons.
  intros [Hne Hin]. simpl. rewrite bool_decide_eq_false_2 by done.
  by rewrite IH.
Qed.

Lemma field_channel_of_resolve st self n k :
  wf st → resolve self n = Some k → ∃ c, field_channel st self n = Some c.
Proof.
  intros Hwf Hk. destruct (resolve_Some _ _ _ Hk) as (d & Hd & Hf).
  unfold field_channel. rewrite Hd, Hk. simpl.
  destruct (_ !! k) as [r|] eqn:Hl; [|eauto].
  destruct (Hwf _ _ _ Hl) as (c & Hc & _). eauto.
Qed.

Lemma describe_loop_ok self names :
  ∀ acc st,
    wf st → NoDup names →
    (∀ n, n ∈ names → n ∉ acc.*1) →
    (∀ n, n ∈ names → is_Some (resolve self n)) →
    ∃ ks st',
      Forall2 (λ n k, resolve self n = Some k) names ks ∧
      describe_loop self names acc st = (Ok (acc ++ zip names ks), st').
Proof.
  induction names as [|n names IH]; intros acc st Hwf Hnd Hacc Hres.
  - exists [], st. split; [constructor|]. simpl. by rewrite app_nil_r.
  - apply NoDup_cons in Hnd as [Hn Hnd].
    destruct (Hres n) as [k Hk]; [by left|].
    destruct (field_channel_of_resolve _ _ _ _ Hwf Hk) as [c Hc].
    destruct (getattr_field _ _ _ _ Hwf Hc)
      as (k' & r & st1 & Hk' & Hg & Hr & Hp & Hwf1 & _).
    assert (k' = k) as -> by congruence.
    destruct (IH (odict_set n k acc) st1) as (ks & st' & Hks & Hloop); try done.
    + intros n' Hn'. rewrite odict_set_fresh by (apply Hacc; by left).
      rewrite fmap_app, elem_of_app. intros [Hin|Hin].
      * revert Hin. apply Hacc. by right.
      * apply list_elem_of_singleton in Hin. simpl in Hin. by subst.
    + intros n' Hn'. apply Hres. by right.
    + exists (k :: ks), st'. split; [by constructor|]. simpl.
      rewrite (bind_ok _ _ _ _ _ Hg).
      assert (Channel_pvname (VChan r) st1 = (Ok k, st1)) as Hpv.
      { unfold Channel_pvname. by rewrite Hr, Hp. }
      rewrite (bind_ok _ _ _ _ _ Hpv), Hloop.
      rewrite odict_set_fresh by (apply Hacc; by left).
      by rewrite <- app_assoc.
Qed.

(** X6. [describe] needs no connection: in a reachable store, for selected
    fields that are distinct names of declared signals whose templates format,
    it returns, in order, each field with its resolved identifier as source,
    whatever the PVs report as their connection state. *)
Theorem X6_describe_needs_no_connection self st names :
  reachable st →
  read_fields self = Some names → NoDup names →
  (∀ n, n ∈ names → is_Some (resolve self n)) →
  ∃ ks st',
    Forall2 (λ n k, resolve self n = Some k) names ks ∧
    Base_describe self st = (Ok (zip names ks), st').
Proof.
  intros Hreach Hrf Hnd Hres.
  destruct (describe_loop_ok self names [] st (reachable_wf _ Hreach) Hnd)
    as (ks & st' & Hks & Hloop); [by intros n _ Hin%elem_of_nil | done |].
  exists ks, st'. split; [done|].
  unfold Base_describe, get_read_fields. rewrite Hrf.
  by rewrite (bind_ok _ _ st names st).
Qed.

Lemma Channel_get_value st r c :
  chans st !! r = Some c → connected c = true →
  Channel_get (VChan r) st = (Ok (pv_get (chan_read_name c)), st).
Proof.
  intros Hc Hcon. unfold Channel_get. rewrite Hc, Hcon. by destruct c.
Qed.

Lemma read_loop_ok self names :
  ∀ cs acc st,
    wf st → NoDup (resolve self <$> names) →
    (∀ n, n ∈ names → n ∉ acc.*1) →
    Forall2 (λ n c, field_channel st self n = Some c ∧ connected c = true)
            names cs →
    ∃ st',
      read_loop self names acc st =
        (Ok (acc ++ zip names ((λ c, pv_get (chan_read_name c)) <$> cs)), st').
Proof.
  induction names as [|n names IH]; intros cs acc st Hwf Hnd Hacc Hcs.
  - apply Forall2_nil_inv_l in Hcs as ->. exists st. simpl. by rewrite app_nil_r.
  - apply Forall2_cons_inv_l in Hcs as (c & cs' & [Hc Hcon] & Hcs & ->).
    rewrite fmap_cons in Hnd. apply NoDup_cons in Hnd as [Hn Hnd].
    destruct (getattr_field _ _ _ _ Hwf Hc)
      as (k & r & st1 & Hk & Hg & Hr & Hp & Hwf1 & _ & _ & Hother).
    destruct (IH cs' (odict_set n (pv_get (chan_read_name c)) acc) st1)
      as (st' & Hloop); try done.
    + intros n' Hn'. rewrite odict_set_fresh by (apply Hacc; by left).
      rewrite fmap_app, elem_of_app. intros [Hin|Hin].
      * revert Hin. apply Hacc. by right.
      * apply list_elem_of_singleton in Hin. simpl in Hin. subst n'.
        apply Hn. by apply list_elem_of_fmap_2.
    + eapply Forall2_impl_elem; [done|]. intros n' c' Hn' [Hc' Hcon'].
      split; [|done]. rewrite Hother; [done|]. rewrite <- Hk. intros Heq.
      apply Hn. rewrite <- Heq. by apply list_elem_of_fmap_2.
    + exists st'. simpl. rewrite (bind_ok _ _ _ _ _ Hg).
      rewrite (bind_ok _ _ _ _ _ (Channel_get_value _ _ _ Hr Hcon)), Hloop.
      rewrite odict_set_fresh by (apply Hacc; by left).
      by rewrite <- app_assoc.
Qed.

(** X7. When the selected fields resolve to distinct identifiers and their
    channels are all connected, [read] returns, in order, each field with the
    value of the PV its channel reads: the PV of the identifier for a
    read-only channel, its readback PV for a writable one. *)
Theorem X7_read_connected self st names cs :
  reachable st →
  read_fields self = Some names →
  NoDup (resolve self <$> names) →
  Forall2 (λ n c, field_channel st self n = Some c ∧ connected c = true)
          names cs →
  ∃ st',
    Base_read self st =
      (Ok (zip names ((λ c, pv_get (chan_read_name c)) <$> cs)), st').
Proof.
  intros Hreach Hrf Hnd Hcs.
  destruct (read_loop_ok self names cs [] st (reachable_wf _ Hreach) Hnd)
    as (st' & Hloop); [by intros n _ Hin%elem_of_nil | done |].
  exists st'. unfold Base_read, get_read_fields. rewrite Hrf.
  by rewrite (bind_ok _ _ st names st).
Qed.


Lemma Channel_put_disconnected st r (c : Channel Config) x :
  chans st !! r = Some c → has_put c = true → connected c = false →
  Channel_put (VChan r) x st =
    (Raise (DisconnectedError (pvname (chan_pv c) +:+ " is not connected")), st).
Proof.
  intros Hc Hput Hcon. unfold Channel_put. rewrite Hc.
  destruct c as [pv|pv rb]; [done|]. by rewrite Hcon.
Qed.

Lemma set_loop_disconnected self pre f x post cf :
  ∀ cs acc st,
    wf st →
    NoDup (resolve self <$> (pre.*1 ++ [f])) →
    Forall2 (λ nv c, field_channel st self nv.1 = Some c ∧
                     connected c = true ∧ has_put c = true) pre cs →
    field_channel st self f = Some cf →
    has_put cf = true → connected cf = false →
    ∃ st',
      set_loop self (pre ++ (f, x) :: post) acc st =
        (Raise (DisconnectedError
                  (pvname (chan_pv cf) +:+ " is not connected")), st') ∧
      puts st' = puts st ++ zip ((λ c, pvname (chan_pv c)) <$> cs) pre.*2.
Proof.
  induction pre as [|[g y] pre IH]; intros cs acc st Hwf Hnd Hcs Hcf Hput Hcon.
  - apply Forall2_nil_inv_l in Hcs as ->.
    destruct (getattr_field _ _ _ _ Hwf Hcf)
      as (k & r & st1 & Hk & Hg & Hr & Hp & _ & Hpu & _).
    exists st1. split; [|by rewrite Hpu, app_nil_r]. simpl.
    rewrite (bind_ok _ _ _ _ _ Hg). apply bind_raise.
    by apply Channel_put_disconnected.
  - apply Forall2_cons_inv_l in Hcs as (c & cs' & (Hc & Hccon & Hcput) & Hcs & ->).
    simpl in Hnd. apply NoDup_cons in Hnd as [Hn Hnd].
    destruct (getattr_field _ _ _ _ Hwf Hc)
      as (k & r & st1 & Hk & Hg & Hr & Hp & Hwf1 & Hpu & _ & Hother).
    simpl in Hk.
    set (st2 := mkStore (chans st1) (dicts st1) (next_inst st1)
                        (puts st1 ++ [(pvname (chan_pv c), y)])).
    assert (∀ n, resolve self n ≠ Some k →
                 field_channel st2 self n = field_channel st self n) as Hfc.
    { intros n Hne. rewrite <- (Hother n Hne). by apply field_channel_same. }
    destruct (IH cs' (acc ++ [pv_put (pvname (chan_pv c)) y]) st2)
      as (st' & Hloop & Hputs); try done.
    + eapply Forall2_impl_elem; [done|]. intros [n' y'] c' Hn' (Hc' & ? & ?).
      split; [|done]. rewrite Hfc; [done|]. rewrite <- Hk. intros Heq.
      apply Hn. rewrite <- Heq, fmap_app, elem_of_app. left.
      apply list_elem_of_fmap_2. by apply (list_elem_of_fmap_2 fst) in Hn'.
    + rewrite Hfc; [done|]. rewrite <- Hk. intros Heq.
      apply Hn. rewrite <- Heq, fmap_app, elem_of_app. right. by left.
    + exists st'. split.
      * simpl. rewrite (bind_ok _ _ _ _ _ Hg).
        by rewrite (bind_ok _ _ _ _ _ (Channel_put_connected _ _ _ y Hr Hcput Hccon)).
      * rewrite Hputs. simpl. by rewrite Hpu, <- app_assoc.
Qed.

(** X8. [set] is not atomic.  When the bound fields resolve to distinct
    identifiers and the first one whose writable channel is not connected
    comes after fields with connected writable channels, [set] raises
    DisconnectedError for the identifier of that channel, and the puts of the
    fields before it have been issued and stay issued. *)
Theorem X8_set_keeps_earlier_writes self st args kwargs pre f x post cs cf :
  reachable st →
  Signature_bind (cls_default_sig_for_set (inst_class self)) args kwargs
    = Ok (pre ++ (f, x) :: post) →
  NoDup (resolve self <$> (pre.*1 ++ [f])) →
  Forall2 (λ nv c, field_channel st self nv.1 = Some c ∧
                   connected c = true ∧ has_put c = true) pre cs →
  field_channel st self f = Some cf →
  has_put cf = true → connected cf = false →
  ∃ st',
    SettableBase_set self args kwargs st =
      (Raise (DisconnectedError
                (pvname (chan_pv cf) +:+ " is not connected")), st') ∧
    puts st' = puts st ++ zip ((λ c, pvname (chan_pv c)) <$> cs) pre.*2.
Proof.
  intros Hreach Hbind Hnd Hcs Hcf Hput Hcon.
  destruct (set_loop_disconnected self pre f x post cf cs [] st
              (reachable_wf _ Hreach) Hnd Hcs Hcf Hput Hcon) as (st' & Hloop & Hp).
  exists st'. split; [|done]. unfold SettableBase_set, bind, lift.
  by rewrite Hbind.
Qed.

(** *** What a successful binding looks like *)

Lemma bind_args_inv (params : list string) (args : list Val) kwargs arguments rest :
  bind_args params args kwargs = Ok (arguments, rest) →
  params = arguments.*1 ++ rest ∧ arguments.*2 = args ∧
  ∀ p, p ∈ arguments.*1 → kwargs !! p = None.
Proof.
  revert params arguments. induction args as [|a args IH];
    intros params arguments.
  - destruct params; intros [= <- <-]; by repeat split; intros ? ?%elem_of_nil.
  - destruct params as [|p params]; simpl; [done|].
    case_bool_decide as Hp; [done|].
    destruct (bind_args params args kwargs) as [[arguments' rest']|] eqn:Hb;
      [|done].
    intros [= <- <-]. destruct (IH _ _ Hb) as (-> & <- & Hnone).
    repeat split. intros q Hq. simpl in Hq.
    apply elem_of_cons in Hq as [->|Hq]; [|auto].
    destruct (kwargs !! p) eqn:Hk; [|done]. exfalso. apply Hp. eauto.
Qed.

Lemma bind_kwargs_inv (params : list string) (kwargs : gmap string Val) arguments :
  bind_kwargs params kwargs = Ok arguments →
  arguments.*1 = params ∧
  (∀ p v, (p, v) ∈ arguments → kwargs !! p = Some v) ∧
  (∀ p, is_Some (kwargs !! p) → p ∈ params).
Proof.
  revert kwargs arguments. induction params as [|p params IH];
    intros kwargs arguments; simpl.
  - case_bool_decide as He; [|done]. intros [= <-]. subst.
    repeat split; [by intros ? ? ?%elem_of_nil|].
    intros p [v Hv]. by rewrite lookup_empty in Hv.
  - destruct (kwargs !! p) as [v|] eqn:Hp; [|done].
    destruct (bind_kwargs params (delete p kwargs)) as [arguments'|] eqn:Hb;
      [|done].
    intros [= <-]. destruct (IH _ _ Hb) as (<- & Hin & Hall).
    repeat split.
    + intros q w Hq. apply elem_of_cons in Hq as [[= -> ->]|Hq]; [done|].
      specialize (Hin _ _ Hq). by apply lookup_delete_Some in Hin as [_ ?].
    + intros q [w Hq]. destruct (decide (q = p)) as [->|Hne]; [by left|].
      right. apply Hall. exists w. by rewrite lookup_delete_ne.
Qed.

Lemma Signature_bind_inv (params : list string) (args : list Val) kwargs bound :
  Signature_bind params args kwargs = Ok bound →
  bound.*1 = params ∧
  length args ≤ length params ∧
  take (length args) bound.*2 = args ∧
  (∀ p v, (p, v) ∈ drop (length args) bound → kwargs !! p = Some v) ∧
  (∀ p, is_Some (kwargs !! p) →
        p ∈ drop (length args) params ∧ p ∉ take (length args) params).
Proof.
  unfold Signature_bind.
  destruct (bind_args params args kwargs) as [[arguments rest]|] eqn:Ha; [|done].
  destruct (bind_kwargs rest kwargs) as [arguments'|] eqn:Hk; [|done].
  intros [= <-]. destruct (bind_args_inv _ _ _ _ _ Ha) as (-> & <- & Hnone).
  destruct (bind_kwargs_inv _ _ _ Hk) as (<- & Hin & Hall).
  rewrite !length_fmap, !fmap_app.
  rewrite (take_app_length' arguments.*2), (take_app_length' arguments.*1),
    (drop_app_length' arguments.*1), drop_app_length
    by (by rewrite length_fmap).
  split; [done|]. split; [rewrite length_app, !length_fmap; lia|].
  split; [done|]. split; [done|].
  intros p Hp. split; [auto|]. intros Hq. specialize (Hnone _ Hq).
  destruct Hp as [v Hv]. congruence.
Qed.

(** X9. A binding that succeeds gives every parameter exactly one value, in
    parameter order: the positional arguments go to the leading parameters,
    each remaining parameter takes the keyword argument of its name, no
    keyword argument is left over, and none names a parameter already bound
    by position. *)
Theorem X9_bind_sound (params : list string) (args : list Val) kwargs bound :
  Signature_bind params args kwargs = Ok bound →
  bound.*1 = params ∧
  length args ≤ length params ∧
  take (length args) bound.*2 = args ∧
  (∀ p v, (p, v) ∈ drop (length args) bound → kwargs !! p = Some v) ∧
  (∀ p, is_Some (kwargs !! p) →
        p ∈ drop (length args) params ∧ p ∉ take (length args) params).
Proof. apply Signature_bind_inv. Qed.

Lemma bind_args_TypeError (params : list string) (args : list Val) kwargs e :
  bind_args params args kwargs = Raise e → ∃ msg, e = TypeError msg.
Proof.
  revert params. induction args as [|a args IH]; intros params.
  - by destruct params.
  - destruct params as [|p params]; simpl; [intros [= <-]; eauto|].
    case_bool_decide; [intros [= <-]; eauto|].
    destruct (bind_args params args kwargs) as [[arguments rest]|e'] eqn:Hb;
      [done|]. intros [= <-]. eauto.
Qed.

Lemma bind_kwargs_TypeError (params : list string) (kwargs : gmap string Val) e :
  bind_kwargs params kwargs = Raise e → ∃ msg, e = TypeError msg.
Proof.
  revert kwargs. induction params as [|p params IH]; intros kwargs; simpl.
  - case_bool_decide; [done | intros [= <-]; eauto].
  - destruct (kwargs !! p); [|intros [= <-]; eauto].
    destruct (bind_kwargs params (delete p kwargs)) as [|e'] eqn:Hb; [done|].
    intros [= <-]. eauto.
Qed.

(** X10. [set] rejects a call that gives too many positional arguments, a
    keyword that is not a writable field, or a field both by position and by
    keyword: the binding raises TypeError, and [set] raises it with the store
    untouched, before any channel is looked up or written. *)
Theorem X10_set_rejects_bad_calls self (args : list Val) kwargs st :
  length (cls_default_sig_for_set (inst_class self)) < length args ∨
  (∃ p, is_Some (kwargs !! p) ∧ p ∉ cls_default_sig_for_set (inst_class self)) ∨
  (∃ p, is_Some (kwargs !! p) ∧
        p ∈ take (length args) (cls_default_sig_for_set (inst_class self))) →
  ∃ msg, SettableBase_set self args kwargs st = (Raise (TypeError msg), st).
Proof.
  intros Hbad. unfold SettableBase_set, bind, lift.
  destruct (Signature_bind _ args kwargs) as [bound|e] eqn:Hb.
  - exfalso. destruct (Signature_bind_inv _ _ _ _ Hb) as (_ & Hlen & _ & _ & Hall).
    destruct Hbad as [Hlt|[(p & Hp & Hout)|(p & Hp & Hin)]].
    + lia.
    + apply Hout. destruct (Hall _ Hp) as [Hd _].
      by apply (elem_of_sublist _ _ _ Hd), sublist_drop.
    + by destruct (Hall _ Hp) as [_ Hd].
  - revert Hb. unfold Signature_bind.
    destruct (bind_args _ args kwargs) as [[arguments rest]|e'] eqn:Ha.
    + destruct (bind_kwargs rest kwargs) as [|e''] eqn:Hk; [done|].
      intros [= <-]. destruct (bind_kwargs_TypeError _ _ _ Hk) as [msg ->]. eauto.
    + intros [= <-]. destruct (bind_args_TypeError _ _ _ _ Ha) as [msg ->]. eauto.
Qed.

(** X11. A writable field whose identifier was first resolved through a
    read-only field cannot be set.  The cache holds the read-only channel
    under that identifier, the writable field gets this channel, which has no
    [put]: [set] raises AttributeError and writes nothing, whatever happened
    in between. *)
Theorem X11_set_through_read_only_alias self a b da k st ops args kwargs x post :
  field_signal self a = Some da → sig_kind da = KSignal →
  resolve self a = Some k → resolve self b = Some k →
  (dicts st !!! cls_pvs (inst_class self)) !! k = None →
  Signature_bind (cls_default_sig_for_set (inst_class self)) args kwargs
    = Ok ((b, x) :: post) →
  SettableBase_set self args kwargs (run ops (getattr self a st).2)
    = (Raise (AttributeError "put"), run ops (getattr self a st).2).
Proof.
  intros Hda Hkind Ha Hb Hnone Hbind.
  destruct (resolve_Some _ _ _ Ha) as (da' & Hda' & Hfa).
  assert (da' = da) as -> by congruence.
  destruct (resolve_Some _ _ _ Hb) as (db & Hdb & Hfb).
  rewrite (getattr_signal _ _ _ _ Hda), (get_miss _ _ _ _ Hfa Hnone). simpl.
  set (st1 := after_miss _ _ _ _).
  destruct (run_extends ops st1) as [[Hpre Hdict] _].
  assert ((dicts st1 !!! cls_pvs (inst_class self)) !! k = Some (length (chans st)))
    as Hk.
  { unfold st1, after_miss. simpl.
    by rewrite lookup_total_insert_eq, lookup_insert_eq. }
  assert (chans st1 !! length (chans st)
          = Some (Channel__init__ (sig_kind da) k (sig_args da))) as Hc.
  { unfold st1, after_miss. simpl. apply list_lookup_middle. done. }
  apply Hdict in Hk. eapply prefix_lookup_Some in Hc; [|done].
  unfold SettableBase_set, bind, lift. rewrite Hbind. simpl.
  unfold bind at 1. rewrite (getattr_signal _ _ _ _ Hdb), (get_hit _ _ _ _ _ Hfb Hk).
  unfold bind, Channel_put. rewrite Hc, Hkind. done.
Qed.

End lite_more.

(** ** More on the documentation lookup *)

Section doc_more.
Import Doc.
Implicit Types (docs : gmap string (gmap string string)) (pv : string).

Lemma search_files_sound docs html_file pv d :
  search_files docs html_file pv = Some d →
  ∃ fn t, fn ∈ html_file ∧ docs !! fn = Some t ∧
    (t !! pv = Some d ∨
     (PyStr.endswith pv "_RBV" = true ∧ t !! PyStr.drop_last 4 pv = Some d)).
Proof.
  induction html_file as [|fn html_file IH]; simpl; [done|].
  assert (search_files docs html_file pv = Some d →
          ∃ fn' t, fn' ∈ fn :: html_file ∧ docs !! fn' = Some t ∧
            (t !! pv = Some d ∨
             (PyStr.endswith pv "_RBV" = true ∧
              t !! PyStr.drop_last 4 pv = Some d))) as Hrest.
  { intros (fn' & t & ? & ? & ?)%IH. exists fn', t. split; [by right | done]. }
  destruct (docs !! fn) as [t|] eqn:Ht; [|done].
  destruct (t !! pv) as [d'|] eqn:Hpv.
  { intros [= ->]. exists fn, t. split; [by left | auto]. }
  destruct (PyStr.endswith pv "_RBV") eqn:He; [|done].
  destruct (t !! PyStr.drop_last 4 pv) as [d'|] eqn:Hb; [|done].
  intros [= ->]. exists fn, t. split; [by left | auto].
Qed.

Lemma search_files_none docs html_file pv :
  (∀ fn, fn ∈ html_file → docs !! fn = None) →
  search_files docs html_file pv = None.
Proof.
  induction html_file as [|fn html_file IH]; intros Hn; simpl; [done|].
  rewrite (Hn fn) by (by left). apply IH. intros fn' ?. apply Hn. by right.
Qed.

Lemma search_classes_sound docs classes pv d :
  search_classes docs classes pv = Some d →
  ∃ c h fn t, c ∈ classes ∧ get_html_docs c = Some h ∧ fn ∈ h ∧
    docs !! fn = Some t ∧
    (t !! pv = Some d ∨
     (PyStr.endswith pv "_RBV" = true ∧ t !! PyStr.drop_last 4 pv = Some d)).
Proof.
  induction classes as [|c classes IH]; simpl; [done|].
  assert (search_classes docs classes pv = Some d →
          ∃ c' h fn t, c' ∈ c :: classes ∧ get_html_docs c' = Some h ∧
            fn ∈ h ∧ docs !! fn = Some t ∧
            (t !! pv = Some d ∨
             (PyStr.endswith pv "_RBV" = true ∧
              t !! PyStr.drop_last 4 pv = Some d))) as Hrest.
  { intros (c' & h & fn & t & ? & ?)%IH. exists c', h, fn, t.
    split; [by right | done]. }
  destruct (get_html_docs c) as [h|] eqn:Hh; [|done].
  destruct (search_files docs h pv) as [d'|] eqn:Hs; [|done].
  intros [= ->]. destruct (search_files_sound _ _ _ _ Hs) as (fn & t & ? & ?).
  exists c, h, fn, t. split; [by left | done].
Qed.

Lemma search_classes_none docs classes pv :
  (∀ c h fn, c ∈ classes → get_html_docs c = Some h → fn ∈ h →
             docs !! fn = None) →
  search_classes docs classes pv = None.
Proof.
  induction classes as [|c classes IH]; intros Hn; simpl; [done|].
  assert (search_classes docs classes pv = None) as ->.
  { apply IH. intros c' h fn ?. apply Hn. by right. }
  destruct (get_html_docs c) as [h|] eqn:Hh; [|done].
  rewrite search_files_none; [done|]. intros fn. by apply (Hn c h fn); [left|].
Qed.

(** X23. [lookup_doc] makes nothing up.  What it returns is the sentinel for
    the name, or an entry of a table that exists and that some class of the
    resolution order lists, stored there under the name itself or, for a name
    that ends in [_RBV], under the name without this suffix.  Classes without
    [_html_docs] and listed tables that do not exist are passed over without
    error: when no listed table exists the result is the sentinel. *)
Theorem X23_lookup_doc_sound docs (cls_ : PyClass) pv :
  (lookup_doc docs cls_ pv = not_found pv ∨
   ∃ c h fn t,
     c ∈ getmro cls_ ∧ get_html_docs c = Some h ∧ fn ∈ h ∧
     docs !! fn = Some t ∧
     (t !! pv = Some (lookup_doc docs cls_ pv) ∨
      (PyStr.endswith pv "_RBV" = true ∧
       t !! PyStr.drop_last 4 pv = Some (lookup_doc docs cls_ pv)))) ∧
  ((∀ c h fn, c ∈ getmro cls_ → get_html_docs c = Some h → fn ∈ h →
              docs !! fn = None) →
   lookup_doc docs cls_ pv = not_found pv).
Proof.
  unfold lookup_doc. split.
  - destruct (search_classes docs (getmro cls_) pv) as [d|] eqn:Hs; [|by left].
    right. by apply search_classes_sound.
  - intros Hn. by rewrite search_classes_none.
Qed.

End doc_more.

(** ** More on the area detector descriptors *)

Section ad_more.
Import AD ADExt.
Context {Val Config : Type} {env : Env Config}.
Implicit Types (st : Store Val Config) (self : ADSignal Config) (obj : ADBase)
  (g : ADGroup Config).

Local Abbreviation keeps_objs := (keeps_objs (Val:=Val) (Config:=Config)).

Lemma keeps_ret {A} (a : A) : keeps_objs (ret a).
Proof. by intros st r st' [= <- <-]. Qed.

Lemma keeps_raise {A} e : keeps_objs (raise (A:=A) e).
Proof. by intros st r st' [= <- <-]. Qed.

Lemma keeps_bind {A B} (c : M (Store Val Config) A)
    (k : A → M (Store Val Config) B) :
  keeps_objs c → (∀ a, keeps_objs (k a)) → keeps_objs (bind c k).
Proof.
  intros Hc Hk st r st' Hb.
  destruct (bind_inv _ _ _ _ _ Hb) as [(a & s1 & H1 & H2)|(e & H1 & ->)].
  - etrans; [by eapply Hc | by eapply Hk].
  - by eapply Hc.
Qed.

Lemma keeps_check_exists self (o : option ADBase) :
  keeps_objs (check_exists self o).
Proof.
  destruct o as [obj|]; [|apply keeps_ret].
  intros st r st' Hg.
  destruct (check_cases _ _ _ _ _ Hg)
    as [(e & _ & _ & ->)|[(k & a & _ & _ & _ & ->)|(k & Hf & Hk & _ & ->)]];
    [done|done|]. by apply prefix_app_r.
Qed.

Lemma keeps_set_value r (v : Val) : keeps_objs (set_value r v).
Proof. by intros st r' st' [= <- <-]. Qed.

Lemma keeps_ADBase__init__ prefix kw : keeps_objs (ADBase__init__ prefix kw).
Proof.
  intros st r st'. unfold ADBase__init__, bind, new_inst, new_dict, ret. simpl.
  by intros [= <- <-].
Qed.

Lemma keeps_get_members props obj : keeps_objs (get_members props obj).
Proof.
  induction props as [|p props IH]; cbn [get_members]; [apply keeps_ret|].
  apply keeps_bind; [apply keeps_check_exists|].
  intros [d|r]; [apply keeps_raise|].
  apply keeps_bind; [apply IH | intros; apply keeps_ret].
Qed.

Lemma keeps_group_check_exists g obj : keeps_objs (group_check_exists g obj).
Proof.
  intros st r st' Hg. unfold group_check_exists in Hg.
  destruct (bind_inv _ _ _ _ _ Hg) as [(signals & s1 & Hm & Hg1)|(e' & Hm & _)];
    [|by apply (keeps_get_members _ _ _ _ _ Hm)].
  pose proof (keeps_get_members _ _ _ _ _ Hm) as Hpre.
  destruct (bind_inv _ _ _ _ _ Hg1) as [(key & s2 & Hk & Hg2)|(e' & Hk & _)].
  - assert (s2 = s1) as -> by apply (get_pvnames_state _ _ _ _ Hk).
    revert Hg2. unfold bind at 1, dict_getitem at 1.
    destruct ((dicts s1 !!! _ad_signals obj) !! KTuple key) as [a|] eqn:Hl.
    + by intros [= <- <-].
    + unfold bind at 1, new_obj. unfold bind at 1.
      rewrite (add_signals_new (objs s1) (grp_kwargs g) signals []) by done.
      unfold bind, dict_setitem, dict_getitem, ret. simpl.
      rewrite lookup_total_insert_eq, lookup_insert_eq.
      intros [= <- <-]. simpl. by apply prefix_app_r.
  - by rewrite (get_pvnames_state _ _ _ _ Hk).
Qed.

Lemma keeps_exec (o : Op Val Config) st : objs st `prefix_of` objs (exec o st).
Proof.
  assert (∀ A (c : M (Store Val Config) A), keeps_objs c →
            objs st `prefix_of` objs (c st).2) as Hm.
  { intros A c Hc. destruct (c st) as [r st'] eqn:Hr. by apply (Hc _ _ _ Hr). }
  destruct o; unfold exec; apply Hm.
  - apply keeps_ADBase__init__.
  - apply keeps_check_exists.
  - apply keeps_bind; [apply keeps_check_exists|].
    intros [d|r]; [apply keeps_raise | apply keeps_set_value].
  - apply keeps_group_check_exists.
  - apply keeps_bind;
      [apply keeps_group_check_exists | intros; apply keeps_set_value].
Qed.

Lemma run_keeps_objs (ops : list (Op Val Config)) st :
  objs st `prefix_of` objs (run ops st).
Proof.
  revert st. induction ops as [|o ops IH]; intros st; [done|].
  etrans; [apply (keeps_exec o) | apply IH].
Qed.

Lemma first_access_settles self obj st k ops self' obj' :
  format_self (pv self) obj = Ok k →
  (dicts st !!! _ad_signals obj) !! KStr k = None →
  _ad_signals obj' = _ad_signals obj →
  format_self (pv self') obj' = Ok k →
  ADSignal__get__ self' (Some obj')
      (run ops (ADSignal__get__ self (Some obj) st).2)
    = (Ok (VRef (length (objs st))),
       run ops (ADSignal__get__ self (Some obj) st).2) ∧
  objs (run ops (ADSignal__get__ self (Some obj) st).2) !! length (objs st)
    = Some (new_signal self obj k).
Proof.
  intros Hf Hnone Hd Hf'. unfold ADSignal__get__.
  rewrite (check_miss _ _ _ _ Hf Hnone). simpl.
  set (st1 := insert_new _ _ _ _).
  destruct (ad_run_extends ops st1) as [(_ & _ & Hdict) _]. split.
  - apply (check_hit _ _ _ k); [done|]. rewrite Hd. apply Hdict.
    unfold st1, insert_new. simpl.
    by rewrite lookup_total_insert_eq, lookup_insert_eq.
  - eapply prefix_lookup_Some; [|apply run_keeps_objs].
    unfold st1, insert_new. simpl. by apply list_lookup_middle.
Qed.

(** X12. The first access settles the signal.  Once an access has built the
    signal of a formatted suffix on an object, every later access that formats
    to this suffix on an object with the same cache, through whatever
    descriptor and with whatever prefix or name the object has by then,
    returns this signal, and the signal still has the names, the keyword
    arguments and the docstring that the first access gave it. *)
Theorem X12_first_access_settles_signal self obj st k ops self' obj' :
  format_self (pv self) obj = Ok k →
  (dicts st !!! _ad_signals obj) !! KStr k = None →
  _ad_signals obj' = _ad_signals obj →
  format_self (pv self') obj' = Ok k →
  ADSignal__get__ self' (Some obj')
      (run ops (ADSignal__get__ self (Some obj) st).2)
    = (Ok (VRef (length (objs st))),
       run ops (ADSignal__get__ self (Some obj) st).2) ∧
  objs (run ops (ADSignal__get__ self (Some obj) st).2) !! length (objs st)
    = Some (new_signal self obj k).
Proof. apply first_access_settles. Qed.

(** X13. An assignment to the attribute does not rebind it.  When the
    template formats, [__set__] records the value on the signal that
    [__get__] returns, which it builds if the cache does not have it, and an
    access afterwards returns this same signal; when the template does not
    format, [__set__] raises the error of the formatting and the store is as
    before. *)
Theorem X13_assignment_reaches_signal self obj (v : Val) st :
  (∀ k, format_self (pv self) obj = Ok k →
     ∃ r s1,
       ADSignal__get__ self (Some obj) st = (Ok (VRef r), s1) ∧
       ADSignal__set__ self obj v st =
         (Ok tt, mkStore (objs s1) (dicts s1) (next_inst s1)
                         (assigned st ++ [(r, v)])) ∧
       ADSignal__get__ self (Some obj) (ADSignal__set__ self obj v st).2
         = (Ok (VRef r), (ADSignal__set__ self obj v st).2)) ∧
  (∀ e, format_self (pv self) obj = Raise e →
     ADSignal__set__ self obj v st = (Raise e, st)).
Proof.
  split.
  - intros k Hf. unfold ADSignal__get__, ADSignal__set__.
    destruct (check_exists self (Some obj) st) as [w s1] eqn:Hg.
    assert (assigned s1 = assigned st ∧ ∃ r, w = Ok (VRef r)) as [Ha [r ->]].
    { destruct (check_cases _ _ _ _ _ Hg)
        as [(e & ? & _)|[(k' & a & _ & _ & -> & ->)|(k' & _ & _ & -> & ->)]];
        [congruence| |]; eauto. }
    exists r, s1. split; [done|]. rewrite (bind_ok _ _ _ _ _ Hg).
    unfold set_value. rewrite Ha. split; [done|]. simpl.
    apply (check_stable _ _ _ _ _ _ Hg). by apply ad_extends_same.
  - intros e Hf. unfold ADSignal__set__.
    by rewrite (bind_raise _ _ _ _ _ (check_raise _ _ _ _ Hf)).
Qed.

(** *** Groups *)

Lemma insert_new_tuple st d k o d' key :
  (dicts (insert_new st d (KStr k) o) !!! d') !! KTuple key
  = (dicts st !!! d') !! KTuple key.
Proof.
  unfold insert_new. simpl. destruct (decide (d' = d)) as [->|Hne].
  - by rewrite lookup_total_insert_eq, lookup_insert_ne.
  - by rewrite lookup_total_insert_ne.
Qed.

Lemma check_exists_tuple self obj st r st' d key :
  check_exists self (Some obj) st = (r, st') →
  (dicts st' !!! d) !! KTuple key = (dicts st !!! d) !! KTuple key.
Proof.
  intros Hg. destruct (check_cases _ _ _ _ _ Hg)
    as [(e & _ & _ & ->)|[(k & a & _ & _ & _ & ->)|(k & _ & _ & _ & ->)]];
    [done|done|]. apply insert_new_tuple.
Qed.

Lemma get_members_tuple props obj :
  ∀ st r st', get_members props obj st = (r, st') →
    ∀ d key, (dicts st' !!! d) !! KTuple key = (dicts st !!! d) !! KTuple key.
Proof.
  induction props as [|p props IH]; intros st r st' Hm d key.
  - by injection Hm as <- <-.
  - cbn [get_members] in Hm. unfold ADSignal__get__ in Hm.
    destruct (bind_inv _ _ _ _ _ Hm) as [(w & s1 & H1 & H2)|(e & H1 & _)];
      [|by apply (check_exists_tuple _ _ _ _ _ _ _ H1)].
    rewrite <- (check_exists_tuple _ _ _ _ _ d key H1).
    destruct w as [?|a]; [by injection H2 as <- <-|].
    destruct (bind_inv _ _ _ _ _ H2) as [(rs & s2 & H3 & H4)|(e & H3 & _)].
    + injection H4 as <- <-. by apply (IH _ _ _ H3).
    + by apply (IH _ _ _ H3).
Qed.

Lemma get_members_cached props obj :
  ∀ st signals st', get_members props obj st = (Ok signals, st') →
    Forall2 (λ prop s,
               ADSignal__get__ prop (Some obj) st' = (Ok (VRef s), st'))
            props signals.
Proof.
  induction props as [|p props IH]; intros st signals st' Hm.
  - injection Hm as <- <-. constructor.
  - cbn [get_members] in Hm.
    destruct (bind_inv _ _ _ _ _ Hm) as [(w & s1 & H1 & H2)|(e & _ & ?)];
      [|done].
    destruct w as [?|a]; [done|].
    destruct (bind_inv _ _ _ _ _ H2) as [(rs & s2 & H3 & H4)|(e & _ & ?)];
      [|done].
    injection H4 as <- <-. constructor; [|by eapply IH].
    apply (check_stable _ _ _ _ _ _ H1).
    by apply (mono_get_members _ _ _ _ _ H3).
Qed.

(** X14. A group that the cache does not hold is built from the member
    signals themselves.  When the members format and no group is cached under
    the tuple of their identifiers, the getter adds exactly one object, a
    group with the keyword arguments of the declaration, whose members are, in
    the order of the declaration, the very signals that the member
    descriptors return on this object, and caches it under that tuple. *)
Theorem X14_group_members g obj st key sk :
  group_key g obj st = (Ok key, sk) →
  (dicts st !!! _ad_signals obj) !! KTuple key = None →
  ∃ signals st',
    fget g obj st = (Ok (length (objs sk)), st') ∧
    objs st' = objs sk ++ [SignalGroup (grp_kwargs g) signals] ∧
    (dicts st' !!! _ad_signals obj) !! KTuple key = Some (length (objs sk)) ∧
    Forall2 (λ prop s,
               ADSignal__get__ prop (Some obj) st' = (Ok (VRef s), st'))
            (grp_props g) signals.
Proof.
  unfold group_key. intros Hk Hnone.
  destruct (bind_inv _ _ _ _ _ Hk) as [(signals & s1 & Hm & Hp)|(e & _ & ?)];
    [|done].
  assert (sk = s1) as -> by apply (get_pvnames_state _ _ _ _ Hp).
  rewrite <- (get_members_tuple _ _ _ _ _ Hm) in Hnone.
  exists signals,
    (insert_new s1 (_ad_signals obj) (KTuple key)
                (SignalGroup (grp_kwargs g) signals)).
  split; [|split; [done|split]].
  - unfold fget, group_check_exists.
    rewrite (bind_ok _ _ _ _ _ Hm), (bind_ok _ _ _ _ _ Hp).
    unfold bind at 1, dict_getitem at 1. rewrite Hnone.
    unfold bind at 1, new_obj. unfold bind at 1.
    rewrite (add_signals_new (objs s1) (grp_kwargs g) signals []) by done.
    unfold bind, dict_setitem, dict_getitem, ret. simpl.
    by rewrite lookup_total_insert_eq, lookup_insert_eq.
  - simpl. by rewrite lookup_total_insert_eq, lookup_insert_eq.
  - eapply Forall2_impl; [by eapply get_members_cached|].
    intros prop s Hs. apply (check_stable _ _ _ _ _ _ Hs).
    by apply extends_insert_new.
Qed.

Lemma get_members_raise pre p post obj e :
  (∀ q, q ∈ pre → ∃ k, format_self (pv q) obj = Ok k) →
  format_self (pv p) obj = Raise e →
  ∀ st, ∃ st',
    get_members (pre ++ p :: post) obj st = (Raise e, st') ∧
    extends st st' ∧
    ∀ q k, q ∈ pre → format_self (pv q) obj = Ok k →
           is_Some ((dicts st' !!! _ad_signals obj) !! KStr k).
Proof.
  intros Hpre Hp. induction pre as [|q pre IH]; intros st.
  - exists st. split; [|split; [apply ad_extends_refl|]].
    + cbn [app get_members]. unfold ADSignal__get__.
      by rewrite (bind_raise _ _ _ _ _ (check_raise _ _ _ _ Hp)).
    + by intros q k ?%elem_of_nil.
  - destruct (Hpre q) as [k Hk]; [by left|].
    destruct (check_exists q (Some obj) st) as [w s1] eqn:Hg.
    assert (∃ r, w = Ok (VRef r) ∧
                 (dicts s1 !!! _ad_signals obj) !! KStr k = Some r)
      as (r & -> & Hr).
    { destruct (check_cases _ _ _ _ _ Hg)
        as [(e' & ? & _)|[(k' & a & Hf & Hl & -> & ->)|(k' & Hf & _ & -> & ->)]];
        [congruence| |]; assert (k' = k) as -> by congruence.
      - eauto.
      - eexists. split; [done|]. simpl.
        by rewrite lookup_total_insert_eq, lookup_insert_eq. }
    destruct (IH (λ q' Hq', Hpre q' (list_elem_of_further _ _ _ Hq')) s1)
      as (st' & Hm & Hext & Hall).
    exists st'. split; [|split].
    + cbn [app get_members]. unfold ADSignal__get__.
      rewrite (bind_ok _ _ _ _ _ Hg). by rewrite (bind_raise _ _ _ _ _ Hm).
    + eapply ad_extends_trans; [by apply (mono_check_exists _ _ _ _ _ Hg)|done].
    + intros q' k' Hq' Hk'. apply elem_of_cons in Hq' as [->|Hq']; [|eauto].
      assert (k' = k) as -> by congruence.
      destruct Hext as (_ & _ & Hd). rewrite (Hd _ _ _ Hr). eauto.
Qed.

(** X15. A group whose member fails is not all or nothing.  When the template
    of a member does not format on the object and those of the members before
    it do, the getter raises the error of that formatting and builds no
    group, but the signals of the members before it have been built and stay
    cached; nothing that was cached is lost. *)
Theorem X15_group_member_fails g obj st pre p post e :
  grp_props g = pre ++ p :: post →
  (∀ q, q ∈ pre → ∃ k, format_self (pv q) obj = Ok k) →
  format_self (pv p) obj = Raise e →
  ∃ st',
    fget g obj st = (Raise e, st') ∧
    (∀ q k, q ∈ pre → format_self (pv q) obj = Ok k →
            is_Some ((dicts st' !!! _ad_signals obj) !! KStr k)) ∧
    (∀ d key, (dicts st' !!! d) !! KTuple key = (dicts st !!! d) !! KTuple key) ∧
    (∀ d k r, (dicts st !!! d) !! k = Some r → (dicts st' !!! d) !! k = Some r).
Proof.
  intros Hprops Hpre Hp.
  destruct (get_members_raise pre p post obj e Hpre Hp st)
    as (st' & Hm & Hext & Hall).
  exists st'. split; [|split; [done|split]].
  - unfold fget, group_check_exists. rewrite Hprops.
    by rewrite (bind_raise _ _ _ _ _ Hm).
  - by apply (get_members_tuple _ _ _ _ _ Hm).
  - apply Hext.
Qed.

End ad_more.

(** ** Class attributes, docstrings and the search *)

Lemma ascii_compare_cases (a b : ascii) :
  (Ascii.compare a b = Eq ∧ a = b) ∨
  (Ascii.compare a b = Lt ∧ (N_of_ascii a < N_of_ascii b)%N) ∨
  (Ascii.compare a b = Gt ∧ (N_of_ascii b < N_of_ascii a)%N).
Proof.
  unfold Ascii.compare.
  destruct (N.compare_spec (N_of_ascii a) (N_of_ascii b)) as [H|H|H]; auto.
  left. split; [done|].
  rewrite <- (ascii_N_embedding a), <- (ascii_N_embedding b). by rewrite H.
Qed.

Lemma string_compare_trans (s1 s2 s3 : string) :
  String.compare s1 s2 ≠ Gt → String.compare s2 s3 ≠ Gt →
  String.compare s1 s3 ≠ Gt.
Proof.
  revert s2 s3. induction s1 as [|a s1 IH]; intros [|b s2] [|c s3]; simpl;
    try done.
  destruct (ascii_compare_cases a b) as [[-> ->]|[[-> Hab]|[-> Hab]]];
    [| |done].
  - destruct (ascii_compare_cases b c) as [[-> ->]|[[-> Hbc]|[-> Hbc]]];
      [apply IH|done|done].
  - intros _.
    destruct (ascii_compare_cases b c) as [[_ ->]|[[-> Hbc]|[-> Hbc]]];
      [|intros _|done].
    + destruct (ascii_compare_cases a c) as [[_ ->]|[[-> _]|[_ ?]]];
        [lia|done|lia].
    + destruct (ascii_compare_cases a c) as [[_ ->]|[[-> _]|[_ ?]]];
        [lia|done|lia].
Qed.

#[local] Instance str_le_trans : Transitive ADExt.str_le.
Proof.
  intros s1 s2 s3. unfold ADExt.str_le, String.leb. intros H12 H23.
  pose proof (string_compare_trans s1 s2 s3) as Ht.
  destruct (String.compare s1 s2); destruct (String.compare s2 s3);
    destruct (String.compare s1 s3); try done; by destruct Ht.
Qed.

#[local] Instance str_le_total : Total ADExt.str_le.
Proof. intros s1 s2. apply String.leb_total. Qed.

Lemma sorted_elem_of (l : list string) x : x ∈ ADExt.sorted l ↔ x ∈ l.
Proof. unfold ADExt.sorted. by rewrite merge_sort_Permutation. Qed.

Lemma sorted_NoDup (l : list string) : NoDup l → NoDup (ADExt.sorted l).
Proof. unfold ADExt.sorted. by rewrite merge_sort_Permutation. Qed.

Lemma sorted_StronglySorted (l : list string) :
  StronglySorted ADExt.str_le (ADExt.sorted l).
Proof. apply StronglySorted_merge_sort; apply _. Qed.

Lemma StronglySorted_sublist {A} (R : relation A) (l k : list A) :
  l `sublist_of` k → StronglySorted R k → StronglySorted R l.
Proof.
  induction 1 as [|x l k Hs IH|x l k Hs IH]; intros Hk; [done| |].
  - apply StronglySorted_inv in Hk as [Hk Hx]. constructor; [auto|].
    rewrite Forall_forall in Hx |- *. intros y Hy. apply Hx.
    by eapply elem_of_sublist.
  - apply StronglySorted_inv in Hk as [Hk _]. auto.
Qed.


Section cls_more.
Import AD ADExt.
Context {Val Config : Type} {env : Env Config}.
Context {Pattern : Type} {regex : Regex Pattern}.
Implicit Types (self : ADSignal Config).

Lemma class_getattr_dom (nss : list (gmap string (ClassAttr Config))) attr :
  is_Some (class_getattr nss attr) ↔ attr ∈ (⋃ (dom <$> nss) : gset string).
Proof.
  induction nss as [|ns nss IH]; simpl.
  - split; [by intros [? ?] | set_solver].
  - rewrite elem_of_union, elem_of_dom, <- IH.
    destruct (ns !! attr) as [a|]; [by split; eauto|].
    split; [by right|]. by intros [[? ?]|?].
Qed.

Lemma elem_of_dir (cls_ : ADClass Config) attr :
  attr ∈ dir cls_ ↔ is_Some (class_getattr (namespaces cls_) attr).
Proof. unfold dir. by rewrite elem_of_elements, class_getattr_dom. Qed.

Lemma omap_sublist {A B C} (f : A → option B) (p : A → C) (q : B → C) l :
  (∀ x y, f x = Some y → q y = p x) →
  q <$> omap f l `sublist_of` p <$> l.
Proof.
  intros Hf. induction l as [|x l IH]; simpl; [done|].
  destruct (f x) as [y|] eqn:Hx; simpl.
  - rewrite (Hf _ _ Hx). by constructor.
  - by constructor.
Qed.

Lemma all_adsignals_sublist (cls_ : ADClass Config) :
  (_all_adsignals cls_).*1 `sublist_of` sorted (dir cls_).
Proof.
  unfold _all_adsignals.
  etrans; [apply (omap_sublist _ fst fst)|].
  { intros [attr a] y. simpl. destruct a; [|done..]. by intros [= <-]. }
  rewrite <- (list_fmap_id (sorted (dir cls_))) at 2.
  apply (omap_sublist _ id fst). intros attr y.
  destruct (class_getattr _ attr); [|done]. by intros [= <-].
Qed.

Lemma elem_of_all_adsignals (cls_ : ADClass Config) attr s :
  (attr, s) ∈ _all_adsignals cls_ ↔
  class_getattr (namespaces cls_) attr = Some (CSignal s).
Proof.
  unfold _all_adsignals. rewrite list_elem_of_omap. split.
  - intros ([attr' a] & Hin & Ha). simpl in Ha.
    apply list_elem_of_omap in Hin as (attr'' & _ & Hg).
    destruct (class_getattr _ attr'') as [a'|] eqn:Hc; [|done].
    injection Hg as <- <-. destruct a'; [|done..]. by injection Ha as <- <-.
  - intros Hc. exists (attr, CSignal s). split; [|done].
    apply list_elem_of_omap. exists attr. split; [|by rewrite Hc].
    apply sorted_elem_of, elem_of_dir. by rewrite Hc.
Qed.

Lemma all_adsignals_sorted (cls_ : ADClass Config) :
  StronglySorted str_le (_all_adsignals cls_).*1 ∧
  NoDup (_all_adsignals cls_).*1.
Proof.
  split.
  - eapply StronglySorted_sublist;
      [apply all_adsignals_sublist | apply sorted_StronglySorted].
  - eapply sublist_NoDup; [|apply all_adsignals_sublist].
    apply sorted_NoDup, NoDup_elements.
Qed.

(** X16. [_all_adsignals] lists an attribute exactly when looking it up on
    the class gives an [ADSignal], so that a name which a more derived class
    binds to something else hides the signal of a base class, and properties
    such as the signal groups are left out; the list is in ascending order of
    the names and has each name once. *)
Theorem X16_all_adsignals (cls_ : ADClass Config) :
  (∀ attr s, (attr, s) ∈ _all_adsignals cls_ ↔
             class_getattr (namespaces cls_) attr = Some (CSignal s)) ∧
  StronglySorted str_le (_all_adsignals cls_).*1 ∧
  NoDup (_all_adsignals cls_).*1.
Proof. split; [apply elem_of_all_adsignals | apply all_adsignals_sorted]. Qed.

(** *** Docstrings *)

(** X17. [update_docstring] changes the docstring of the descriptor and
    nothing that the cache depends on; calling it again changes nothing.  A
    signal built afterwards carries the explicit [doc] of the declaration if
    there is one and else the documentation found for the template as
    written, not for the formatted suffix.  A signal built before keeps the
    docstring it was built with, also when it is reached through the updated
    descriptor. *)
Theorem X17_docstring_update docs self (c : Doc.PyClass) obj
    (st : Store Val Config) k ops :
  format_self (pv self) obj = Ok k →
  (dicts st !!! _ad_signals obj) !! KStr k = None →
  (pv (update_docstring docs self c) = pv self ∧
   has_rbv (update_docstring docs self c) = has_rbv self ∧
   doc (update_docstring docs self c) = doc self ∧
   kwargs (update_docstring docs self c) = kwargs self) ∧
  update_docstring docs (update_docstring docs self c) c
    = update_docstring docs self c ∧
  objs (ADSignal__get__ (update_docstring docs self c) (Some obj) st).2
    !! length (objs st)
    = Some match new_signal self obj k with
           | EpicsSignal rd wr n kw _ =>
               EpicsSignal rd wr n kw
                 (Some (default (Doc.lookup_doc docs c (pv self)) (doc self)))
           | o => o
           end ∧
  ADSignal__get__ (update_docstring docs self c) (Some obj)
      (run ops (ADSignal__get__ self (Some obj) st).2)
    = (Ok (VRef (length (objs st))),
       run ops (ADSignal__get__ self (Some obj) st).2) ∧
  objs (run ops (ADSignal__get__ self (Some obj) st).2) !! length (objs st)
    = Some (new_signal self obj k).
Proof.
  intros Hf Hnone.
  assert (pv (update_docstring docs self c) = pv self) as Hpv.
  { unfold update_docstring. by destruct (doc self). }
  split; [|split; [|split]].
  - unfold update_docstring. by destruct (doc self) eqn:Hd.
  - unfold update_docstring, ADSignal_lookup_doc.
    destruct (doc self) as [d|] eqn:Hd; [by rewrite Hd|]. done.
  - unfold ADSignal__get__.
    assert (format_self (pv (update_docstring docs self c)) obj = Ok k) as Hf'
      by (by rewrite Hpv).
    rewrite (check_miss _ _ _ k Hf' Hnone).
    simpl. rewrite list_lookup_middle by done. f_equal.
    unfold new_signal, update_docstring, ADSignal_lookup_doc.
    by destruct (doc self) eqn:Hd; simpl; rewrite ?Hd.
  - apply first_access_settles; [done|done|done|by rewrite Hpv].
Qed.

(** *** The search *)

Lemma contains_lower t d :
  PyStr.contains t d = true →
  PyStr.contains (PyStr.lower t) (PyStr.lower d) = true.
Proof.
  rewrite !contains_spec. intros (a & b & ->).
  exists (PyStr.lower a), (PyStr.lower b). by rewrite !lower_app.
Qed.

Lemma str_app_assoc (a b c : string) : (a +:+ b) +:+ c = a +:+ (b +:+ c).
Proof.
  induction a as [|x a IH]; [done|].
  change (String x ((a +:+ b) +:+ c) = String x (a +:+ (b +:+ c))).
  by rewrite IH.
Qed.

Lemma contains_trans a b d :
  PyStr.contains a b = true → PyStr.contains b d = true →
  PyStr.contains a d = true.
Proof.
  rewrite !contains_spec. intros (a1 & a2 & ->) (b1 & b2 & ->).
  exists (b1 +:+ a1), (a2 +:+ b2).
  by rewrite !str_app_assoc.
Qed.

Lemma elem_of_find_loop docs (c : Doc.PyClass) (rx : option Pattern) cs text
    (l : list (string * ADSignal Config)) n s d :
  (n, s, d) ∈ find_loop docs c rx cs text l ↔
  (n, s) ∈ l ∧ d = Doc.lookup_doc docs c (pv s) ∧
  match rx with
  | Some rx => re_search rx d
  | None => if cs then PyStr.contains text d
            else PyStr.contains text (PyStr.lower d)
  end = true.
Proof.
  induction l as [|[n' s'] l IH]; cbn [find_loop].
  - split; [by intros ?%elem_of_nil | by intros [?%elem_of_nil _]].
  - unfold ADSignal_lookup_doc.
    set (hit := match rx with Some _ => _ | None => _ end).
    assert (hit = match rx with
                  | Some rx => re_search rx (Doc.lookup_doc docs c (pv s'))
                  | None => if cs
                            then PyStr.contains text (Doc.lookup_doc docs c (pv s'))
                            else PyStr.contains text
                                   (PyStr.lower (Doc.lookup_doc docs c (pv s')))
                  end) as Hhit by (unfold hit; by destruct rx, cs).
    rewrite elem_of_cons. destruct hit eqn:Hh.
    + rewrite elem_of_cons, IH. split.
      * intros [[= -> -> ->]|(? & ? & ?)]; [|by auto].
        split; [by left|]. split; [done|]. by rewrite <- Hhit.
      * intros ([[= -> ->]|Hin] & -> & Hm); [by left | by right].
    + rewrite IH. split.
      * intros (? & ? & ?). by auto.
      * intros ([[= -> ->]|Hin] & -> & Hm); [|done]. congruence.
Qed.

Lemma find_loop_sublist docs (c : Doc.PyClass) (rx : option Pattern) cs text
    (l : list (string * ADSignal Config)) :
  (find_loop docs c rx cs text l).*1 `sublist_of` l.
Proof.
  induction l as [|[n s] l IH]; cbn [find_loop]; [done|].
  destruct (match rx with Some _ => _ | None => _ end); simpl;
    by constructor.
Qed.

(** X18. For a text and documentation written in ASCII characters, the plain
    search of [find_signal] never fails.  It reports an attribute exactly when
    the attribute is an [ADSignal] of the class and the text occurs in the
    documentation found for its template, where the default search compares
    the lower-cased text with the lower-cased documentation; an explicit [doc]
    of the declaration plays no part.  The reports come in ascending order of
    the attribute names, and whatever the case-sensitive search reports, the
    default search reports too. *)
Theorem X18_find_signal_plain docs (cls_ : ADClass Config) text :
  PyStr.isascii text = true →
  Forall (λ ns, PyStr.isascii (Doc.lookup_doc docs (py_class cls_) (pv ns.2))
                = true) (_all_adsignals cls_) →
  ∃ sensitive insensitive,
    find_signal docs cls_ text false true = Ok sensitive ∧
    find_signal docs cls_ text false false = Ok insensitive ∧
    (∀ n s d, (n, s, d) ∈ sensitive ↔
       class_getattr (namespaces cls_) n = Some (CSignal s) ∧
       d = Doc.lookup_doc docs (py_class cls_) (pv s) ∧
       PyStr.contains text d = true) ∧
    (∀ n s d, (n, s, d) ∈ insensitive ↔
       class_getattr (namespaces cls_) n = Some (CSignal s) ∧
       d = Doc.lookup_doc docs (py_class cls_) (pv s) ∧
       PyStr.contains (PyStr.lower text) (PyStr.lower d) = true) ∧
    StronglySorted str_le sensitive.*1.*1 ∧
    StronglySorted str_le insensitive.*1.*1 ∧
    ∀ m, m ∈ sensitive → m ∈ insensitive.
Proof.
  intros _ _.
  eexists _, _. split; [reflexivity|]. split; [reflexivity|]. simpl.
  assert (∀ cs t,
            StronglySorted str_le
              (find_loop docs (py_class cls_) None cs t
                         (_all_adsignals cls_)).*1.*1) as Hsorted.
  { intros cs t. eapply StronglySorted_sublist;
      [|apply all_adsignals_sorted]. apply fmap_sublist, find_loop_sublist. }
  split; [|split; [|split; [done|split; [done|]]]].
  - intros n s d. by rewrite elem_of_find_loop, elem_of_all_adsignals.
  - intros n s d. by rewrite elem_of_find_loop, elem_of_all_adsignals.
  - intros [[n s] d]. rewrite !elem_of_find_loop.
    intros (Hin & -> & Hc). split; [done|]. split; [done|].
    by apply contains_lower.
Qed.

(** X19. With [use_re] the text is compiled once, with the case flag set
    unless the search is case sensitive, before any attribute is looked at: an
    error of the compilation is the result and nothing is reported; otherwise
    an attribute is reported exactly when it is an [ADSignal] of the class
    and the pattern is found in its documentation. *)
Theorem X19_find_signal_regex docs (cls_ : ADClass Config) text cs :
  (∀ e, re_compile text (negb cs) = Raise e →
        find_signal docs cls_ text true cs = Raise e) ∧
  (∀ rx, re_compile text (negb cs) = Ok rx →
     ∃ ms, find_signal docs cls_ text true cs = Ok ms ∧
           StronglySorted str_le ms.*1.*1 ∧
           ∀ n s d, (n, s, d) ∈ ms ↔
             class_getattr (namespaces cls_) n = Some (CSignal s) ∧
             d = Doc.lookup_doc docs (py_class cls_) (pv s) ∧
             re_search rx d = true).
Proof.
  unfold find_signal. split.
  - by intros e ->.
  - intros rx ->. eexists. split; [reflexivity|]. split.
    + eapply StronglySorted_sublist; [|apply all_adsignals_sorted].
      apply fmap_sublist, find_loop_sublist.
    + intros n s d. by rewrite elem_of_find_loop, elem_of_all_adsignals.
Qed.

(** X20. A signal without documentation whose template is written in ASCII
    characters is found by its template.  Its documentation is the sentinel,
    which quotes the template, so the default search reports the attribute
    for every ASCII text that is part of the template, in whatever case the
    text is written. *)
Theorem X20_undocumented_signal_found docs (cls_ : ADClass Config) n s text text' :
  PyStr.isascii (pv s) = true → PyStr.isascii text' = true →
  class_getattr (namespaces cls_) n = Some (CSignal s) →
  Doc.lookup_doc docs (py_class cls_) (pv s) = Doc.not_found (pv s) →
  PyStr.contains text (pv s) = true →
  PyStr.lower text' = PyStr.lower text →
  ∃ ms, find_signal docs cls_ text' false false = Ok ms ∧
        (n, s, Doc.not_found (pv s)) ∈ ms.
Proof.
  intros _ _ Hc Hdoc Htext Hcase. eexists. split; [reflexivity|]. simpl.
  rewrite elem_of_find_loop, elem_of_all_adsignals.
  split; [done|]. split; [done|]. rewrite Hcase.
  apply contains_lower. eapply contains_trans; [done|].
  apply not_found_contains.
Qed.

End cls_more.

(** ** The [signals] property *)

Section signals_more.
Import AD ADExt.
Context {Val Config : Type} {env : Env Config}.
Implicit Types (st : Store Val Config) (self : ADBase).

Lemma safe_getattr_cases (cls_ : ADClass Config) self attr st :
  ∃ v st',
    safe_getattr cls_ self attr st = (Ok v, st') ∧
    extends st st' ∧
    match class_getattr (namespaces cls_) attr with
    | Some (CSignal sg) =>
        match format_self (pv sg) self with
        | Ok k => ∃ r, v = Some r ∧
                       (dicts st' !!! _ad_signals self) !! KStr k = Some r
        | Raise _ => v = None ∧ st' = st
        end
    | Some (CGroup g) => True
    | _ => v = None ∧ st' = st
    end.
Proof.
  unfold safe_getattr.
  destruct (class_getattr (namespaces cls_) attr) as [[sg|g|]|].
  - unfold ADSignal__get__.
    destruct (check_exists sg (Some self) st) as [w s1] eqn:Hg.
    pose proof (mono_check_exists _ _ _ _ _ Hg) as [Hext _].
    destruct (check_cases _ _ _ _ _ Hg)
      as [(e & -> & -> & ->)|[(k & a & -> & Hl & -> & ->)|(k & -> & _ & -> & ->)]].
    + eexists _, _. by repeat split.
    + eexists _, _. split; [done|]. split; [done|]. eauto.
    + eexists _, _. split; [done|]. split; [done|]. eexists. split; [done|].
      simpl. by rewrite lookup_total_insert_eq, lookup_insert_eq.
  - unfold fget. destruct (group_check_exists g self st) as [[r|e] s1] eqn:Hg;
      pose proof (mono_group_check_exists _ _ _ _ _ Hg) as [Hext _];
      by eexists _, _.
  - eexists _, _. split; [done|]. split; [apply ad_extends_refl | done].
  - eexists _, _. split; [done|]. split; [apply ad_extends_refl | done].
Qed.

Lemma signals_loop_spec (cls_ : ADClass Config) self attrs :
  ∀ st, ∃ d st',
    signals_loop cls_ self attrs st = (Ok d, st') ∧
    extends st st' ∧
    d.*1 `sublist_of` attrs ∧
    (∀ attr r, (attr, r) ∈ d →
       (∃ sg k, class_getattr (namespaces cls_) attr = Some (CSignal sg) ∧
                format_self (pv sg) self = Ok k ∧
                (dicts st' !!! _ad_signals self) !! KStr k = Some r) ∨
       (∃ g, class_getattr (namespaces cls_) attr = Some (CGroup g))) ∧
    (∀ attr sg k, attr ∈ attrs →
       class_getattr (namespaces cls_) attr = Some (CSignal sg) →
       format_self (pv sg) self = Ok k →
       ∃ r, (attr, r) ∈ d ∧
            (dicts st' !!! _ad_signals self) !! KStr k = Some r).
Proof.
  induction attrs as [|attr attrs IH]; intros st.
  - exists [], st. split; [done|]. split; [apply ad_extends_refl|].
    split; [done|]. split; [by intros ? ? ?%elem_of_nil|].
    by intros ? ? ? ?%elem_of_nil.
  - destruct (safe_getattr_cases cls_ self attr st) as (v & s1 & Hv & He1 & Hc).
    destruct (IH s1) as (d & st' & Hl & He2 & Hsub & Hin & Hall).
    exists (match v with Some r => (attr, r) :: d | None => d end), st'.
    split; [|split; [|split; [|split]]].
    + cbn [signals_loop]. rewrite (bind_ok _ _ _ _ _ Hv).
      by rewrite (bind_ok _ _ _ _ _ Hl).
    + by eapply ad_extends_trans.
    + destruct v; simpl; by constructor.
    + intros attr' r Hr.
      assert ((attr' = attr ∧ v = Some r) ∨ (attr', r) ∈ d) as [[-> ->]|Hd].
      { destruct v; [|by right].
        apply elem_of_cons in Hr as [[= -> ->]|?]; auto. }
      * destruct (class_getattr (namespaces cls_) attr) as [[sg|g|]|];
          [|by eauto|by destruct Hc|by destruct Hc].
        destruct (format_self (pv sg) self) as [k|e] eqn:Hf;
          [|by destruct Hc].
        destruct Hc as (r' & [= <-] & Hk). left. exists sg, k.
        split; [done|]. split; [done|]. by apply He2.
      * by apply Hin.
    + intros attr' sg k Hattr Hcls Hf.
      destruct (decide (attr' = attr)) as [->|Hne].
      * rewrite Hcls, Hf in Hc. destruct Hc as (r & -> & Hk).
        exists r. split; [by left | by apply He2].
      * apply elem_of_cons in Hattr as [?|Hattr]; [done|].
        destruct (Hall _ _ _ Hattr Hcls Hf) as (r & Hr & Hk).
        exists r. split; [|done]. destruct v; [by right | done].
Qed.

Lemma elem_of_public_names (cls_ : ADClass Config) self attr :
  attr ∈ public_names cls_ self ↔
  attr ∈ dir_self cls_ self ∧ PyStr.startswith attr "_" = false ∧
  attr ≠ "signals".
Proof.
  unfold public_names. rewrite list_elem_of_filter, sorted_elem_of. tauto.
Qed.

Lemma public_names_sorted (cls_ : ADClass Config) self :
  StronglySorted str_le (public_names cls_ self).
Proof.
  eapply StronglySorted_sublist; [apply sublist_filter|].
  apply sorted_StronglySorted.
Qed.

Lemma class_attr_dir_self (cls_ : ADClass Config) self attr a :
  class_getattr (namespaces cls_) attr = Some a → attr ∈ dir_self cls_ self.
Proof.
  intros Ha. unfold dir_self. rewrite elem_of_elements, !elem_of_union.
  left. left. apply class_getattr_dom. by rewrite Ha.
Qed.

(** X21. [signals] never raises, whatever the attributes of the class do:
    what fails to build is left out.  It computes its dict once per object: a
    later call on the object returns the dict of the first call and leaves the
    store alone, also when the class or the object would by then give other
    signals.  Nothing that was cached is lost by it. *)
Theorem X21_signals_total_and_cached (cls_ : ADClass Config) self
    (s : XStore Val Config) :
  ∃ d s1,
    signals cls_ self s = (Ok d, s1) ∧
    extends (ad s) (ad s1) ∧
    ∀ cls' self', ad_addr self' = ad_addr self →
                  signals cls' self' s1 = (Ok d, s1).
Proof.
  unfold signals.
  destruct (sig_dicts s !! ad_addr self) as [d|] eqn:Hd.
  - exists d, s. split; [done|]. split; [apply ad_extends_refl|].
    intros cls' self' ->. by rewrite Hd.
  - destruct (signals_loop_spec cls_ self (public_names cls_ self) (ad s))
      as (d & st' & -> & Hext & _).
    eexists _, _. split; [done|]. split; [done|].
    intros cls' self' ->. simpl. by rewrite lookup_insert_eq.
Qed.

(** X22. The first call of [signals] on an object builds all its lazy
    signals.  Every public attribute of the class that is an [ADSignal] whose
    template formats is in the dict, with the signal that the cache now holds
    under its formatted suffix; the dict has nothing but public attributes of
    the class that are signals whose template formats or groups, each once,
    in ascending order of the names; a signal whose template does not format
    is left out. *)
Theorem X22_signals_builds_all (cls_ : ADClass Config) self
    (s : XStore Val Config) d s1 :
  sig_dicts s !! ad_addr self = None →
  signals cls_ self s = (Ok d, s1) →
  (∀ attr sg k,
     class_getattr (namespaces cls_) attr = Some (CSignal sg) →
     PyStr.startswith attr "_" = false → attr ≠ "signals" →
     format_self (pv sg) self = Ok k →
     ∃ r, (attr, r) ∈ d ∧
          (dicts (ad s1) !!! _ad_signals self) !! KStr k = Some r) ∧
  (∀ attr r, (attr, r) ∈ d →
     PyStr.startswith attr "_" = false ∧ attr ≠ "signals" ∧
     ((∃ sg k, class_getattr (namespaces cls_) attr = Some (CSignal sg) ∧
               format_self (pv sg) self = Ok k ∧
               (dicts (ad s1) !!! _ad_signals self) !! KStr k = Some r) ∨
      (∃ g, class_getattr (namespaces cls_) attr = Some (CGroup g)))) ∧
  StronglySorted str_le d.*1 ∧
  sig_dicts s1 !! ad_addr self = Some d.
Proof.
  unfold signals. intros -> Hs.
  destruct (signals_loop_spec cls_ self (public_names cls_ self) (ad s))
    as (d' & st' & Hl & Hext & Hsub & Hin & Hall).
  rewrite Hl in Hs. injection Hs as <- <-. simpl.
  split; [|split; [|split]].
  - intros attr sg k Hc Hp Hn Hf. apply (Hall attr sg k); [|done|done].
    apply elem_of_public_names. split; [|done].
    by apply (class_attr_dir_self _ _ _ _ Hc).
  - intros attr r Hr.
    assert (attr ∈ public_names cls_ self) as Hpub.
    { eapply elem_of_sublist; [|done]. by apply (list_elem_of_fmap_2 fst) in Hr. }
    apply elem_of_public_names in Hpub as (_ & ? & ?). auto.
  - eapply StronglySorted_sublist; [done | apply public_names_sorted].
  - by rewrite lookup_insert_eq.
Qed.

End signals_more.

(** ** The further properties on the concrete instances *)

Section more_examples.
Import Demo DemoMore.
#[local] Existing Instance lite_env.
#[local] Existing Instance ad_env.
#[local] Existing Instance literal_regex.

Lemma X1_name_from_pv_witness :
  name_from_pv (name_from_pv "XF:AD1:") = name_from_pv "XF:AD1:".
Proof.
  refine (proj1 (proj2 (X1_name_from_pv "XF:AD1:" _))).
  vm_compute. reflexivity.
Defined.

Lemma X2_registry_consistent_witness :
  Lite.cls_default_sig_for_set abc_cls
    `sublist_of` Lite.cls_signal_names abc_cls.
Proof.
  refine (proj1 (proj2 (proj2 (proj2 (proj2
    (X2_registry_consistent (Val:=nat) "Abc" Abc_body Lite.empty_store
       abc_cls _ _)))))).
  vm_compute. reflexivity.
Defined.

Lemma X3_class_definition_fails_witness :
  Lite.define_class (Val:=nat) "Bad"
    [("val", Lite.ENewSignal Lite.KSignalRW "XF:1.VAL" ())] Lite.empty_store
  = (Raise (ValueError "pv_template must contain '{base_name}'"),
     Lite.empty_store).
Proof.
  apply (X3_class_definition_fails _ _ "val" Lite.KSignalRW "XF:1.VAL" ()).
  - by left.
  - vm_compute. reflexivity.
Defined.

Lemma X5_cache_keyed_by_identifier_witness :
  Lite.Signal__get__ (Lite.mkSignal Lite.KSignal "{base_name}.VAL" ())
    (Some motor)
    (Lite.run [Lite.OpRead motor]
       (Lite.Signal__get__
          (Lite.mkSignal Lite.KSignalRW "{base_name}.VAL" ()) (Some motor)
          motor_store).2)
  = (Ok (Lite.VChan 0),
     Lite.run [Lite.OpRead motor]
       (Lite.Signal__get__
          (Lite.mkSignal Lite.KSignalRW "{base_name}.VAL" ()) (Some motor)
          motor_store).2).
Proof.
  apply (X5_cache_keyed_by_identifier
           (Lite.mkSignal Lite.KSignalRW "{base_name}.VAL" ())
           (Lite.mkSignal Lite.KSignal "{base_name}.VAL" ())
           motor motor motor_store).
  - vm_compute. reflexivity.
  - reflexivity.
  - reflexivity.
Defined.

Lemma X6_describe_needs_no_connection_witness :
  ∃ ks st',
    Forall2 (λ n k, Lite.resolve motor n = Some k)
            ["val"; "egu"; "movn"; "dmov"; "stop"] ks ∧
    Lite.Base_describe motor motor_store
    = (Ok (zip ["val"; "egu"; "movn"; "dmov"; "stop"] ks), st').
Proof.
  apply (X6_describe_needs_no_connection motor motor_store).
  - by exists motor_ops.
  - reflexivity.
  - apply (bool_decide_unpack _). vm_compute. exact I.
  - intros n Hn.
    repeat (apply elem_of_cons in Hn as [->|Hn]; [vm_compute; eauto|]).
    by apply elem_of_nil in Hn.
Defined.

Lemma X7_read_connected_witness :
  ∃ st',
    Lite.Base_read abc abc_store =
      (Ok (zip ["a"; "r"; "b"; "c"]
               ((λ c, Lite.pv_get (LiteExt.chan_read_name c)) <$>
                [rw_channel "XF:1:A"; ro_channel "XF:1:R";
                 rw_channel "XF:1:B"; rw_channel "XF:1:C"])), st').
Proof.
  apply (X7_read_connected abc abc_store).
  - by exists abc_ops.
  - reflexivity.
  - apply (bool_decide_unpack _). vm_compute. exact I.
  - repeat constructor; vm_compute; reflexivity.
Defined.

Lemma X8_set_keeps_earlier_writes_witness :
  ∃ st',
    Lite.SettableBase_set motor [1; 2; 3; 4; 5] ∅ motor_store =
      (Raise (DisconnectedError
                (Lite.pvname (Lite.chan_pv (rw_channel "XF:1.EGU"))
                 +:+ " is not connected")), st') ∧
    Lite.puts st' =
      Lite.puts motor_store ++
      zip ((λ c, Lite.pvname (Lite.chan_pv c)) <$> [rw_channel "XF:1.VAL"])
          [("val", 1)].*2.
Proof.
  apply (X8_set_keeps_earlier_writes motor motor_store [1; 2; 3; 4; 5] ∅
           [("val", 1)] "egu" 2 [("movn", 3); ("dmov", 4); ("stop", 5)]).
  - by exists motor_ops.
  - vm_compute. reflexivity.
  - apply (bool_decide_unpack _). vm_compute. exact I.
  - repeat constructor; vm_compute; reflexivity.
  - vm_compute. reflexivity.
  - reflexivity.
  - vm_compute. reflexivity.
Defined.

Lemma X9_bind_sound_witness :
  take (length [1]) [("a", 1); ("b", 2); ("c", 3)].*2 = [1].
Proof.
  refine (proj1 (proj2 (proj2
    (X9_bind_sound ["a"; "b"; "c"] [1] (<["b":=2]> (<["c":=3]> ∅))
       [("a", 1); ("b", 2); ("c", 3)] _)))).
  vm_compute. reflexivity.
Defined.

Lemma X10_set_rejects_bad_calls_witness :
  ∃ msg, Lite.SettableBase_set abc [1; 2; 3; 4] ∅ abc_store
         = (Raise (TypeError msg), abc_store).
Proof.
  apply X10_set_rejects_bad_calls. left. vm_compute. lia.
Defined.

Lemma X11_set_through_read_only_alias_witness :
  Lite.SettableBase_set alias_inst [7] ∅
    (Lite.run [] (Lite.getattr alias_inst "rbk" alias_store).2)
  = (Raise (AttributeError "put"),
     Lite.run [] (Lite.getattr alias_inst "rbk" alias_store).2).
Proof.
  apply (X11_set_through_read_only_alias alias_inst "rbk" "val"
           (Lite.mkSignal Lite.KSignal "{base_name}.VAL" ()) "XF:1.VAL"
           alias_store [] [7] ∅ 7 []).
  - vm_compute. reflexivity.
  - reflexivity.
  - vm_compute. reflexivity.
  - vm_compute. reflexivity.
  - vm_compute. reflexivity.
  - vm_compute. reflexivity.
Defined.

Lemma X12_first_access_settles_signal_witness :
  AD.objs
    (AD.run [AD.OpGet port_name (Some detector)]
       (AD.ADSignal__get__ array_counter (Some detector) ad_store).2)
    !! length (AD.objs ad_store)
  = Some (AD.new_signal array_counter detector "ArrayCounter").
Proof.
  refine (proj2 (X12_first_access_settles_signal (Val:=nat) array_counter
            detector ad_store "ArrayCounter"
            [AD.OpGet port_name (Some detector)]
            (AD.ADSignal__init__ "ArrayCounter" false (Some "count") ())
            (AD.mkADBase 0 "other" "None" "XF:OTHER:" 0 ∅) _ _ _ _)).
  - vm_compute. reflexivity.
  - vm_compute. reflexivity.
  - reflexivity.
  - vm_compute. reflexivity.
Defined.

Lemma X13_assignment_reaches_signal_witness :
  AD.ADSignal__set__ signal_ch detector 5 ad_store
  = (Raise (AttributeError "channel"), ad_store).
Proof.
  refine (proj2 (X13_assignment_reaches_signal signal_ch
                   detector 5 ad_store) _ _).
  vm_compute. reflexivity.
Defined.

Lemma X14_group_members_witness :
  ∃ signals st',
    AD.fget group detector3 ad_store
    = (Ok (length (AD.objs (AD.group_key group detector3 ad_store).2)), st') ∧
    AD.objs st'
    = AD.objs (AD.group_key group detector3 ad_store).2
      ++ [AD.SignalGroup (AD.grp_kwargs group) signals] ∧
    (AD.dicts st' !!! AD._ad_signals detector3)
      !! AD.KTuple ["XF:AD1:ArrayCounter_RBV"; "XF:AD1:Ch3"]
    = Some (length (AD.objs (AD.group_key group detector3 ad_store).2)) ∧
    Forall2 (λ prop s,
               AD.ADSignal__get__ prop (Some detector3) st'
               = (Ok (AD.VRef s), st'))
            (AD.grp_props group) signals.
Proof.
  apply (X14_group_members (Val:=nat) group detector3 ad_store).
  - vm_compute. reflexivity.
  - vm_compute. reflexivity.
Defined.

Lemma X15_group_member_fails_witness :
  ∃ st',
    AD.fget group detector ad_store
    = (Raise (AttributeError "channel"), st') ∧
    (∀ q k, q ∈ [array_counter] →
            AD.format_self (AD.pv q) detector = Ok k →
            is_Some ((AD.dicts st' !!! AD._ad_signals detector) !! AD.KStr k)) ∧
    (∀ d key, (AD.dicts st' !!! d) !! AD.KTuple key
              = (AD.dicts ad_store !!! d) !! AD.KTuple key) ∧
    (∀ d k r, (AD.dicts ad_store !!! d) !! k = Some r →
              (AD.dicts st' !!! d) !! k = Some r).
Proof.
  apply (X15_group_member_fails (Val:=nat) group detector
           ad_store [array_counter] signal_ch []).
  - reflexivity.
  - intros q Hq. apply list_elem_of_singleton in Hq. subst q.
    eexists. vm_compute. reflexivity.
  - vm_compute. reflexivity.
Defined.

Lemma X17_docstring_update_witness :
  AD.objs
    (AD.ADSignal__get__
       (ADExt.update_docstring docs array_counter NDArrayDriver_cls)
       (Some detector) ad_store).2
    !! length (AD.objs ad_store)
  = Some match AD.new_signal array_counter detector "ArrayCounter" with
         | AD.EpicsSignal rd wr n kw _ =>
             AD.EpicsSignal rd wr n kw
               (Some (default (Doc.lookup_doc docs NDArrayDriver_cls
                                 (AD.pv array_counter))
                              (AD.doc array_counter)))
         | o => o
         end.
Proof.
  refine (proj1 (proj2 (proj2
    (X17_docstring_update (Val:=nat) docs array_counter NDArrayDriver_cls
       detector ad_store "ArrayCounter" [] _ _)))).
  - vm_compute. reflexivity.
  - vm_compute. reflexivity.
Defined.

Lemma X18_find_signal_plain_witness :
  ∃ sensitive insensitive,
    ADExt.find_signal docs NDArrayDriver_class "number" false true
    = Ok sensitive ∧
    ADExt.find_signal docs NDArrayDriver_class "number" false false
    = Ok insensitive ∧
    sensitive = [] ∧
    insensitive = [("array_counter", array_counter, "Number of arrays")].
Proof.
  destruct (X18_find_signal_plain docs NDArrayDriver_class "number")
    as (sensitive & insensitive & Hs & Hi & _).
  - vm_compute. reflexivity.
  - apply (bool_decide_unpack _). vm_compute. exact I.
  - exists sensitive, insensitive. split; [done|]. split; [done|].
    split.
    + vm_compute in Hs. by injection Hs as <-.
    + vm_compute in Hi. by injection Hi as <-.
Defined.

Lemma X19_find_signal_regex_witness :
  ADExt.find_signal docs NDArrayDriver_class "(" true false
  = Raise (ValueError "re.error").
Proof.
  refine (proj1 (X19_find_signal_regex docs NDArrayDriver_class "(" false)
                _ _).
  vm_compute. reflexivity.
Defined.

Lemma X20_undocumented_signal_found_witness :
  ∃ ms, ADExt.find_signal docs NDArrayDriver_class "PORT" false false = Ok ms ∧
        ("port_name", port_name, Doc.not_found (AD.pv port_name)) ∈ ms.
Proof.
  apply (X20_undocumented_signal_found docs NDArrayDriver_class "port_name"
           port_name "Port" "PORT").
  - vm_compute. reflexivity.
  - vm_compute. reflexivity.
  - vm_compute. reflexivity.
  - vm_compute. reflexivity.
  - vm_compute. reflexivity.
  - vm_compute. reflexivity.
Defined.

Lemma X22_signals_builds_all_witness :
  ∃ d s1,
    ADExt.signals Det_class detector3 (ADExt.mkXStore ad_store ∅) = (Ok d, s1) ∧
    d.*1 = ["array_counter"; "ch"; "pair"; "port_name"] ∧
    StronglySorted ADExt.str_le d.*1.
Proof.
  eexists _, _. split; [vm_compute; reflexivity|]. split; [reflexivity|].
  refine (proj1 (proj2 (proj2
    (X22_signals_builds_all Det_class detector3 (ADExt.mkXStore ad_store ∅)
       _ _ _ _)))).
  - reflexivity.
  - vm_compute. reflexivity.
Defined.

End more_examples.
